(** * A shallow embedding of the distributed key-value store

  The development follows the layering of the C++ sources:
  byte-level helpers, the write-ahead log ([wal.cpp]), the storage
  engine ([storage_engine.cpp]), the wire buffer ([protocol.h]), the
  consistent hash ring ([consistent_hash.cpp], [murmurhash3.cpp]), the
  membership manager ([membership.cpp]), the replication manager
  ([replication.cpp]) and the coordinator ([coordinator.cpp]).

  Fixed-width unsigned integers are modelled as [Z] with the
  wrap-around written out where the source can overflow; bytes are
  [Z] values in [0, 256); [std::string] is [string]; the
  [std::unordered_map]s are [gmap]s and the ordered [std::map] of the
  ring is a key-sorted association list. *)

From Stdlib Require Import ZArith Lia List String Ascii Bool.
From stdpp Require Import base option list gmap strings pretty.

Local Open Scope Z_scope.

(** ** Bytes, strings and big-endian integers *)

Module Bytes.

Definition byte_of_ascii (a : ascii) : Z := Z.of_N (N_of_ascii a).
Definition ascii_of_byte (b : Z) : ascii := ascii_of_N (Z.to_N b).

Fixpoint bytes_of_string (s : string) : list Z :=
  match s with
  | EmptyString => []
  | String a s' => byte_of_ascii a :: bytes_of_string s'
  end.

Fixpoint string_of_bytes (l : list Z) : string :=
  match l with
  | [] => EmptyString
  | b :: l' => String (ascii_of_byte b) (string_of_bytes l')
  end.

(** [(v >> 24) & 0xFF, (v >> 16) & 0xFF, (v >> 8) & 0xFF, v & 0xFF] *)
Definition be32 (v : Z) : list Z :=
  [ Z.land (Z.shiftr v 24) 255; Z.land (Z.shiftr v 16) 255;
    Z.land (Z.shiftr v 8) 255;  Z.land v 255 ].

(** [for (int i = 7; i >= 0; --i) push((v >> (i * 8)) & 0xFF)] *)
Definition be64 (v : Z) : list Z :=
  map (fun i => Z.land (Z.shiftr v (i * 8)) 255) [7; 6; 5; 4; 3; 2; 1; 0].

(** [(b0 << 24) | (b1 << 16) | (b2 << 8) | b3] on [uint32_t] *)
Definition dec32 (b0 b1 b2 b3 : Z) : Z :=
  Z.lor (Z.lor (Z.lor (Z.shiftl b0 24) (Z.shiftl b1 16)) (Z.shiftl b2 8)) b3.

(** [v = 0; for each byte: v = (v << 8) | byte] on [uint64_t] *)
Definition dec64 (bs : list Z) : Z :=
  fold_left (fun v b => Z.lor (Z.shiftl v 8 mod 2 ^ 64) b) bs 0.

Definition is_byte (b : Z) : Prop := 0 <= b < 256.

(** The range of a [uint32_t]. *)
Definition u32_range (x : Z) : Prop := 0 <= x < 2 ^ 32.

End Bytes.

(** ** Core types ([types.h]) *)

(** [using Timestamp = uint64_t] *)
Definition Timestamp := Z.

Record VersionedValue := mkVV {
  value : string;
  timestamp : Timestamp;
  origin_node : string
}.

Record NodeInfo := mkNodeInfo {
  node_id : string;
  host : string;
  port : Z;
  is_alive : bool;
  last_heartbeat : Timestamp
}.

(** [enum class OpType : uint8_t]; a value of the enumeration is its
  underlying byte, since [Replay] casts arbitrary bytes to it. *)
Module OpType.
Definition PUT : Z := 1.
Definition GET : Z := 2.
Definition DELETE_OP : Z := 3.
Definition INTERNAL_PUT : Z := 10.
Definition INTERNAL_GET : Z := 11.
Definition INTERNAL_DELETE : Z := 12.
Definition JOIN_CLUSTER : Z := 20.
Definition LEAVE_CLUSTER : Z := 21.
Definition CLUSTER_INFO : Z := 22.
Definition TRANSFER_KEYS : Z := 30.
Definition GOSSIP : Z := 40.
End OpType.

Module StatusCode.
Definition OK : Z := 0.
Definition NOT_FOUND : Z := 1.
Definition ERROR : Z := 2.
End StatusCode.

(** ** Write-ahead log ([wal.cpp]) *)

Module Wal.
Import Bytes.

Record WALEntry := mkEntry {
  op : Z;
  entry_timestamp : Timestamp;
  key : string;
  entry_value : string
}.

(** One entry of [InitCRC32Table]:
    [c = i; 8 times: c = (c >> 1) ^ ((c & 1) ? 0xEDB88320 : 0)]. *)
Definition crc32_step (c : Z) : Z :=
  Z.lxor (Z.shiftr c 1) (if Z.land c 1 =? 0 then 0 else 0xEDB88320).

Definition crc32_entry (i : Z) : Z :=
  Nat.iter 8 crc32_step i.

Definition InitCRC32Table : list Z :=
  map (fun i => crc32_entry (Z.of_nat i)) (seq 0 256).

Definition crc32_table : list Z := Eval vm_compute in InitCRC32Table.

(** [crc = 0xFFFFFFFF; for b: crc = table[(crc ^ b) & 0xFF] ^ (crc >> 8);
    return crc ^ 0xFFFFFFFF] *)
Definition ComputeCRC (data : list Z) : Z :=
  Z.lxor
    (fold_left
       (fun crc b =>
          Z.lxor (nth (Z.to_nat (Z.land (Z.lxor crc b) 255)) crc32_table 0)
                 (Z.shiftr crc 8))
       data 0xFFFFFFFF)
    0xFFFFFFFF.

(** The record built by [Append], without length header and CRC.
    [klen] and [vlen] are [static_cast<uint32_t>(size())]. *)
Definition record_bytes (op : Z) (key value : string) (ts : Timestamp)
  : list Z :=
  let klen := Z.of_nat (String.length key) mod 2 ^ 32 in
  let vlen := Z.of_nat (String.length value) mod 2 ^ 32 in
  [op] ++ be64 ts ++ be32 klen ++ bytes_of_string key
       ++ be32 vlen ++ bytes_of_string value.

(** The on-disk blob [[4B entry_size][record][4B crc]]. *)
Definition blob_bytes (op : Z) (key value : string) (ts : Timestamp)
  : list Z :=
  let record := record_bytes op key value ts in
  let crc := ComputeCRC record in
  let entry_size := Z.of_nat (length record) mod 2 ^ 32 in
  be32 entry_size ++ record ++ be32 crc.

(** The log is its file contents; the descriptor is opened with
    [O_APPEND], so a complete [write] extends the file by the blob. *)
Definition WriteAheadLog := list Z.

Definition Append (op : Z) (key value : string) (ts : Timestamp)
           (wal : WriteAheadLog) : WriteAheadLog :=
  wal ++ blob_bytes op key value ts.

(** [ReadBytes(buf, n)]: [n] bytes from the current position, or
    failure when the file ends first. *)
Definition ReadBytes (n : nat) (f : list Z) : option (list Z * list Z) :=
  if (n <=? length f)%nat then Some (firstn n f, skipn n f) else None.

Definition ReadU32 (f : list Z) : option (Z * list Z) :=
  match ReadBytes 4 f with
  | Some ([b0; b1; b2; b3], rest) => Some (dec32 b0 b1 b2 b3, rest)
  | _ => None
  end.

(** The parse of one record; [None] is a [break] of the replay loop.
    The list argument of each step is [record[pos..]], so that
    [pos + n > record.size()] reads [n > length rest]. *)
Definition parse_record (record : list Z) : option WALEntry :=
  match record with
  | [] => None
  | op :: r1 =>
    match ReadBytes 8 r1 with
    | None => None
    | Some (tsb, r2) =>
      let ts := dec64 tsb in
      match ReadU32 r2 with
      | None => None
      | Some (klen, r3) =>
        match ReadBytes (Z.to_nat klen) r3 with
        | None => None
        | Some (kb, r4) =>
          match ReadU32 r4 with
          | None => None
          | Some (vlen, r5) =>
            match ReadBytes (Z.to_nat vlen) r5 with
            | None => None
            | Some (vb, _) =>
              Some (mkEntry op ts (string_of_bytes kb) (string_of_bytes vb))
            end
          end
        end
      end
    end
  end.

(** The [while (true)] loop of [Replay]; every iteration that does not
    [break] consumes at least eight bytes of the file, so the number
    of iterations is bounded by the file length. *)
Fixpoint replay_loop (fuel : nat) (f : list Z) (entries : list WALEntry)
  : list WALEntry :=
  match fuel with
  | O => entries
  | S fuel' =>
    match ReadU32 f with
    | None => entries
    | Some (entry_size, f1) =>
      match ReadBytes (Z.to_nat entry_size) f1 with
      | None => entries
      | Some (record, f2) =>
        match ReadU32 f2 with
        | None => entries
        | Some (stored_crc, f3) =>
          if ComputeCRC record =? stored_crc then
            match parse_record record with
            | None => entries
            | Some e => replay_loop fuel' f3 (entries ++ [e])
            end
          else entries
        end
      end
    end
  end.

Definition Replay (wal : WriteAheadLog) : list WALEntry :=
  replay_loop (S (length wal)) wal [].

(** [Truncate]: the file is cut to length zero. *)
Definition Truncate (wal : WriteAheadLog) : WriteAheadLog := [].

(** [FileSize]: the [st_size] of the file. *)
Definition FileSize (wal : WriteAheadLog) : nat := length wal.

(** A sequence of [Append] calls on one log. *)
Definition append_all (es : list WALEntry) (wal : WriteAheadLog)
  : WriteAheadLog :=
  fold_left
    (fun w e => Append (op e) (key e) (entry_value e) (entry_timestamp e) w)
    es wal.

(** Arguments that fit the integer types of [Append] and the 32-bit
    length fields of the record. *)
Definition fits (e : WALEntry) : Prop :=
  0 <= op e < 256 /\
  0 <= entry_timestamp e < 2 ^ 64 /\
  17 + Z.of_nat (String.length (key e))
     + Z.of_nat (String.length (entry_value e)) < 2 ^ 32.

End Wal.

(** ** Storage engine ([storage_engine.cpp]) *)

Module Storage.

(** [store_] is the in-memory map, [wal_] the log file the engine owns. *)
Record StorageEngine := mkEngine {
  store_ : gmap string VersionedValue;
  wal_ : Wal.WriteAheadLog
}.

(** The constructor opens (or creates) the log; the map starts empty. *)
Definition open (wal : Wal.WriteAheadLog) : StorageEngine :=
  mkEngine ∅ wal.

Definition Put (key value : string) (ts : Timestamp) (origin : string)
           (e : StorageEngine) : bool * StorageEngine :=
  let wal' := Wal.Append OpType.PUT key value ts (wal_ e) in
  match store_ e !! key with
  | Some existing =>
    if timestamp existing >=? ts then (false, mkEngine (store_ e) wal')
    else (true, mkEngine (<[key := mkVV value ts origin]> (store_ e)) wal')
  | None => (true, mkEngine (<[key := mkVV value ts origin]> (store_ e)) wal')
  end.

Definition Get (key : string) (e : StorageEngine) : option VersionedValue :=
  store_ e !! key.

Definition Delete (key : string) (ts : Timestamp) (e : StorageEngine)
  : bool * StorageEngine :=
  let wal' := Wal.Append OpType.DELETE_OP key "" ts (wal_ e) in
  match store_ e !! key with
  | None => (false, mkEngine (store_ e) wal')
  | Some existing =>
    if timestamp existing >=? ts then (false, mkEngine (store_ e) wal')
    else (true, mkEngine (delete key (store_ e)) wal')
  end.

Definition ConditionalPut (key : string) (vv : VersionedValue)
           (e : StorageEngine) : bool * StorageEngine :=
  let wal' := Wal.Append OpType.PUT key (value vv) (timestamp vv) (wal_ e) in
  match store_ e !! key with
  | Some existing =>
    if timestamp existing >=? timestamp vv
    then (false, mkEngine (store_ e) wal')
    else (true, mkEngine (<[key := vv]> (store_ e)) wal')
  | None => (true, mkEngine (<[key := vv]> (store_ e)) wal')
  end.

(** The body of the [for] loop of [BulkPut]; it touches [store_] only. *)
Definition bulk_step (store : gmap string VersionedValue)
           (kv : string * VersionedValue) : gmap string VersionedValue :=
  let '(key, vv) := kv in
  match store !! key with
  | None => <[key := vv]> store
  | Some existing =>
    if timestamp existing <? timestamp vv then <[key := vv]> store else store
  end.

Definition BulkPut (entries : list (string * VersionedValue))
           (e : StorageEngine) : StorageEngine :=
  mkEngine (fold_left bulk_step entries (store_ e)) (wal_ e).

Definition RemoveKeys (keys : list string) (e : StorageEngine)
  : StorageEngine :=
  mkEngine (fold_left (fun s k => delete k s) keys (store_ e)) (wal_ e).

(** The body of the [for] loop of [Recover] (the [applied] counter is
    only logged). *)
Definition recover_step (store : gmap string VersionedValue)
           (entry : Wal.WALEntry) : gmap string VersionedValue :=
  let k := Wal.key entry in
  let ts := Wal.entry_timestamp entry in
  if (Wal.op entry =? OpType.PUT) || (Wal.op entry =? OpType.INTERNAL_PUT)
  then
    match store !! k with
    | None => <[k := mkVV (Wal.entry_value entry) ts ""]> store
    | Some existing =>
      if timestamp existing <? ts
      then <[k := mkVV (Wal.entry_value entry) ts ""]> store
      else store
    end
  else if (Wal.op entry =? OpType.DELETE_OP)
          || (Wal.op entry =? OpType.INTERNAL_DELETE)
  then
    match store !! k with
    | Some existing =>
      if timestamp existing <=? ts then delete k store else store
    | None => store
    end
  else store.

Definition Recover (e : StorageEngine) : StorageEngine :=
  mkEngine (fold_left recover_step (Wal.Replay (wal_ e)) (store_ e)) (wal_ e).

Definition Size (e : StorageEngine) : nat := size (store_ e).

(** A client of the engine: a sequence of [Put] and [Delete] calls. *)
Inductive Op :=
| OpPut (key value : string) (ts : Timestamp) (origin : string)
| OpDelete (key : string) (ts : Timestamp).

Definition apply_op (e : StorageEngine) (o : Op) : StorageEngine :=
  match o with
  | OpPut k v ts origin => snd (Put k v ts origin e)
  | OpDelete k ts => snd (Delete k ts e)
  end.

Definition apply_ops (ops : list Op) (e : StorageEngine) : StorageEngine :=
  fold_left apply_op ops e.

(** The record an operation appends to the log before it looks at the
    map. *)
Definition op_entry (o : Op) : Wal.WALEntry :=
  match o with
  | OpPut k v ts _ => Wal.mkEntry OpType.PUT ts k v
  | OpDelete k ts => Wal.mkEntry OpType.DELETE_OP ts k ""
  end.

(** A value as [Recover] rebuilds it: the log keeps no origin. *)
Definition recovered (vv : VersionedValue) : VersionedValue :=
  mkVV (value vv) (timestamp vv) "".

(** Every stored value of the live engine came from a [Put] among [ops]. *)
Definition from_puts (ops : list Op) (e : StorageEngine) : Prop :=
  ∀ k x, store_ e !! k = Some x →
         ∃ v origin, In (OpPut k v (timestamp x) origin) ops.

(** An operation list made of [Put]s only. *)
Definition puts_only (ops : list Op) : Prop :=
  ∀ o, In o ops → ∃ k v ts origin, o = OpPut k v ts origin.

(** The key an operation addresses. *)
Definition op_key (o : Op) : string :=
  match o with OpPut k _ _ _ => k | OpDelete k _ => k end.

(** The stored timestamp of [key] is below [bound], or [key] is absent. *)
Definition below (bound : Timestamp) (key : string) (e : StorageEngine)
  : Prop :=
  match Get key e with
  | None => True
  | Some x => timestamp x < bound
  end.

End Storage.

(** ** Wire buffer ([protocol.h]) *)

Module Buffer.
Import Bytes.

Record ByteBuffer := mkBuf {
  data_ : list Z;
  read_pos_ : nat
}.

Definition empty : ByteBuffer := mkBuf [] 0.

(** *** Writers *)

Definition WriteUint8 (val : Z) (b : ByteBuffer) : ByteBuffer :=
  mkBuf (data_ b ++ [val]) (read_pos_ b).

(** [htons] followed by a byte copy: the two bytes, high first. *)
Definition WriteUint16 (val : Z) (b : ByteBuffer) : ByteBuffer :=
  mkBuf (data_ b ++ [Z.land (Z.shiftr val 8) 255; Z.land val 255])
        (read_pos_ b).

Definition WriteUint32 (val : Z) (b : ByteBuffer) : ByteBuffer :=
  mkBuf (data_ b ++ be32 val) (read_pos_ b).

Definition WriteUint64 (val : Z) (b : ByteBuffer) : ByteBuffer :=
  mkBuf (data_ b ++ be64 val) (read_pos_ b).

Definition WriteString (s : string) (b : ByteBuffer) : ByteBuffer :=
  let b1 := WriteUint32 (Z.of_nat (String.length s) mod 2 ^ 32) b in
  mkBuf (data_ b1 ++ bytes_of_string s) (read_pos_ b1).

Definition WriteBool (v : bool) (b : ByteBuffer) : ByteBuffer :=
  WriteUint8 (if v then 1 else 0) b.

(** The bytes [WriteString] appends: the length as a [uint32_t], then
    the characters. *)
Definition string_field (s : string) : list Z :=
  be32 (Z.of_nat (String.length s) mod 2 ^ 32) ++ bytes_of_string s.

(** *** Readers; [None] is the [std::runtime_error] of [EnsureReadable] *)

Definition EnsureReadable (n : nat) (b : ByteBuffer) : bool :=
  (read_pos_ b + n <=? length (data_ b))%nat.

(** The [n] bytes at the read position, which then advances by [n]. *)
Definition take_bytes (n : nat) (b : ByteBuffer)
  : option (list Z * ByteBuffer) :=
  if EnsureReadable n b
  then Some (firstn n (skipn (read_pos_ b) (data_ b)),
             mkBuf (data_ b) (read_pos_ b + n))
  else None.

Definition ReadUint8 (b : ByteBuffer) : option (Z * ByteBuffer) :=
  match take_bytes 1 b with
  | Some ([v], b') => Some (v, b')
  | _ => None
  end.

Definition ReadUint16 (b : ByteBuffer) : option (Z * ByteBuffer) :=
  match take_bytes 2 b with
  | Some ([b0; b1], b') => Some (Z.lor (Z.shiftl b0 8) b1, b')
  | _ => None
  end.

Definition ReadUint32 (b : ByteBuffer) : option (Z * ByteBuffer) :=
  match take_bytes 4 b with
  | Some ([b0; b1; b2; b3], b') => Some (dec32 b0 b1 b2 b3, b')
  | _ => None
  end.

Definition ReadUint64 (b : ByteBuffer) : option (Z * ByteBuffer) :=
  match take_bytes 8 b with
  | Some (bs, b') => Some (dec64 bs, b')
  | None => None
  end.

Definition ReadString (b : ByteBuffer) : option (string * ByteBuffer) :=
  match ReadUint32 b with
  | None => None
  | Some (len, b1) =>
    match take_bytes (Z.to_nat len) b1 with
    | Some (bs, b2) => Some (string_of_bytes bs, b2)
    | None => None
    end
  end.

Definition ReadBool (b : ByteBuffer) : option (bool * ByteBuffer) :=
  match ReadUint8 b with
  | Some (v, b') => Some (negb (v =? 0), b')
  | None => None
  end.

(** *** Response builders *)

Definition MakeOkResponse : ByteBuffer :=
  WriteUint8 StatusCode.OK empty.

Definition MakeErrorResponse (msg : string) : ByteBuffer :=
  WriteString msg (WriteUint8 StatusCode.ERROR empty).

Definition MakeNotFoundResponse : ByteBuffer :=
  WriteUint8 StatusCode.NOT_FOUND empty.

Definition MakeValueResponse (vv : VersionedValue) : ByteBuffer :=
  WriteString (origin_node vv)
    (WriteUint64 (timestamp vv)
       (WriteString (value vv) (WriteUint8 StatusCode.OK empty))).

End Buffer.

(** ** MurmurHash3 ([murmurhash3.cpp], [murmurhash3.h]) *)

Module Murmur.
Import Bytes.

(** Reduction to [uint32_t]. *)
Definition u32 (x : Z) : Z := x mod 2 ^ 32.

Definition rotl32 (x r : Z) : Z :=
  Z.lor (u32 (Z.shiftl x r)) (Z.shiftr x (32 - r)).

Definition fmix32 (h : Z) : Z :=
  let h := Z.lxor h (Z.shiftr h 16) in
  let h := u32 (h * 0x85ebca6b) in
  let h := Z.lxor h (Z.shiftr h 13) in
  let h := u32 (h * 0xc2b2ae35) in
  let h := Z.lxor h (Z.shiftr h 16) in
  h.

Definition c1 : Z := 0xcc9e2d51.
Definition c2 : Z := 0x1b873593.

(** [k1 *= c1; k1 = rotl32(k1, 15); k1 *= c2] *)
Definition mix_k1 (k1 : Z) : Z :=
  let k1 := u32 (k1 * c1) in
  let k1 := rotl32 k1 15 in
  u32 (k1 * c2).

(** The body loop over the [nblocks] four-byte blocks, each copied into
    a [uint32_t] on a little-endian host; returns the hash state and the
    tail bytes. *)
Fixpoint body (nblocks : nat) (data : list Z) (h1 : Z) : Z * list Z :=
  match nblocks, data with
  | S n, b0 :: b1 :: b2 :: b3 :: rest =>
    let k1 :=
      Z.lor (Z.lor (Z.lor b0 (Z.shiftl b1 8)) (Z.shiftl b2 16))
            (Z.shiftl b3 24) in
    let k1 := mix_k1 k1 in
    let h1 := Z.lxor h1 k1 in
    let h1 := rotl32 h1 13 in
    let h1 := u32 (h1 * 5 + 0xe6546b64) in
    body n rest h1
  | _, _ => (h1, data)
  end.

(** The [switch (len & 3)] with its fall-through cases. *)
Definition tail_k1 (tail : list Z) : option Z :=
  match tail with
  | [t0] => Some t0
  | [t0; t1] => Some (Z.lxor (Z.shiftl t1 8) t0)
  | t0 :: t1 :: t2 :: _ =>
    Some (Z.lxor (Z.lxor (Z.shiftl t2 16) (Z.shiftl t1 8)) t0)
  | [] => None
  end.

Definition MurmurHash3_x86_32 (key : list Z) (seed : Z) : Z :=
  let len := Z.of_nat (length key) in
  let nblocks := Z.to_nat (len / 4) in
  let '(h1, tail) := body nblocks key seed in
  let h1 :=
    match tail_k1 tail with
    | Some k1 => Z.lxor h1 (mix_k1 k1)
    | None => h1
    end in
  let h1 := Z.lxor h1 (u32 len) in
  fmix32 h1.

(** [Hash(key, seed = 0)] *)
Definition Hash (key : string) : Z :=
  MurmurHash3_x86_32 (bytes_of_string key) 0.

End Murmur.

(** ** Consistent hash ring ([consistent_hash.cpp]) *)

Module Ring.

(** [ring_] is the [std::map<uint32_t, std::string>], kept as an
    association list in increasing key order. *)
Record ConsistentHashRing := mkRing {
  virtual_nodes_ : Z;
  ring_ : list (Z * string);
  physical_nodes_ : gset string
}.

Definition create (virtual_nodes : Z) : ConsistentHashRing :=
  mkRing virtual_nodes [] ∅.

(** [ring_[hash] = node_id] *)
Fixpoint map_assign (hash : Z) (nid : string) (r : list (Z * string))
  : list (Z * string) :=
  match r with
  | [] => [(hash, nid)]
  | (p, n) :: r' =>
    if hash <? p then (hash, nid) :: (p, n) :: r'
    else if hash =? p then (hash, nid) :: r'
    else (p, n) :: map_assign hash nid r'
  end.

(** [ring_.erase(hash)] *)
Fixpoint map_erase (hash : Z) (r : list (Z * string)) : list (Z * string) :=
  match r with
  | [] => []
  | (p, n) :: r' =>
    if hash =? p then r' else (p, n) :: map_erase hash r'
  end.

(** [ring_.upper_bound(hash)] as an index; [length r] is [ring_.end()]. *)
Fixpoint upper_bound (hash : Z) (r : list (Z * string)) : nat :=
  match r with
  | [] => O
  | (p, _) :: r' => if p <=? hash then S (upper_bound hash r') else O
  end.

(** [node_id + "#" + std::to_string(index)] *)
Definition VnodeKey (nid : string) (index : Z) : string :=
  nid +:+ "#" +:+ pretty index.

Definition AddNode (nid : string) (r : ConsistentHashRing)
  : ConsistentHashRing :=
  if decide (nid ∈ physical_nodes_ r) then r
  else
    mkRing (virtual_nodes_ r)
           (fold_left
              (fun m i => map_assign (Murmur.Hash (VnodeKey nid i)) nid m)
              (seqZ 0 (virtual_nodes_ r)) (ring_ r))
           ({[nid]} ∪ physical_nodes_ r).

Definition RemoveNode (nid : string) (r : ConsistentHashRing)
  : ConsistentHashRing :=
  if decide (nid ∈ physical_nodes_ r) then
    mkRing (virtual_nodes_ r)
           (fold_left
              (fun m i => map_erase (Murmur.Hash (VnodeKey nid i)) m)
              (seqZ 0 (virtual_nodes_ r)) (ring_ r))
           (physical_nodes_ r ∖ {[nid]})
  else r.

Definition HasNode (nid : string) (r : ConsistentHashRing) : bool :=
  bool_decide (nid ∈ physical_nodes_ r).

Definition NodeCount (r : ConsistentHashRing) : nat :=
  size (physical_nodes_ r).

Definition RingSize (r : ConsistentHashRing) : nat := length (ring_ r).

(** [None] is the [std::runtime_error] thrown on an empty ring. *)
Definition GetPrimaryNode (key : string) (r : ConsistentHashRing)
  : option string :=
  match ring_ r with
  | [] => None
  | first :: _ =>
    let it := upper_bound (Murmur.Hash key) (ring_ r) in
    match ring_ r !! it with
    | Some (_, nid) => Some nid
    | None => Some (snd first)
    end
  end.

(** The [while] loop of [GetNodes]. [fuel] is [ring_.size() - steps],
    [it] the iterator as an index, [seen] the set of collected ids. *)
Fixpoint walk (ring : list (Z * string)) (count : Z) (fuel : nat) (it : nat)
         (result : list string) (seen : gset string) : list string :=
  match fuel with
  | O => result
  | S fuel' =>
    if Z.of_nat (length result) <? count then
      let it := if (it =? length ring)%nat then O else it in
      match ring !! it with
      | Some (_, nid) =>
        if decide (nid ∈ seen)
        then walk ring count fuel' (S it) result seen
        else walk ring count fuel' (S it) (result ++ [nid]) ({[nid]} ∪ seen)
      | None => result
      end
    else result
  end.

(** Positions strictly increase along the list, as the iteration order
    of [std::map] has them. *)
Fixpoint ascending (r : list (Z * string)) : Prop :=
  match r with
  | [] => True
  | (p, _) :: r' => (∀ q m, (q, m) ∈ r' → p < q) ∧ ascending r'
  end.

(** A ring obtained from the constructor by [AddNode] and [RemoveNode]. *)
Inductive built : ConsistentHashRing → Prop :=
| built_create (virtual_nodes : Z) : built (create virtual_nodes)
| built_add (nid : string) (r : ConsistentHashRing) :
    built r → built (AddNode nid r)
| built_remove (nid : string) (r : ConsistentHashRing) :
    built r → built (RemoveNode nid r).

(** Every position is a virtual node of a current physical node. *)
Definition positions_owned (r : ConsistentHashRing) : Prop :=
  ∀ p n, (p, n) ∈ ring_ r →
         n ∈ physical_nodes_ r ∧
         ∃ i, 0 <= i < virtual_nodes_ r ∧ p = Murmur.Hash (VnodeKey n i).

(** The loop of [GetNodes] run over the node ids it visits, in order. *)
Fixpoint collect (count : Z) (ids : list string) (result : list string)
         (seen : gset string) : list string :=
  match ids with
  | [] => result
  | nid :: ids' =>
    if Z.of_nat (length result) <? count then
      if decide (nid ∈ seen)
      then collect count ids' result seen
      else collect count ids' (result ++ [nid]) ({[nid]} ∪ seen)
    else result
  end.

(** The iterator after the wrap-around test of the loop body. *)
Definition wrap (ring : list (Z * string)) (it : nat) : nat :=
  if (it =? length ring)%nat then O else it.

(** The physical nodes that own at least one position on the ring. *)
Definition owners (r : ConsistentHashRing) : gset string :=
  list_to_set (ring_ r).*2.

Definition GetNodes (key : string) (count : Z) (r : ConsistentHashRing)
  : option (list string) :=
  match ring_ r with
  | [] => None
  | _ =>
    let available := Z.of_nat (size (physical_nodes_ r)) in
    let count := if count >? available then available else count in
    let it := upper_bound (Murmur.Hash key) (ring_ r) in
    Some (walk (ring_ r) count (length (ring_ r)) it [] ∅)
  end.

End Ring.

(** ** Compile-time configuration ([config.h]) *)

Module config.
Definition DEFAULT_REPLICATION_FACTOR : Z := 3.
Definition DEFAULT_READ_QUORUM : Z := 2.
Definition DEFAULT_WRITE_QUORUM : Z := 2.
Definition VIRTUAL_NODES_PER_NODE : Z := 150.
Definition MAX_MESSAGE_SIZE : Z := 64 * 1024 * 1024.
Definition GOSSIP_INTERVAL_MS : Z := 1000.
Definition FAILURE_TIMEOUT_MS : Z := 5000.
Definition GOSSIP_FANOUT : Z := 2.
End config.

(** ** Membership manager ([membership.cpp]) *)

Module Membership.
Import Buffer.

Record MembershipManager := mkMembership {
  self_ : NodeInfo;
  members_ : gmap string NodeInfo
}.

(** The constructor; [now] is the reading of [NowMs()]. *)
Definition create (self : NodeInfo) (now : Timestamp) : MembershipManager :=
  let self' := mkNodeInfo (node_id self) (host self) (port self) true now in
  mkMembership self' (<[node_id self' := self']> ∅).

(** [AddMember]; the boolean is [is_new], on which [on_join_] fires. *)
Definition AddMember (node : NodeInfo) (m : MembershipManager)
  : MembershipManager * bool :=
  match members_ m !! node_id node with
  | None =>
    (mkMembership (self_ m) (<[node_id node := node]> (members_ m)), true)
  | Some known =>
    if last_heartbeat node >? last_heartbeat known then
      let upd :=
        mkNodeInfo (node_id known) (host known) (port known)
                   (is_alive known) (last_heartbeat node) in
      if negb (is_alive known) && is_alive node then
        let upd' :=
          mkNodeInfo (node_id upd) (host upd) (port upd) true
                     (last_heartbeat upd) in
        (mkMembership (self_ m) (<[node_id node := upd']> (members_ m)), true)
      else
        (mkMembership (self_ m) (<[node_id node := upd]> (members_ m)), false)
    else (m, false)
  end.

(** [RemoveMember]; the boolean tells whether [on_leave_] fires. *)
Definition RemoveMember (nid : string) (m : MembershipManager)
  : MembershipManager * bool :=
  if decide (nid = node_id (self_ m)) then (m, false)
  else
    match members_ m !! nid with
    | None => (m, false)
    | Some known =>
      let upd :=
        mkNodeInfo (node_id known) (host known) (port known) false
                   (last_heartbeat known) in
      (mkMembership (self_ m) (<[nid := upd]> (members_ m)), true)
    end.

Definition GetMember (nid : string) (m : MembershipManager)
  : option NodeInfo :=
  members_ m !! nid.

(** The five reads that fill one [NodeInfo] of a gossip message. *)
Definition read_entry (msg : ByteBuffer) : option (NodeInfo * ByteBuffer) :=
  match ReadString msg with
  | None => None
  | Some (nid, m1) =>
    match ReadString m1 with
    | None => None
    | Some (h, m2) =>
      match ReadUint16 m2 with
      | None => None
      | Some (p, m3) =>
        match ReadUint64 m3 with
        | None => None
        | Some (hb, m4) =>
          match ReadBool m4 with
          | None => None
          | Some (alive, m5) => Some (mkNodeInfo nid h p alive hb, m5)
          end
        end
      end
    end
  end.

(** The [for (i < count)] loop of [HandleGossipMessage]. The result
    carries the nodes handed to [on_join_] and whether the loop ran to
    its end ([false]: a read threw and left the entries merged so far). *)
Fixpoint gossip_loop (count : nat) (msg : ByteBuffer) (m : MembershipManager)
         (joined : list NodeInfo)
  : MembershipManager * list NodeInfo * bool :=
  match count with
  | O => (m, joined, true)
  | S count' =>
    match read_entry msg with
    | None => (m, joined, false)
    | Some (info, msg') =>
      if decide (node_id info = node_id (self_ m))
      then gossip_loop count' msg' m joined
      else
        let '(m', is_new) := AddMember info m in
        gossip_loop count' msg' m' (if is_new then joined ++ [info] else joined)
    end
  end.

Definition HandleGossipMessage (msg : ByteBuffer) (m : MembershipManager)
  : MembershipManager * list NodeInfo * bool :=
  match ReadUint32 msg with
  | None => (m, [], false)
  | Some (count, msg') => gossip_loop (Z.to_nat count) msg' m []
  end.

(** The members in the iteration order of [members_]; the order of a
    [std::unordered_map] is unspecified, [map_to_list] fixes one. *)
Definition GetAllMembers (m : MembershipManager) : list NodeInfo :=
  (map_to_list (members_ m)).*2.

Definition GetAliveMembers (m : MembershipManager) : list NodeInfo :=
  filter (fun info => is_alive info = true) (GetAllMembers m).

(** The five writes of one member in [CreateGossipMessage]. *)
Definition write_entry (buf : ByteBuffer) (info : NodeInfo) : ByteBuffer :=
  WriteBool (is_alive info)
    (WriteUint64 (last_heartbeat info)
       (WriteUint16 (port info)
          (WriteString (host info) (WriteString (node_id info) buf)))).

Definition CreateGossipMessage (m : MembershipManager) : ByteBuffer :=
  fold_left write_entry (GetAllMembers m)
    (WriteUint32 (Z.of_nat (size (members_ m)) mod 2 ^ 32)
       (WriteUint8 OpType.GOSSIP empty)).

(** What the receiving side holds after [RecvMessage] and the opcode
    read of [HandleRequest]: the sent bytes, read position one. *)
Definition received_payload (sent : ByteBuffer) : ByteBuffer :=
  mkBuf (data_ sent) 1.

(** The bytes one member takes in a gossip message. *)
Definition entry_bytes (info : NodeInfo) : list Z :=
  string_field (node_id info) ++ string_field (host info)
    ++ [Z.land (Z.shiftr (port info) 8) 255; Z.land (port info) 255]
    ++ Bytes.be64 (last_heartbeat info)
    ++ [if is_alive info then 1 else 0].

(** A member whose fields fit the types of [NodeInfo] and the length
    fields of the message. *)
Definition entry_fits (info : NodeInfo) : Prop :=
  Z.of_nat (String.length (node_id info)) < 2 ^ 32 ∧
  Z.of_nat (String.length (host info)) < 2 ^ 32 ∧
  0 <= port info < 2 ^ 16 ∧
  0 <= last_heartbeat info < 2 ^ 64.

(** The merge loop of [HandleGossipMessage] over decoded entries. *)
Definition merge_entry (acc : MembershipManager * list NodeInfo)
           (info : NodeInfo) : MembershipManager * list NodeInfo :=
  let '(m, joined) := acc in
  if decide (node_id info = node_id (self_ m)) then (m, joined)
  else
    let '(m', is_new) := AddMember info m in
    (m', if is_new then joined ++ [info] else joined).

(** One pass of [FailureDetectionLoop]: the members that have been
    silent for too long, in iteration order. The subtraction is on
    [uint64_t]. *)
Definition is_expired (now : Timestamp) (self_id : string)
           (kv : string * NodeInfo) : bool :=
  negb (bool_decide (kv.1 = self_id))
  && is_alive kv.2
  && ((now - last_heartbeat kv.2) mod 2 ^ 64 >? config.FAILURE_TIMEOUT_MS).

Definition dead_nodes (now : Timestamp) (m : MembershipManager)
  : list string :=
  omap (fun kv => if is_expired now (node_id (self_ m)) kv
                  then Some kv.1 else None)
       (map_to_list (members_ m)).

(** The [RemoveMember] calls of the pass; the second component lists
    the ids handed to [on_leave_]. *)
Definition remove_dead (acc : MembershipManager * list string) (nid : string)
  : MembershipManager * list string :=
  let '(m', fired) := RemoveMember nid acc.1 in
  (m', if fired then acc.2 ++ [nid] else acc.2).

Definition failure_pass (now : Timestamp) (m : MembershipManager)
  : MembershipManager * list string :=
  fold_left remove_dead (dead_nodes now m) (m, []).

End Membership.

(** ** Replication manager ([replication.cpp], [replication.h]) *)

Module Replication.

Record ReplicationManager := mkReplication {
  self_id_ : string;
  N_ : Z;
  R_ : Z;
  W_ : Z
}.

Record WriteResult := mkWriteResult {
  success : bool;
  acks : Z;
  error : string
}.

Record ReadResult := mkReadResult {
  read_success : bool;
  read_value : option VersionedValue;
  responses : Z;
  read_error : string
}.

Record ReadResponse := mkReadResponse {
  ok : bool;
  resp_value : option VersionedValue;
  resp_node_id : string
}.

Section Peers.

(** What the network does with one INTERNAL_PUT call to a peer that the
    membership view holds alive: [true] iff the connection is made and
    the answer carries status OK. *)
Variable remote_put :
  NodeInfo -> string -> string -> Timestamp -> string -> bool.

(** What the network does with one INTERNAL_GET call: [None] when the
    call fails or its answer cannot be decoded, otherwise the value the
    peer holds, if any. *)
Variable remote_get : NodeInfo -> string -> option (option VersionedValue).

(** One iteration of the launch loop of [ReplicatedPut]: the future's
    result, and the local engine after a local write. *)
Definition put_replica (rm : ReplicationManager)
           (membership : Membership.MembershipManager)
           (key value : string) (ts : Timestamp)
           (acc : list bool * Storage.StorageEngine) (nid : string)
  : list bool * Storage.StorageEngine :=
  let '(futures, storage) := acc in
  if decide (nid = self_id_ rm) then
    let '(r, storage') := Storage.Put key value ts (self_id_ rm) storage in
    (futures ++ [r], storage')
  else
    match Membership.GetMember nid membership with
    | Some member =>
      if is_alive member
      then (futures ++ [remote_put member key value ts (self_id_ rm)], storage)
      else (futures ++ [false], storage)
    | None => (futures ++ [false], storage)
    end.

(** The launch loop of [ReplicatedPut]: one future per replica. *)
Definition launch_puts (rm : ReplicationManager)
           (membership : Membership.MembershipManager)
           (key value : string) (ts : Timestamp) (nodes : list string)
           (storage : Storage.StorageEngine)
  : list bool * Storage.StorageEngine :=
  fold_left (put_replica rm membership key value ts) nodes ([], storage).

(** [for (fut : futures) if (fut.get()) result.acks++] *)
Definition count_acks (futures : list bool) : Z :=
  fold_left (fun acks r => if r : bool then acks + 1 else acks) futures 0.

(** [ReplicatedPut]; [now] is the reading of [NowMs()], [None] the
    exception of [GetNodes] on an empty ring. *)
Definition ReplicatedPut (rm : ReplicationManager)
           (ring : Ring.ConsistentHashRing)
           (membership : Membership.MembershipManager)
           (now : Timestamp) (key value : string)
           (storage : Storage.StorageEngine)
  : option (WriteResult * Storage.StorageEngine) :=
  match Ring.GetNodes key (N_ rm) ring with
  | None => None
  | Some [] => Some (mkWriteResult false 0 "No nodes available", storage)
  | Some nodes =>
    let '(futures, storage') :=
      launch_puts rm membership key value now nodes storage in
    let acks := count_acks futures in
    if acks >=? W_ rm then Some (mkWriteResult true acks "", storage')
    else
      Some (mkWriteResult false acks
              ("Quorum not reached: " +:+ pretty acks +:+ "/"
                 +:+ pretty (W_ rm) +:+ " acks"),
            storage')
  end.

(** One iteration of the launch loop of [ReplicatedGet]; a future that
    throws contributes no response. *)
Definition get_replica (rm : ReplicationManager)
           (membership : Membership.MembershipManager)
           (storage : Storage.StorageEngine) (key : string) (nid : string)
  : option ReadResponse :=
  if decide (nid = self_id_ rm) then
    Some (mkReadResponse true (Storage.Get key storage) (self_id_ rm))
  else
    match Membership.GetMember nid membership with
    | Some member =>
      if is_alive member then
        match remote_get member key with
        | Some v => Some (mkReadResponse true v nid)
        | None => Some (mkReadResponse false None nid)
        end
      else Some (mkReadResponse false None nid)
    | None => Some (mkReadResponse false None nid)
    end.

(** The responses with [ok] set, in launch order. *)
Definition collect_responses (futures : list (option ReadResponse))
  : list ReadResponse :=
  omap (fun f => match f with
                 | Some r => if ok r then Some r else None
                 | None => None
                 end) futures.

(** The loop that looks for the latest version, from
    [latest.timestamp = 0; found = false]. *)
Definition latest_step (acc : VersionedValue * bool) (resp : ReadResponse)
  : VersionedValue * bool :=
  match resp_value resp with
  | Some v => if timestamp v >? timestamp (fst acc) then (v, true) else acc
  | None => acc
  end.

Definition find_latest (resps : list ReadResponse) : VersionedValue * bool :=
  fold_left latest_step resps (mkVV "" 0 "", false).

Definition is_stale (latest : VersionedValue) (resp : ReadResponse) : bool :=
  match resp_value resp with
  | None => true
  | Some v => timestamp v <? timestamp latest
  end.

(** One iteration of the read-repair loop: a local [ConditionalPut], or
    an INTERNAL_PUT sent to a live peer and not waited for. *)
Definition repair_step (rm : ReplicationManager)
           (membership : Membership.MembershipManager)
           (key : string) (latest : VersionedValue)
           (acc : Storage.StorageEngine * list (NodeInfo * VersionedValue))
           (resp : ReadResponse)
  : Storage.StorageEngine * list (NodeInfo * VersionedValue) :=
  let '(storage, sent) := acc in
  if is_stale latest resp then
    if decide (resp_node_id resp = self_id_ rm) then
      (snd (Storage.ConditionalPut key latest storage), sent)
    else
      match Membership.GetMember (resp_node_id resp) membership with
      | Some member =>
        if is_alive member then (storage, sent ++ [(member, latest)])
        else (storage, sent)
      | None => (storage, sent)
      end
  else (storage, sent).

Definition ReplicatedGet (rm : ReplicationManager)
           (ring : Ring.ConsistentHashRing)
           (membership : Membership.MembershipManager)
           (key : string) (storage : Storage.StorageEngine)
  : option (ReadResult * Storage.StorageEngine
            * list (NodeInfo * VersionedValue)) :=
  match Ring.GetNodes key (N_ rm) ring with
  | None => None
  | Some [] =>
    Some (mkReadResult false None 0 "No nodes available", storage, [])
  | Some nodes =>
    let futures := map (get_replica rm membership storage key) nodes in
    let resps := collect_responses futures in
    let n := Z.of_nat (length resps) in
    if n <? R_ rm then
      Some (mkReadResult false None n
              ("Read quorum not reached: " +:+ pretty n +:+ "/"
                 +:+ pretty (R_ rm)),
            storage, [])
    else
      let '(latest, found) := find_latest resps in
      if found then
        let '(storage', sent) :=
          fold_left (repair_step rm membership key latest) resps
                    (storage, []) in
        Some (mkReadResult true (Some latest) n "", storage', sent)
      else Some (mkReadResult true None n "", storage, [])
  end.

End Peers.

Section DeletePeers.

(** What the network does with one INTERNAL_DELETE call to a peer held
    alive: [true] iff the connection is made and the answer carries
    status OK. *)
Variable remote_delete : NodeInfo -> string -> Timestamp -> bool.

(** One iteration of the launch loop of [ReplicatedDelete]. *)
Definition delete_replica (rm : ReplicationManager)
           (membership : Membership.MembershipManager)
           (key : string) (ts : Timestamp)
           (acc : list bool * Storage.StorageEngine) (nid : string)
  : list bool * Storage.StorageEngine :=
  let '(futures, storage) := acc in
  if decide (nid = self_id_ rm) then
    let '(r, storage') := Storage.Delete key ts storage in
    (futures ++ [r], storage')
  else
    match Membership.GetMember nid membership with
    | Some member =>
      if is_alive member
      then (futures ++ [remote_delete member key ts], storage)
      else (futures ++ [false], storage)
    | None => (futures ++ [false], storage)
    end.

Definition launch_deletes (rm : ReplicationManager)
           (membership : Membership.MembershipManager)
           (key : string) (ts : Timestamp) (nodes : list string)
           (storage : Storage.StorageEngine)
  : list bool * Storage.StorageEngine :=
  fold_left (delete_replica rm membership key ts) nodes ([], storage).

Definition ReplicatedDelete (rm : ReplicationManager)
           (ring : Ring.ConsistentHashRing)
           (membership : Membership.MembershipManager)
           (now : Timestamp) (key : string)
           (storage : Storage.StorageEngine)
  : option (WriteResult * Storage.StorageEngine) :=
  match Ring.GetNodes key (N_ rm) ring with
  | None => None
  | Some [] => Some (mkWriteResult false 0 "No nodes available", storage)
  | Some nodes =>
    let '(futures, storage') :=
      launch_deletes rm membership key now nodes storage in
    let acks := count_acks futures in
    if acks >=? W_ rm then Some (mkWriteResult true acks "", storage')
    else Some (mkWriteResult false acks "Delete quorum not reached", storage')
  end.

End DeletePeers.

(** What the calling side makes of the answer to INTERNAL_PUT or
    INTERNAL_DELETE: the status byte is OK. A read that throws leaves
    the future with an exception, which counts as no ack. *)
Definition decode_ack (resp : Buffer.ByteBuffer) : bool :=
  match Buffer.ReadUint8 resp with
  | Some (status, _) => status =? StatusCode.OK
  | None => false
  end.

(** What the calling side makes of the answer to INTERNAL_GET: [None]
    when a read throws, otherwise the value if the status is OK. *)
Definition decode_read (resp : Buffer.ByteBuffer)
  : option (option VersionedValue) :=
  match Buffer.ReadUint8 resp with
  | None => None
  | Some (status, r1) =>
    if status =? StatusCode.OK then
      match Buffer.ReadString r1 with
      | None => None
      | Some (v, r2) =>
        match Buffer.ReadUint64 r2 with
        | None => None
        | Some (ts, r3) =>
          match Buffer.ReadString r3 with
          | None => None
          | Some (origin, _) => Some (Some (mkVV v ts origin))
          end
        end
      end
    else Some None
  end.


End Replication.

(** A stored value whose fields fit the wire format. *)
Definition value_fits (vv : VersionedValue) : Prop :=
  Z.of_nat (String.length (value vv)) < 2 ^ 32 ∧
  0 <= timestamp vv < 2 ^ 64 ∧
  Z.of_nat (String.length (origin_node vv)) < 2 ^ 32.

(** ** Requests of the client ([kv_client.cpp]) *)

Module Client.
Import Buffer.

Definition Put_request (key value : string) : ByteBuffer :=
  WriteString value (WriteString key (WriteUint8 OpType.PUT empty)).

Definition Get_request (key : string) : ByteBuffer :=
  WriteString key (WriteUint8 OpType.GET empty).

Definition Delete_request (key : string) : ByteBuffer :=
  WriteString key (WriteUint8 OpType.DELETE_OP empty).

Definition InternalPut_request (key value : string) (ts : Timestamp)
           (origin : string) : ByteBuffer :=
  WriteString origin
    (WriteUint64 ts
       (WriteString value
          (WriteString key (WriteUint8 OpType.INTERNAL_PUT empty)))).

Definition InternalGet_request (key : string) : ByteBuffer :=
  WriteString key (WriteUint8 OpType.INTERNAL_GET empty).

Definition InternalDelete_request (key : string) (ts : Timestamp)
  : ByteBuffer :=
  WriteUint64 ts (WriteString key (WriteUint8 OpType.INTERNAL_DELETE empty)).

Definition GetClusterInfo_request : ByteBuffer :=
  WriteUint8 OpType.CLUSTER_INFO empty.

(** What [RecvMessage] hands to the other side: the bytes that were
    sent, to be read from the start. *)
Definition received (sent : ByteBuffer) : ByteBuffer :=
  mkBuf (data_ sent) 0.

End Client.

(** ** Coordinator ([coordinator.cpp]) *)

Module Coordinator.
Import Buffer.

(** [HandlePut]: the reply, and the local engine afterwards; [None] is
    an exception handed to the [catch] of [HandleRequest]. *)
Definition HandlePut
           (remote_put :
              NodeInfo -> string -> string -> Timestamp -> string -> bool)
           (rm : Replication.ReplicationManager)
           (ring : Ring.ConsistentHashRing)
           (membership : Membership.MembershipManager)
           (now : Timestamp) (payload : ByteBuffer)
           (storage : Storage.StorageEngine)
  : option (ByteBuffer * Storage.StorageEngine) :=
  match ReadString payload with
  | None => None
  | Some (key, p1) =>
    match ReadString p1 with
    | None => None
    | Some (value, _) =>
      match Replication.ReplicatedPut remote_put rm ring membership now
                                      key value storage with
      | None => None
      | Some (result, storage') =>
        if Replication.success result then Some (MakeOkResponse, storage')
        else Some (MakeErrorResponse (Replication.error result), storage')
      end
    end
  end.

(** [HandleInternalPut]: the peer side of a replicated write. *)
Definition HandleInternalPut (payload : ByteBuffer)
           (storage : Storage.StorageEngine)
  : option (ByteBuffer * Storage.StorageEngine) :=
  match ReadString payload with
  | None => None
  | Some (key, p1) =>
    match ReadString p1 with
    | None => None
    | Some (value, p2) =>
      match ReadUint64 p2 with
      | None => None
      | Some (ts, p3) =>
        match ReadString p3 with
        | None => None
        | Some (origin, _) =>
          let vv := mkVV value ts origin in
          Some (MakeOkResponse, snd (Storage.ConditionalPut key vv storage))
        end
      end
    end
  end.

Definition HandleInternalGet (payload : ByteBuffer)
           (storage : Storage.StorageEngine) : option ByteBuffer :=
  match ReadString payload with
  | None => None
  | Some (key, _) =>
    match Storage.Get key storage with
    | None => Some MakeNotFoundResponse
    | Some val => Some (MakeValueResponse val)
    end
  end.

Definition HandleInternalDelete (payload : ByteBuffer)
           (storage : Storage.StorageEngine)
  : option (ByteBuffer * Storage.StorageEngine) :=
  match ReadString payload with
  | None => None
  | Some (key, p1) =>
    match ReadUint64 p1 with
    | None => None
    | Some (ts, _) =>
      Some (MakeOkResponse, snd (Storage.Delete key ts storage))
    end
  end.

(** [HandleGet]: the reply, the local engine after read repair, and the
    repairs sent to peers. *)
Definition HandleGet
           (remote_get : NodeInfo -> string -> option (option VersionedValue))
           (rm : Replication.ReplicationManager)
           (ring : Ring.ConsistentHashRing)
           (membership : Membership.MembershipManager)
           (payload : ByteBuffer) (storage : Storage.StorageEngine)
  : option (ByteBuffer * Storage.StorageEngine
            * list (NodeInfo * VersionedValue)) :=
  match ReadString payload with
  | None => None
  | Some (key, _) =>
    match Replication.ReplicatedGet remote_get rm ring membership key
                                    storage with
    | None => None
    | Some (result, storage', sent) =>
      if negb (Replication.read_success result)
      then Some (MakeErrorResponse (Replication.read_error result),
                 storage', sent)
      else
        match Replication.read_value result with
        | None => Some (MakeNotFoundResponse, storage', sent)
        | Some v => Some (MakeValueResponse v, storage', sent)
        end
    end
  end.

Definition HandleDelete
           (remote_delete : NodeInfo -> string -> Timestamp -> bool)
           (rm : Replication.ReplicationManager)
           (ring : Ring.ConsistentHashRing)
           (membership : Membership.MembershipManager)
           (now : Timestamp) (payload : ByteBuffer)
           (storage : Storage.StorageEngine)
  : option (ByteBuffer * Storage.StorageEngine) :=
  match ReadString payload with
  | None => None
  | Some (key, _) =>
    match Replication.ReplicatedDelete remote_delete rm ring membership now
                                       key storage with
    | None => None
    | Some (result, storage') =>
      if Replication.success result then Some (MakeOkResponse, storage')
      else Some (MakeErrorResponse (Replication.error result), storage')
    end
  end.

(** The four writes of one member in [HandleClusterInfo]. *)
Definition write_member (buf : ByteBuffer) (m : NodeInfo) : ByteBuffer :=
  WriteBool (is_alive m)
    (WriteUint16 (port m) (WriteString (host m) (WriteString (node_id m) buf))).

Definition HandleClusterInfo (membership : Membership.MembershipManager)
           (storage : Storage.StorageEngine) : ByteBuffer :=
  let members := Membership.GetAllMembers membership in
  WriteUint64 (Z.of_nat (Storage.Size storage) mod 2 ^ 64)
    (fold_left write_member members
       (WriteUint32 (Z.of_nat (length members) mod 2 ^ 32)
          (WriteUint8 StatusCode.OK empty))).

(** [HandleGossip]: [None] when the merge throws; the membership view
    keeps what was merged before. *)
Definition HandleGossip (payload : ByteBuffer)
           (membership : Membership.MembershipManager)
  : option ByteBuffer * Membership.MembershipManager * list NodeInfo :=
  let '(membership', joined, completed) :=
    Membership.HandleGossipMessage payload membership in
  (if completed then Some (Membership.CreateGossipMessage membership')
   else None,
   membership', joined).

(** The [what()] of the two exceptions a handler can meet. *)
Definition underflow_what : string := "ByteBuffer: underflow".
Definition empty_ring_what : string :=
  "HashRing: empty ring — no nodes available".

(** The reply built by the [catch] of [HandleRequest]. *)
Definition internal_error (what : string) : ByteBuffer :=
  MakeErrorResponse ("Internal error: " +:+ what).

(** What the network does for this node's outgoing calls, and the
    clock. *)
Record Environment := mkEnvironment {
  remote_put : NodeInfo -> string -> string -> Timestamp -> string -> bool;
  remote_get : NodeInfo -> string -> option (option VersionedValue);
  remote_delete : NodeInfo -> string -> Timestamp -> bool;
  now : Timestamp
}.

(** The outcome of one request: the reply, the engine and membership
    view afterwards, the nodes handed to [on_join_] and the read
    repairs sent. *)
Record Served := mkServed {
  reply : ByteBuffer;
  storage_after : Storage.StorageEngine;
  membership_after : Membership.MembershipManager;
  joined : list NodeInfo;
  repairs : list (NodeInfo * VersionedValue)
}.

(** The exception of a quorum handler whose result is [None]: a read of
    the key (and, for PUT, of the value) that underflows, or else the
    empty ring met by [GetNodes]. *)
Definition quorum_what (strings : nat) (payload : ByteBuffer) : string :=
  match ReadString payload with
  | None => underflow_what
  | Some (_, p1) =>
    match strings with
    | S (S _) =>
      match ReadString p1 with
      | None => underflow_what
      | Some _ => empty_ring_what
      end
    | _ => empty_ring_what
    end
  end.

Definition HandleRequest (env : Environment)
           (rm : Replication.ReplicationManager)
           (ring : Ring.ConsistentHashRing)
           (membership : Membership.MembershipManager)
           (storage : Storage.StorageEngine) (request : ByteBuffer)
  : Served :=
  match ReadUint8 request with
  | None => mkServed (internal_error underflow_what) storage membership [] []
  | Some (op, payload) =>
    if op =? OpType.PUT then
      match HandlePut (remote_put env) rm ring membership (now env) payload
                      storage with
      | Some (r, storage') => mkServed r storage' membership [] []
      | None =>
        mkServed (internal_error (quorum_what 2 payload)) storage membership
                 [] []
      end
    else if op =? OpType.GET then
      match HandleGet (remote_get env) rm ring membership payload storage with
      | Some (r, storage', sent) => mkServed r storage' membership [] sent
      | None =>
        mkServed (internal_error (quorum_what 1 payload)) storage membership
                 [] []
      end
    else if op =? OpType.DELETE_OP then
      match HandleDelete (remote_delete env) rm ring membership (now env)
                         payload storage with
      | Some (r, storage') => mkServed r storage' membership [] []
      | None =>
        mkServed (internal_error (quorum_what 1 payload)) storage membership
                 [] []
      end
    else if op =? OpType.INTERNAL_PUT then
      match HandleInternalPut payload storage with
      | Some (r, storage') => mkServed r storage' membership [] []
      | None => mkServed (internal_error underflow_what) storage membership
                         [] []
      end
    else if op =? OpType.INTERNAL_GET then
      match HandleInternalGet payload storage with
      | Some r => mkServed r storage membership [] []
      | None => mkServed (internal_error underflow_what) storage membership
                         [] []
      end
    else if op =? OpType.INTERNAL_DELETE then
      match HandleInternalDelete payload storage with
      | Some (r, storage') => mkServed r storage' membership [] []
      | None => mkServed (internal_error underflow_what) storage membership
                         [] []
      end
    else if op =? OpType.CLUSTER_INFO then
      mkServed (HandleClusterInfo membership storage) storage membership [] []
    else if op =? OpType.GOSSIP then
      match HandleGossip payload membership with
      | (Some r, membership', joined) =>
        mkServed r storage membership' joined []
      | (None, membership', joined) =>
        mkServed (internal_error underflow_what) storage membership' joined []
      end
    else mkServed (MakeErrorResponse "Unknown operation") storage membership
                  [] []
  end.

End Coordinator.

(** ** Clusters and payloads used in the examples *)

Module Scenario.
Import Buffer.

Definition ring_A : Ring.ConsistentHashRing :=
  Ring.AddNode "A" (Ring.create 150).

Definition ring_ABC : Ring.ConsistentHashRing :=
  Ring.AddNode "C" (Ring.AddNode "B" ring_A).

(** Two node ids whose only virtual node falls on the same position. *)
Definition ring_collision : Ring.ConsistentHashRing :=
  Ring.AddNode "node104039" (Ring.AddNode "node63015" (Ring.create 1)).

Definition view_A : Membership.MembershipManager :=
  Membership.create (mkNodeInfo "A" "0.0.0.0" 7000 true 0) 1000.

Definition view_AB : Membership.MembershipManager :=
  (Membership.AddMember (mkNodeInfo "B" "10.0.0.2" 7001 true 5000) view_A).1.

Definition view_ABC : Membership.MembershipManager :=
  (Membership.AddMember (mkNodeInfo "C" "10.0.0.3" 7002 true 5000) view_AB).1.

(** A gossip payload with one entry: node "B" at another address, with
    a newer heartbeat. *)
Definition moved_B : ByteBuffer :=
  WriteBool true
    (WriteUint64 9000
       (WriteUint16 9999
          (WriteString "10.9.9.9"
             (WriteString "B" (WriteUint32 1 empty))))).

(** No peer can be reached. *)
Definition peers_down_put
  : NodeInfo -> string -> string -> Timestamp -> string -> bool :=
  fun _ _ _ _ _ => false.

Definition peers_down_get
  : NodeInfo -> string -> option (option VersionedValue) :=
  fun _ _ => None.

(** The payload of a client PUT after its opcode: key, then value. *)
Definition put_payload (key value : string) : ByteBuffer :=
  WriteString value (WriteString key empty).

(** The payload of an INTERNAL_PUT after its opcode. *)
Definition internal_put_payload (key value : string) (ts : Timestamp)
           (origin : string) : ByteBuffer :=
  WriteString origin (WriteUint64 ts (put_payload key value)).

End Scenario.


(** * Properties *)

(** ** Bytes and big-endian integers *)

Section BytesFacts.
Import Bytes.

Lemma ascii_of_byte_of_ascii a : ascii_of_byte (byte_of_ascii a) = a.
Proof.
  unfold ascii_of_byte, byte_of_ascii.
  by rewrite N2Z.id, ascii_N_embedding.
Qed.

Lemma string_of_bytes_of_string s : string_of_bytes (bytes_of_string s) = s.
Proof.
  induction s as [|a s IH]; simpl; [done|].
  by rewrite ascii_of_byte_of_ascii, IH.
Qed.

Lemma length_bytes_of_string s :
  length (bytes_of_string s) = String.length s.
Proof. induction s as [|a s IH]; simpl; [done|]. by rewrite IH. Qed.

Lemma land_255 x : Z.land x 255 = x mod 256.
Proof. change 255 with (Z.ones 8). by rewrite Z.land_ones. Qed.

(** An [or] onto zeroed low bits is an addition. *)
Lemma lor_low_bits x b k :
  0 <= k → x mod 2 ^ k = 0 → 0 <= b < 2 ^ k → Z.lor x b = x + b.
Proof.
  intros Hk Hx Hb.
  assert (Hland : Z.land x b = 0).
  { apply Z.bits_inj'. intros n Hn. rewrite Z.land_spec, Z.bits_0.
    destruct (Z.lt_ge_cases n k) as [Hlt|Hge].
    - assert (Z.testbit x n = false) as ->; [|done].
      rewrite <- (Z.mod_pow2_bits_low x k n) by lia.
      rewrite Hx. apply Z.bits_0.
    - assert (Z.testbit b n = false) as ->; [|by rewrite andb_false_r].
      rewrite <- (Z.mod_small b (2 ^ k)) by lia.
      apply Z.mod_pow2_bits_high. lia. }
  rewrite <- Z.lxor_lor by done. symmetry. by apply Z.add_nocarry_lxor.
Qed.

Lemma dec32_sum b0 b1 b2 b3 :
  0 <= b0 < 256 → 0 <= b1 < 256 → 0 <= b2 < 256 → 0 <= b3 < 256 →
  dec32 b0 b1 b2 b3 = b0 * 16777216 + b1 * 65536 + b2 * 256 + b3.
Proof.
  intros H0 H1 H2 H3. unfold dec32.
  rewrite !Z.shiftl_mul_pow2 by lia.
  change (2 ^ 24) with 16777216. change (2 ^ 16) with 65536.
  change (2 ^ 8) with 256.
  rewrite (lor_low_bits (b0 * 16777216) (b1 * 65536) 24);
    [|lia|change (2 ^ 24) with (256 * 65536 * 1); apply Z.mod_divide; [lia|];
      exists (b0 * 1); lia|change (2 ^ 24) with 16777216; lia].
  rewrite (lor_low_bits _ (b2 * 256) 16);
    [|lia|apply Z.mod_divide; [lia|]; exists (b0 * 256 + b1);
      change (2 ^ 16) with 65536; lia|change (2 ^ 16) with 65536; lia].
  rewrite (lor_low_bits _ b3 8);
    [|lia|apply Z.mod_divide; [lia|]; exists (b0 * 65536 + b1 * 256 + b2);
      change (2 ^ 8) with 256; lia|change (2 ^ 8) with 256; lia].
  lia.
Qed.

Lemma be32_bytes v :
  be32 v = [ (v / 16777216) mod 256; (v / 65536) mod 256;
             (v / 256) mod 256; v mod 256 ].
Proof.
  unfold be32. rewrite !land_255, !Z.shiftr_div_pow2 by lia. done.
Qed.

Lemma Forall_be32 v : Forall is_byte (be32 v).
Proof.
  rewrite be32_bytes. unfold is_byte.
  repeat constructor; apply Z.mod_pos_bound; lia.
Qed.

(** Reading back the four bytes written for a 32-bit value. *)
Lemma dec32_be32 v b0 b1 b2 b3 :
  0 <= v < 2 ^ 32 → be32 v = [b0; b1; b2; b3] → dec32 b0 b1 b2 b3 = v.
Proof.
  intros Hv. rewrite be32_bytes. intros [= <- <- <- <-].
  rewrite dec32_sum by (apply Z.mod_pos_bound; lia).
  change (2 ^ 32) with 4294967296 in Hv.
  Z.div_mod_to_equations. lia.
Qed.

Lemma dec64_step acc b :
  0 <= acc < 2 ^ 56 → 0 <= b < 256 →
  Z.lor (Z.shiftl acc 8 mod 2 ^ 64) b = acc * 256 + b.
Proof.
  intros Hacc Hb. rewrite Z.shiftl_mul_pow2 by lia.
  change (2 ^ 8) with 256. change (2 ^ 56) with 72057594037927936 in Hacc.
  rewrite Z.mod_small by (change (2 ^ 64) with 18446744073709551616; lia).
  apply (lor_low_bits _ _ 8); [lia| |change (2 ^ 8) with 256; lia].
  apply Z.mod_divide; [lia|]. exists acc. change (2 ^ 8) with 256. lia.
Qed.

(** Reading back the eight bytes written for a 64-bit value. *)
Lemma dec64_be64 v : 0 <= v < 2 ^ 64 → dec64 (be64 v) = v.
Proof.
  intros Hv. change (2 ^ 64) with 18446744073709551616 in Hv.
  unfold dec64, be64. cbn [map fold_left].
  rewrite !land_255, !Z.shiftr_div_pow2 by lia.
  change (2 ^ (7 * 8)) with 72057594037927936.
  change (2 ^ (6 * 8)) with 281474976710656.
  change (2 ^ (5 * 8)) with 1099511627776.
  change (2 ^ (4 * 8)) with 4294967296.
  change (2 ^ (3 * 8)) with 16777216.
  change (2 ^ (2 * 8)) with 65536.
  change (2 ^ (1 * 8)) with 256.
  change (2 ^ (0 * 8)) with 1.
  assert (H7 : (v / 72057594037927936) mod 256 = v / 72057594037927936)
    by (Z.div_mod_to_equations; lia).
  assert (Hs : ∀ hi lo, 0 < lo → hi = lo * 256 →
                (v / hi) * 256 + (v / lo) mod 256 = v / lo).
  { intros hi lo Hlo ->. rewrite <- Z.div_div by lia.
    pose proof (Z.div_mod (v / lo) 256). lia. }
  rewrite (dec64_step 0) by (Z.div_mod_to_equations; lia).
  rewrite Z.mul_0_l, Z.add_0_l, H7.
  rewrite (dec64_step (v / 72057594037927936))
    by (change (2 ^ 56) with 72057594037927936; Z.div_mod_to_equations; lia).
  rewrite (Hs _ 281474976710656) by lia.
  rewrite (dec64_step (v / 281474976710656))
    by (change (2 ^ 56) with 72057594037927936; Z.div_mod_to_equations; lia).
  rewrite (Hs _ 1099511627776) by lia.
  rewrite (dec64_step (v / 1099511627776))
    by (change (2 ^ 56) with 72057594037927936; Z.div_mod_to_equations; lia).
  rewrite (Hs _ 4294967296) by lia.
  rewrite (dec64_step (v / 4294967296))
    by (change (2 ^ 56) with 72057594037927936; Z.div_mod_to_equations; lia).
  rewrite (Hs _ 16777216) by lia.
  rewrite (dec64_step (v / 16777216))
    by (change (2 ^ 56) with 72057594037927936; Z.div_mod_to_equations; lia).
  rewrite (Hs _ 65536) by lia.
  rewrite (dec64_step (v / 65536))
    by (change (2 ^ 56) with 72057594037927936; Z.div_mod_to_equations; lia).
  rewrite (Hs _ 256) by lia.
  rewrite (dec64_step (v / 256))
    by (change (2 ^ 56) with 72057594037927936; Z.div_mod_to_equations; lia).
  rewrite (Hs _ 1) by lia.
  apply Z.div_1_r.
Qed.

End BytesFacts.


(** ** Write-ahead log *)

Section WalFacts.
Import Bytes Wal.

Lemma log2_u32 a : u32_range a → Z.log2 a < 32.
Proof.
  intros [H0 H1]. destruct (Z.eq_dec a 0) as [->|Hne]; [done|].
  apply Z.log2_lt_pow2; lia.
Qed.

Lemma lxor_u32 a b : u32_range a → u32_range b → u32_range (Z.lxor a b).
Proof.
  intros Ha Hb.
  pose proof (log2_u32 a Ha) as Hla. pose proof (log2_u32 b Hb) as Hlb.
  destruct Ha as [Ha0 Ha1], Hb as [Hb0 Hb1].
  assert (Hx0 : 0 <= Z.lxor a b) by (apply Z.lxor_nonneg; lia).
  split; [done|].
  destruct (Z.eq_dec (Z.lxor a b) 0) as [->|Hne]; [done|].
  apply Z.log2_lt_pow2; [lia|].
  pose proof (Z.log2_lxor a b Ha0 Hb0). lia.
Qed.

Lemma shiftr_u32 a n : 0 <= n → u32_range a → u32_range (Z.shiftr a n).
Proof.
  intros Hn [H0 H1]. rewrite Z.shiftr_div_pow2 by done.
  assert (0 < 2 ^ n) by (apply Z.pow_pos_nonneg; lia).
  split; [apply Z.div_pos; lia|].
  apply Z.le_lt_trans with a; [|done].
  apply Z.div_le_upper_bound; [lia|]. nia.
Qed.

Lemma crc32_table_u32 i : u32_range (nth i crc32_table 0).
Proof.
  assert (Hall : forallb (fun x => (0 <=? x) && (x <? 2 ^ 32)) crc32_table
                 = true) by (vm_compute; reflexivity).
  destruct (nth_in_or_default i crc32_table 0) as [Hin| ->].
  - rewrite forallb_forall in Hall. specialize (Hall _ Hin).
    apply andb_true_iff in Hall as [H0 H1]. unfold u32_range. lia.
  - unfold u32_range. lia.
Qed.

(** The checksum fits the four bytes written for it. *)
Lemma ComputeCRC_u32 data : u32_range (ComputeCRC data).
Proof.
  unfold ComputeCRC. apply lxor_u32; [|unfold u32_range; lia].
  assert (Hinit : u32_range 4294967295) by (unfold u32_range; lia).
  revert Hinit. generalize 4294967295.
  induction data as [|b data IH]; intros crc Hcrc; simpl; [done|].
  apply IH. apply lxor_u32; [apply crc32_table_u32|].
  apply shiftr_u32; [lia|done].
Qed.

Lemma length_be32 v : length (be32 v) = 4%nat.
Proof. done. Qed.

Lemma length_be64 v : length (be64 v) = 8%nat.
Proof. done. Qed.

Lemma ReadBytes_app (l1 l2 : list Z) n :
  n = length l1 → ReadBytes n (l1 ++ l2) = Some (l1, l2).
Proof.
  intros ->. unfold ReadBytes.
  rewrite length_app, (leb_correct (length l1)) by lia.
  by rewrite take_app_length, drop_app_length.
Qed.

Lemma ReadU32_be32 v rest :
  0 <= v < 2 ^ 32 → ReadU32 (be32 v ++ rest) = Some (v, rest).
Proof.
  intros Hv. unfold ReadU32. rewrite (ReadBytes_app (be32 v)) by done.
  destruct (be32 v) as [|b0 [|b1 [|b2 [|b3 [|? ?]]]]] eqn:Hb; try done.
  by rewrite (dec32_be32 v b0 b1 b2 b3).
Qed.

Lemma length_record_bytes o k v ts :
  Z.of_nat (length (record_bytes o k v ts))
  = 17 + Z.of_nat (String.length k) + Z.of_nat (String.length v).
Proof.
  unfold record_bytes. rewrite !length_app, !length_be32, length_be64.
  rewrite !length_bytes_of_string. simpl. lia.
Qed.

(** Parsing the record that [Append] builds gives its arguments back. *)
Lemma parse_record_bytes e :
  fits e →
  parse_record (record_bytes (op e) (key e) (entry_value e)
                             (entry_timestamp e)) = Some e.
Proof.
  intros (Hop & Hts & Hlen). destruct e as [o ts k v].
  cbn [op key entry_value entry_timestamp] in *.
  assert (Hk : Z.of_nat (String.length k) mod 2 ^ 32
               = Z.of_nat (String.length k)) by (apply Z.mod_small; lia).
  assert (Hv : Z.of_nat (String.length v) mod 2 ^ 32
               = Z.of_nat (String.length v)) by (apply Z.mod_small; lia).
  unfold record_bytes, parse_record. rewrite Hk, Hv. cbn [app].
  rewrite (ReadBytes_app (be64 ts)) by done.
  rewrite ReadU32_be32 by lia.
  rewrite (ReadBytes_app (bytes_of_string k))
    by (rewrite length_bytes_of_string; lia).
  rewrite ReadU32_be32 by lia.
  rewrite <- (app_nil_r (bytes_of_string v)).
  rewrite (ReadBytes_app (bytes_of_string v))
    by (rewrite length_bytes_of_string; lia).
  by rewrite dec64_be64, !string_of_bytes_of_string.
Qed.

(** One turn of the replay loop over one blob written by [Append]. *)
Lemma replay_loop_blob fuel e rest acc :
  fits e →
  replay_loop (S fuel)
    (blob_bytes (op e) (key e) (entry_value e) (entry_timestamp e) ++ rest)
    acc
  = replay_loop fuel rest (acc ++ [e]).
Proof.
  intros He. pose proof He as (Hop & Hts & Hlen).
  pose proof (length_record_bytes (op e) (key e) (entry_value e)
                                  (entry_timestamp e)) as Hrec.
  pose proof (ComputeCRC_u32 (record_bytes (op e) (key e) (entry_value e)
                                           (entry_timestamp e))) as Hcrc.
  unfold blob_bytes. cbn [replay_loop].
  set (record := record_bytes (op e) (key e) (entry_value e)
                              (entry_timestamp e)) in *.
  rewrite Z.mod_small by lia. rewrite <- !app_assoc.
  rewrite ReadU32_be32 by lia.
  rewrite (ReadBytes_app record) by lia.
  rewrite ReadU32_be32 by done.
  rewrite Z.eqb_refl. unfold record. by rewrite parse_record_bytes.
Qed.

Lemma append_all_flat es : ∀ wal,
  append_all es wal
  = wal ++ flat_map (fun e => blob_bytes (op e) (key e) (entry_value e)
                                         (entry_timestamp e)) es.
Proof.
  induction es as [|e es IH]; intros wal; simpl.
  - by rewrite app_nil_r.
  - unfold append_all in IH. rewrite IH. unfold Append.
    by rewrite <- app_assoc.
Qed.

Lemma replay_loop_blobs es : ∀ fuel acc,
  Forall fits es → (length es ≤ fuel)%nat →
  replay_loop fuel
    (flat_map (fun e => blob_bytes (op e) (key e) (entry_value e)
                                   (entry_timestamp e)) es) acc
  = acc ++ es.
Proof.
  induction es as [|e es IH]; intros fuel acc Hfits Hfuel.
  - rewrite app_nil_r. by destruct fuel.
  - inversion Hfits as [|? ? He Hes]; subst.
    destruct fuel as [|fuel]; [simpl in Hfuel; lia|].
    cbn [flat_map]. rewrite replay_loop_blob by done.
    rewrite IH by (done || simpl in Hfuel; lia).
    by rewrite <- app_assoc.
Qed.

Lemma length_flat_blobs es :
  (length es
   ≤ length (flat_map (fun e => blob_bytes (op e) (key e) (entry_value e)
                                           (entry_timestamp e)) es))%nat.
Proof.
  induction es as [|e es IH]; cbn [flat_map length]; [lia|].
  rewrite length_app.
  assert (1 ≤ length (blob_bytes (op e) (key e) (entry_value e)
                                 (entry_timestamp e)))%nat
    by (unfold blob_bytes; rewrite length_app, length_be32; lia).
  lia.
Qed.

Lemma ReadBytes_length n f bs rest :
  ReadBytes n f = Some (bs, rest) → (length rest + n = length f)%nat.
Proof.
  unfold ReadBytes. destruct (Nat.leb_spec n (length f)); [|done].
  intros [= <- <-]. rewrite length_drop. lia.
Qed.

Lemma ReadU32_length f v rest :
  ReadU32 f = Some (v, rest) → (length rest + 4 = length f)%nat.
Proof.
  unfold ReadU32. destruct (ReadBytes 4 f) as [[bs rest']|] eqn:Hr; [|done].
  apply ReadBytes_length in Hr.
  destruct bs as [|b0 [|b1 [|b2 [|b3 [|? ?]]]]]; try done.
  by intros [= <- <-].
Qed.

(** The loop stops by itself: once the fuel exceeds the file length,
    more fuel changes nothing, so [Replay] runs the loop to its end. *)
Lemma replay_loop_fuel fuel1 : ∀ fuel2 f acc,
  (length f < fuel1)%nat → (length f < fuel2)%nat →
  replay_loop fuel1 f acc = replay_loop fuel2 f acc.
Proof.
  induction fuel1 as [|fuel1 IH]; intros fuel2 f acc H1 H2; [lia|].
  destruct fuel2 as [|fuel2]; [lia|]. cbn [replay_loop].
  destruct (ReadU32 f) as [[size f1]|] eqn:E1; [|done].
  destruct (ReadBytes (Z.to_nat size) f1) as [[record f2]|] eqn:E2; [|done].
  destruct (ReadU32 f2) as [[crc f3]|] eqn:E3; [|done].
  destruct (ComputeCRC record =? crc); [|done].
  destruct (parse_record record) as [e|]; [|done].
  apply ReadU32_length in E1, E3. apply ReadBytes_length in E2.
  apply IH; lia.
Qed.

(** C2: whatever entries are appended to a new log, [Replay] returns
    them, each with its op, timestamp, key and value, in append order.
    The entries are those [Append] can take: op a [uint8_t], timestamp a
    [uint64_t], and a record that fits its 32-bit length fields. *)
Theorem Replay_append_all es :
  Forall fits es → Replay (append_all es []) = es.
Proof.
  intros Hfits. unfold Replay. rewrite append_all_flat. cbn [app].
  rewrite replay_loop_blobs; [done|done|].
  pose proof (length_flat_blobs es). lia.
Qed.

Lemma Replay_append_all_witness :
  Replay (append_all [mkEntry OpType.PUT 1000 "key1" "value1";
                      mkEntry OpType.PUT 2000 "key2" "value2";
                      mkEntry OpType.DELETE_OP 3000 "key1" ""] [])
  = [mkEntry OpType.PUT 1000 "key1" "value1";
     mkEntry OpType.PUT 2000 "key2" "value2";
     mkEntry OpType.DELETE_OP 3000 "key1" ""].
Proof.
  apply Replay_append_all.
  repeat constructor; vm_compute; intuition discriminate.
Defined.

End WalFacts.


(** ** Write-ahead log: torn and truncated files *)

Section WalTailFacts.
Import Bytes Wal.

Lemma replay_loop_acc fuel : ∀ f acc,
  replay_loop fuel f acc = acc ++ replay_loop fuel f [].
Proof.
  induction fuel as [|fuel IH]; intros f acc; cbn [replay_loop].
  { by rewrite app_nil_r. }
  destruct (ReadU32 f) as [[size f1]|]; [|by rewrite app_nil_r].
  destruct (ReadBytes (Z.to_nat size) f1) as [[record f2]|];
    [|by rewrite app_nil_r].
  destruct (ReadU32 f2) as [[crc f3]|]; [|by rewrite app_nil_r].
  destruct (ComputeCRC record =? crc); [|by rewrite app_nil_r].
  destruct (parse_record record) as [e|]; [|by rewrite app_nil_r].
  rewrite IH, (IH f3 ([] ++ [e])). by rewrite <- app_assoc.
Qed.

Lemma replay_loop_blobs_tail es : ∀ fuel acc tail,
  Forall fits es →
  replay_loop (length es + fuel)
    (flat_map (fun e => blob_bytes (op e) (key e) (entry_value e)
                                   (entry_timestamp e)) es ++ tail) acc
  = replay_loop fuel tail (acc ++ es).
Proof.
  induction es as [|e es IH]; intros fuel acc tail Hfits.
  - by rewrite app_nil_r.
  - inversion Hfits as [|? ? He Hes]; subst.
    cbn [flat_map length Nat.add]. rewrite <- app_assoc.
    rewrite replay_loop_blob by done. rewrite IH by done.
    by rewrite <- app_assoc.
Qed.

Lemma Replay_blobs_tail es tail :
  Forall fits es →
  Replay (flat_map (fun e => blob_bytes (op e) (key e) (entry_value e)
                                        (entry_timestamp e)) es ++ tail)
  = es ++ Replay tail.
Proof.
  intros Hfits. unfold Replay.
  set (blobs := flat_map _ es).
  pose proof (length_flat_blobs es) as Hlen. fold blobs in Hlen.
  pose proof (length_app blobs tail) as Happ.
  replace (S (length (blobs ++ tail)))
    with (length es + (S (length (blobs ++ tail)) - length es))%nat by lia.
  unfold blobs. rewrite replay_loop_blobs_tail by done. fold blobs.
  rewrite replay_loop_acc. cbn [app]. f_equal.
  apply replay_loop_fuel; lia.
Qed.

Lemma parse_record_length record e :
  parse_record record = Some e → (17 ≤ length record)%nat.
Proof.
  unfold parse_record. destruct record as [|o r1]; [done|].
  destruct (ReadBytes 8 r1) as [[tsb r2]|] eqn:E1; [|done].
  destruct (ReadU32 r2) as [[klen r3]|] eqn:E2; [|done].
  destruct (ReadBytes (Z.to_nat klen) r3) as [[kb r4]|] eqn:E3; [|done].
  destruct (ReadU32 r4) as [[vlen r5]|] eqn:E4; [|done].
  intros _. apply ReadBytes_length in E1, E3.
  apply ReadU32_length in E2, E4. cbn [length]. lia.
Qed.

Lemma replay_loop_short fuel f acc :
  (length f < 25)%nat → replay_loop fuel f acc = acc.
Proof.
  intros Hlen. destruct fuel as [|fuel]; [done|]. cbn [replay_loop].
  destruct (ReadU32 f) as [[size f1]|] eqn:E1; [|done].
  destruct (ReadBytes (Z.to_nat size) f1) as [[record f2]|] eqn:E2; [|done].
  destruct (ReadU32 f2) as [[crc f3]|] eqn:E3; [|done].
  destruct (ComputeCRC record =? crc); [|done].
  destruct (parse_record record) as [e|] eqn:E4; [|done].
  apply parse_record_length in E4.
  apply ReadU32_length in E1, E3.
  unfold ReadBytes in E2.
  destruct (Nat.leb_spec (Z.to_nat size) (length f1)); [|done].
  injection E2 as <- <-. rewrite length_take in E4. rewrite length_drop in E3.
  lia.
Qed.

(** A strict prefix of one blob never yields an entry. *)
Lemma replay_loop_torn_blob fuel e n acc :
  fits e →
  (n < length (blob_bytes (op e) (key e) (entry_value e)
                          (entry_timestamp e)))%nat →
  replay_loop fuel
    (take n (blob_bytes (op e) (key e) (entry_value e) (entry_timestamp e)))
    acc = acc.
Proof.
  intros He Hn. pose proof He as (Hop & Hts & Hlen).
  pose proof (length_record_bytes (op e) (key e) (entry_value e)
                                  (entry_timestamp e)) as Hrec.
  destruct fuel as [|fuel]; [done|]. cbn [replay_loop].
  unfold blob_bytes in *.
  set (record := record_bytes (op e) (key e) (entry_value e)
                              (entry_timestamp e)) in *.
  set (crc := ComputeCRC record) in *.
  rewrite Z.mod_small in * by lia.
  rewrite !length_app, !length_be32 in Hn.
  destruct (Nat.lt_ge_cases n 4) as [Hlt|Hge].
  { assert (Hnone : ReadU32 (take n (be32 (Z.of_nat (length record))
                                     ++ record ++ be32 crc)) = None).
    { unfold ReadU32, ReadBytes. rewrite length_take.
      rewrite (leb_correct_conv _ 4); [done|lia]. }
    by rewrite Hnone. }
  rewrite take_app_ge by (rewrite length_be32; lia). rewrite length_be32.
  rewrite ReadU32_be32 by lia. rewrite Nat2Z.id.
  destruct (Nat.lt_ge_cases (n - 4) (length record)) as [Hlt|Hge'].
  { unfold ReadBytes. rewrite length_take, length_app.
    rewrite (leb_correct_conv _ (length record)); [done|lia]. }
  rewrite take_app_ge by lia.
  rewrite (ReadBytes_app record) by done.
  assert (Hnone : ReadU32 (take (n - 4 - length record) (be32 crc)) = None).
  { unfold ReadU32, ReadBytes. rewrite length_take, length_be32.
    rewrite (leb_correct_conv _ 4); [done|lia]. }
  by rewrite Hnone.
Qed.

Lemma replay_loop_truncated es : ∀ n fuel acc,
  Forall fits es →
  (length (take n (flat_map (fun e => blob_bytes (op e) (key e)
                                        (entry_value e) (entry_timestamp e))
                            es)) < fuel)%nat →
  ∃ m,
    replay_loop fuel
      (take n (flat_map (fun e => blob_bytes (op e) (key e) (entry_value e)
                                             (entry_timestamp e)) es)) acc
    = acc ++ take m es.
Proof.
  induction es as [|e es IH]; intros n fuel acc Hfits Hfuel.
  - exists O. cbn [flat_map]. rewrite take_nil, take_0, app_nil_r.
    by destruct fuel.
  - inversion Hfits as [|? ? He Hes]; subst. cbn [flat_map] in *.
    set (blob := blob_bytes (op e) (key e) (entry_value e)
                            (entry_timestamp e)) in *.
    destruct (Nat.lt_ge_cases n (length blob)) as [Hlt|Hge].
    + exists O. rewrite take_app_le by lia. rewrite take_0, app_nil_r.
      by apply replay_loop_torn_blob.
    + assert (1 ≤ length blob)%nat
        by (unfold blob, blob_bytes; rewrite length_app, length_be32; lia).
      rewrite take_app_ge in Hfuel |- * by done.
      rewrite length_app in Hfuel.
      destruct fuel as [|fuel]; [lia|]. unfold blob.
      rewrite replay_loop_blob by done.
      destruct (IH (n - length blob)%nat fuel (acc ++ [e]) Hes) as [m Hm].
      { fold blob. lia. }
      exists (S m). fold blob. rewrite Hm. by rewrite <- app_assoc.
Qed.

(** X1: whatever follows a well-formed log in the file, [Replay]
    returns the logged entries first and then goes on with the rest of
    the file as it would from a file of its own. *)
Theorem Replay_valid_log_then_tail es tail :
  Forall fits es → Replay (append_all es [] ++ tail) = es ++ Replay tail.
Proof.
  intros Hfits. rewrite append_all_flat. cbn [app].
  by apply Replay_blobs_tail.
Qed.

Lemma Replay_valid_log_then_tail_witness :
  Replay (append_all [mkEntry OpType.PUT 100 "good_key" "good_value"] []
          ++ [1; 2; 3; 4; 5])
  = [mkEntry OpType.PUT 100 "good_key" "good_value"] ++ Replay [1; 2; 3; 4; 5].
Proof.
  apply Replay_valid_log_then_tail.
  repeat constructor; vm_compute; intuition discriminate.
Defined.

(** X2: a file of fewer than 25 bytes, the size of the smallest blob,
    replays to no entry; in particular a valid log followed by such a
    tail replays to exactly the logged entries. *)
Theorem Replay_ignores_short_tail es tail :
  Forall fits es → (length tail < 25)%nat →
  Replay tail = [] ∧ Replay (append_all es [] ++ tail) = es.
Proof.
  intros Hfits Hlen.
  assert (Ht : Replay tail = []) by (by apply replay_loop_short).
  split; [done|]. rewrite append_all_flat. cbn [app].
  by rewrite Replay_blobs_tail, Ht, app_nil_r.
Qed.

Lemma Replay_ignores_short_tail_witness :
  Replay [1; 2; 3; 4; 5] = [] ∧
  Replay (append_all [mkEntry OpType.PUT 100 "good_key" "good_value"] []
          ++ [1; 2; 3; 4; 5])
  = [mkEntry OpType.PUT 100 "good_key" "good_value"].
Proof.
  apply Replay_ignores_short_tail.
  - repeat constructor; vm_compute; intuition discriminate.
  - vm_compute. lia.
Defined.

(** X3: a log cut at any byte replays to a prefix of the logged
    entries: a torn last record is dropped and nothing else. *)
Theorem Replay_truncated_log_is_prefix es n :
  Forall fits es → ∃ m, Replay (take n (append_all es [])) = take m es.
Proof.
  intros Hfits. rewrite append_all_flat. cbn [app]. unfold Replay.
  destruct (replay_loop_truncated es n
              (S (length (take n (flat_map
                   (fun e => blob_bytes (op e) (key e) (entry_value e)
                                        (entry_timestamp e)) es)))) []
              Hfits) as [m Hm]; [lia|].
  exists m. by rewrite Hm.
Qed.

Lemma Replay_truncated_log_is_prefix_witness :
  ∃ m,
    Replay (take 40 (append_all [mkEntry OpType.PUT 1000 "key1" "value1";
                                 mkEntry OpType.PUT 2000 "key2" "value2"] []))
    = take m [mkEntry OpType.PUT 1000 "key1" "value1";
              mkEntry OpType.PUT 2000 "key2" "value2"].
Proof.
  apply Replay_truncated_log_is_prefix.
  repeat constructor; vm_compute; intuition discriminate.
Defined.

(** X26: a record whose stored checksum differs from the CRC of its
    bytes ends the replay: the entries logged before it are returned,
    the record itself and everything after it in the file are not. *)
Theorem Replay_stops_at_bad_checksum es record crc rest :
  Forall fits es →
  Z.of_nat (length record) < 2 ^ 32 →
  0 <= crc < 2 ^ 32 →
  ComputeCRC record ≠ crc →
  Replay (append_all es []
          ++ be32 (Z.of_nat (length record)) ++ record ++ be32 crc ++ rest)
  = es.
Proof.
  intros Hfits Hlen Hcrc Hbad. rewrite append_all_flat. cbn [app].
  rewrite Replay_blobs_tail by done.
  rewrite <- (app_nil_r es) at 2. f_equal.
  unfold Replay. cbn [replay_loop].
  rewrite ReadU32_be32 by lia. rewrite Nat2Z.id.
  rewrite (ReadBytes_app record) by done.
  rewrite ReadU32_be32 by done.
  by rewrite (proj2 (Z.eqb_neq _ _) Hbad).
Qed.

Lemma Replay_stops_at_bad_checksum_witness :
  Replay (append_all [mkEntry OpType.PUT 100 "good_key" "good_value"] []
          ++ be32 (Z.of_nat (length (record_bytes OpType.PUT "k" "v" 200)))
          ++ record_bytes OpType.PUT "k" "v" 200 ++ be32 0
          ++ blob_bytes OpType.PUT "later" "value" 300)
  = [mkEntry OpType.PUT 100 "good_key" "good_value"].
Proof.
  apply Replay_stops_at_bad_checksum.
  - repeat constructor; vm_compute; intuition discriminate.
  - vm_compute. reflexivity.
  - lia.
  - vm_compute. discriminate.
Defined.

End WalTailFacts.


(** ** Storage engine *)

Section StorageFacts.
Import Storage.

Implicit Types (e : StorageEngine) (key : string) (ts : Timestamp).

Lemma Put_store key v ts origin e :
  store_ (Put key v ts origin e).2 =
  match store_ e !! key with
  | Some existing =>
    if timestamp existing >=? ts then store_ e
    else <[key := mkVV v ts origin]> (store_ e)
  | None => <[key := mkVV v ts origin]> (store_ e)
  end.
Proof.
  unfold Put. destruct (store_ e !! key) as [x|]; [|done].
  by destruct (timestamp x >=? ts).
Qed.

Lemma Delete_store key ts e :
  store_ (Delete key ts e).2 =
  match store_ e !! key with
  | Some existing =>
    if timestamp existing >=? ts then store_ e else delete key (store_ e)
  | None => store_ e
  end.
Proof.
  unfold Delete. destruct (store_ e !! key) as [x|]; [|done].
  by destruct (timestamp x >=? ts).
Qed.

Lemma apply_op_other key o e :
  op_key o ≠ key → Get key (apply_op e o) = Get key e.
Proof.
  intros Hne. unfold Get. destruct o as [k v ts origin|k ts]; simpl in *.
  - rewrite Put_store. destruct (store_ e !! k) as [x|].
    + destruct (timestamp x >=? ts); [done|]. by rewrite lookup_insert_ne.
    + by rewrite lookup_insert_ne.
  - rewrite Delete_store. destruct (store_ e !! k) as [x|]; [|done].
    destruct (timestamp x >=? ts); [done|]. by rewrite lookup_delete_ne.
Qed.

Lemma apply_op_below bound key o e :
  below bound key e →
  (∀ v ts origin, o = OpPut key v ts origin → ts < bound) →
  below bound key (apply_op e o).
Proof.
  intros Hb Hput. destruct (decide (op_key o = key)) as [Heq|Hne].
  2:{ unfold below. by rewrite apply_op_other. }
  unfold below, Get in *. destruct o as [k v ts origin|k ts]; simpl in *; subst k.
  - rewrite Put_store. destruct (store_ e !! key) as [x|] eqn:Hx.
    + destruct (timestamp x >=? ts).
      * by rewrite Hx.
      * rewrite lookup_insert_eq. simpl. eauto.
    + rewrite lookup_insert_eq. simpl. eauto.
  - rewrite Delete_store. destruct (store_ e !! key) as [x|] eqn:Hx.
    + destruct (timestamp x >=? ts).
      * by rewrite Hx.
      * by rewrite lookup_delete_eq.
    + by rewrite Hx.
Qed.

Lemma apply_ops_below bound key ops : ∀ e,
  below bound key e →
  (∀ v ts origin, In (OpPut key v ts origin) ops → ts < bound) →
  below bound key (apply_ops ops e).
Proof.
  induction ops as [|o ops IH]; intros e Hb Hput; [done|].
  simpl. apply IH.
  - apply apply_op_below; [done|]. intros v ts origin ->. eapply Hput. by left.
  - intros v ts origin Hin. eapply Hput. right. exact Hin.
Qed.

(** A stored value survives operations whose timestamps do not exceed it. *)
Lemma apply_ops_keeps key x ops : ∀ e,
  Get key e = Some x →
  (∀ v ts origin, In (OpPut key v ts origin) ops → ts <= timestamp x) →
  (∀ td, In (OpDelete key td) ops → td <= timestamp x) →
  Get key (apply_ops ops e) = Some x.
Proof.
  induction ops as [|o ops IH]; intros e Hx Hput Hdel; [done|].
  simpl. apply IH.
  - destruct (decide (op_key o = key)) as [Heq|Hne].
    2:{ by rewrite apply_op_other. }
    unfold Get in *. destruct o as [k v ts origin|k ts]; simpl in *; subst k.
    + rewrite Put_store, Hx.
      assert (ts <= timestamp x) by (eapply Hput; by left).
      destruct (Z.geb_spec (timestamp x) ts); [done|lia].
    + rewrite Delete_store, Hx.
      assert (ts <= timestamp x) by (eapply Hdel; by left).
      destruct (Z.geb_spec (timestamp x) ts); [done|lia].
  - intros v ts origin Hin. eapply Hput. right. exact Hin.
  - intros td Hin. eapply Hdel. right. exact Hin.
Qed.

(** An absent key stays absent as long as no [Put] addresses it. *)
Lemma apply_ops_absent key ops : ∀ e,
  Get key e = None →
  (∀ v ts origin, ¬ In (OpPut key v ts origin) ops) →
  Get key (apply_ops ops e) = None.
Proof.
  induction ops as [|o ops IH]; intros e Hx Hput; [done|].
  simpl. apply IH.
  - destruct (decide (op_key o = key)) as [Heq|Hne].
    2:{ by rewrite apply_op_other. }
    unfold Get in *. destruct o as [k v ts origin|k ts]; simpl in *; subst k.
    + exfalso. eapply Hput. by left.
    + by rewrite Delete_store, Hx.
  - intros v ts origin Hin. eapply Hput. right. exact Hin.
Qed.

Lemma apply_ops_app ops1 ops2 e :
  apply_ops (ops1 ++ ops2) e = apply_ops ops2 (apply_ops ops1 e).
Proof. unfold apply_ops. by rewrite fold_left_app. Qed.

(** C1: [Put] returns true and installs [(value, ts, origin)] when the
    key is absent or its stored timestamp is strictly below [ts];
    otherwise, ties included, it returns false and leaves the map as it
    was. *)
Theorem Put_monotonic_rule key v ts origin e :
  ((Get key e = None ∨ ∃ old, Get key e = Some old ∧ timestamp old < ts) →
   (Put key v ts origin e).1 = true ∧
   Get key (Put key v ts origin e).2 = Some (mkVV v ts origin)) ∧
  ((∃ old, Get key e = Some old ∧ timestamp old >= ts) →
   (Put key v ts origin e).1 = false ∧
   store_ (Put key v ts origin e).2 = store_ e).
Proof.
  unfold Get, Put. split.
  - intros [Hnone|(old & Hold & Hlt)].
    + rewrite Hnone. simpl. by rewrite lookup_insert_eq.
    + rewrite Hold. destruct (Z.geb_spec (timestamp old) ts); [lia|].
      simpl. by rewrite lookup_insert_eq.
  - intros (old & Hold & Hge). rewrite Hold.
    destruct (Z.geb_spec (timestamp old) ts); [done|lia].
Qed.

Lemma Put_monotonic_rule_witness :
  let e := (Put "k" "new" 200 "n1" (open [])).2 in
  ((Put "k" "new" 200 "n1" (open [])).1 = true ∧
   Get "k" e = Some (mkVV "new" 200 "n1")) ∧
  ((Put "k" "old" 100 "n1" e).1 = false ∧
   store_ (Put "k" "old" 100 "n1" e).2 = store_ e) ∧
  ((Put "k" "tie" 200 "n2" e).1 = false ∧
   store_ (Put "k" "tie" 200 "n2" e).2 = store_ e).
Proof.
  intros e. split; [|split].
  - apply (Put_monotonic_rule "k" "new" 200 "n1" (open [])). by left.
  - apply (Put_monotonic_rule "k" "old" 100 "n1" e).
    exists (mkVV "new" 200 "n1"). split; [reflexivity|simpl; lia].
  - apply (Put_monotonic_rule "k" "tie" 200 "n2" e).
    exists (mkVV "new" 200 "n1"). split; [reflexivity|simpl; lia].
Defined.

(** C3, as stated, fails: a [Delete] applied before a [Put] of the same
    key leaves nothing behind, so a later [Put] with a smaller timestamp
    is accepted although the sequence holds a [Delete] whose timestamp
    exceeds every [Put]. *)
Lemma delete_then_older_put_survives :
  ¬ (∀ (ops : list Op) key td,
       In (OpDelete key td) ops →
       (∀ v ts origin, In (OpPut key v ts origin) ops → ts < td) →
       Get key (apply_ops ops (open [])) = None).
Proof.
  intros H.
  specialize (H [OpDelete "k" 300; OpPut "k" "v" 100 "n1"] "k" 300).
  assert (Hget : Get "k" (apply_ops [OpDelete "k" 300; OpPut "k" "v" 100 "n1"]
                                    (open [])) = Some (mkVV "v" 100 "n1"))
    by reflexivity.
  rewrite H in Hget; [discriminate| by left |].
  intros v ts origin [Hin|[Hin|[]]]; [discriminate|].
  inversion Hin; subst. lia.
Qed.

(** C3, amended: on an engine that does not hold [key], in whatever
    order the operations come, (1) the first-applied [Put] that carries
    the maximum [Put] timestamp is the final value whenever that
    timestamp exceeds every [Delete]'s; (2) the key is absent at the end
    when a [Delete] whose timestamp exceeds every [Put]'s is applied
    after all the [Put]s of the key. *)
Theorem last_writer_wins key e ops :
  Get key e = None →
  (∀ pre post v ts origin,
     ops = pre ++ OpPut key v ts origin :: post →
     (∀ v' ts' o', In (OpPut key v' ts' o') pre → ts' < ts) →
     (∀ v' ts' o', In (OpPut key v' ts' o') post → ts' <= ts) →
     (∀ td, In (OpDelete key td) ops → td < ts) →
     Get key (apply_ops ops e) = Some (mkVV v ts origin)) ∧
  (∀ pre post td,
     ops = pre ++ OpDelete key td :: post →
     (∀ v ts origin, In (OpPut key v ts origin) pre → ts < td) →
     (∀ v ts origin, ¬ In (OpPut key v ts origin) post) →
     Get key (apply_ops ops e) = None).
Proof.
  intros Hfresh. split.
  - intros pre post v ts origin -> Hpre Hpost Hdel.
    rewrite apply_ops_app. simpl.
    apply apply_ops_keeps; simpl.
    + assert (Hb : below ts key (apply_ops pre e)).
      { apply apply_ops_below; [|done]. unfold below. by rewrite Hfresh. }
      unfold below, Get in *. rewrite Put_store.
      destruct (store_ (apply_ops pre e) !! key) as [x|].
      * destruct (Z.geb_spec (timestamp x) ts); [lia|].
        by rewrite lookup_insert_eq.
      * by rewrite lookup_insert_eq.
    + done.
    + intros td Hin. apply Z.lt_le_incl, Hdel.
      apply in_or_app. right. by right.
  - intros pre post td -> Hpre Hpost.
    rewrite apply_ops_app. simpl.
    apply apply_ops_absent; [|done].
    assert (Hb : below td key (apply_ops pre e)).
    { apply apply_ops_below; [|done]. unfold below. by rewrite Hfresh. }
    unfold below, Get in *. rewrite Delete_store.
    destruct (store_ (apply_ops pre e) !! key) as [x|] eqn:Hx; [|done].
    destruct (Z.geb_spec (timestamp x) td); [lia|].
    by rewrite lookup_delete_eq.
Qed.

Lemma last_writer_wins_witness :
  Get "k" (apply_ops [OpPut "k" "a" 100 "n1"; OpDelete "k" 150;
                      OpPut "k" "b" 200 "n2"; OpPut "k" "c" 200 "n3";
                      OpDelete "k" 120] (open []))
    = Some (mkVV "b" 200 "n2") ∧
  Get "k" (apply_ops [OpPut "k" "a" 100 "n1"; OpDelete "k" 300;
                      OpDelete "k" 50] (open [])) = None.
Proof.
  split.
  - refine (proj1 (last_writer_wins "k" (open []) _ eq_refl)
              [OpPut "k" "a" 100 "n1"; OpDelete "k" 150] _ _ _ _
              eq_refl _ _ _).
    + intros v' ts' o' [H|[H|[]]]; inversion H; lia.
    + intros v' ts' o' [H|[H|[]]]; inversion H; lia.
    + intros td [H|[H|[H|[H|[H|[]]]]]]; inversion H; lia.
  - refine (proj2 (last_writer_wins "k" (open []) _ eq_refl)
              [OpPut "k" "a" 100 "n1"] _ _ eq_refl _ _).
    + intros v ts origin [H|[]]; inversion H; lia.
    + intros v ts origin [H|[]]; inversion H.
Defined.

(** C6: the live engine keeps a value when a [Delete] carries the same
    timestamp, but [Recover] replays the logged pair with [<=] and drops
    the key. *)
Theorem Recover_erases_on_equal_timestamp :
  let live :=
    apply_ops [OpPut "k" "v" 100 "n1"; OpDelete "k" 100] (open []) in
  Get "k" live = Some (mkVV "v" 100 "n1") ∧
  Wal.Replay (wal_ live) =
    [Wal.mkEntry OpType.PUT 100 "k" "v"; Wal.mkEntry OpType.DELETE_OP 100 "k" ""] ∧
  Get "k" (Recover (open (wal_ live))) = None.
Proof. vm_compute. done. Qed.

(** C7: [BulkPut] never touches the log, so what it puts into the map
    is lost by a later [Recover]. *)
Theorem BulkPut_writes_no_wal_record :
  (∀ entries e, wal_ (BulkPut entries e) = wal_ e) ∧
  let e := BulkPut [("k", mkVV "v" 100 "n1")] (open []) in
  Get "k" e = Some (mkVV "v" 100 "n1") ∧
  wal_ e = [] ∧
  Get "k" (Recover (open (wal_ e))) = None.
Proof. split; [done|]. vm_compute. done. Qed.

End StorageFacts.


(** ** Storage engine: deletes, logging, recovery, bulk operations *)

Section StorageMoreFacts.
Import Storage.

Implicit Types (e : StorageEngine) (key : string) (ts : Timestamp).

Lemma apply_op_wal e o :
  wal_ (apply_op e o)
  = Wal.Append (Wal.op (op_entry o)) (Wal.key (op_entry o))
               (Wal.entry_value (op_entry o))
               (Wal.entry_timestamp (op_entry o)) (wal_ e).
Proof.
  destruct o as [k v ts origin|k ts]; simpl.
  - unfold Put. destruct (store_ e !! k) as [x|]; [|done].
    by destruct (timestamp x >=? ts).
  - unfold Delete. destruct (store_ e !! k) as [x|]; [|done].
    by destruct (timestamp x >=? ts).
Qed.

Lemma apply_ops_wal ops : ∀ e,
  wal_ (apply_ops ops e) = Wal.append_all (map op_entry ops) (wal_ e).
Proof.
  induction ops as [|o ops IH]; intros e; [done|].
  cbn [apply_ops fold_left map Wal.append_all].
  change (fold_left apply_op ops (apply_op e o))
    with (apply_ops ops (apply_op e o)).
  rewrite IH, apply_op_wal. done.
Qed.

Lemma Replay_flat_blobs es :
  Forall Wal.fits es →
  Wal.Replay
    (flat_map (fun w => Wal.blob_bytes (Wal.op w) (Wal.key w)
                          (Wal.entry_value w) (Wal.entry_timestamp w)) es)
  = es.
Proof.
  intros Hfits. unfold Wal.Replay.
  rewrite replay_loop_blobs; [done|done|].
  pose proof (length_flat_blobs es). lia.
Qed.

(** X4: [Delete] returns true and removes the key exactly when the key
    is present with a timestamp strictly below [ts]; on a missing key or
    a stored timestamp [>= ts] it returns false and leaves the map as it
    was. Either way the DELETE record is appended to the log. *)
Theorem Delete_monotonic_rule key ts e :
  ((∃ old, Get key e = Some old ∧ timestamp old < ts) →
   (Delete key ts e).1 = true ∧
   store_ (Delete key ts e).2 = delete key (store_ e)) ∧
  ((Get key e = None ∨ ∃ old, Get key e = Some old ∧ timestamp old >= ts) →
   (Delete key ts e).1 = false ∧
   store_ (Delete key ts e).2 = store_ e) ∧
  wal_ (Delete key ts e).2 = Wal.Append OpType.DELETE_OP key "" ts (wal_ e).
Proof.
  unfold Get, Delete. split; [|split].
  - intros (old & Hold & Hlt). rewrite Hold.
    destruct (Z.geb_spec (timestamp old) ts); [lia|done].
  - intros [Hnone|(old & Hold & Hge)].
    + by rewrite Hnone.
    + rewrite Hold. destruct (Z.geb_spec (timestamp old) ts); [done|lia].
  - destruct (store_ e !! key) as [x|]; [|done].
    by destruct (timestamp x >=? ts).
Qed.

Lemma Delete_monotonic_rule_witness :
  let e := (Put "key" "val" 200 "n1" (open [])).2 in
  ((Delete "key" 300 e).1 = true ∧
   store_ (Delete "key" 300 e).2 = delete "key" (store_ e)) ∧
  ((Delete "key" 100 e).1 = false ∧ store_ (Delete "key" 100 e).2 = store_ e) ∧
  ((Delete "nope" 100 e).1 = false ∧
   store_ (Delete "nope" 100 e).2 = store_ e).
Proof.
  intros e. split; [|split].
  - apply (Delete_monotonic_rule "key" 300 e).
    exists (mkVV "val" 200 "n1"). split; [reflexivity|simpl; lia].
  - apply (Delete_monotonic_rule "key" 100 e). right.
    exists (mkVV "val" 200 "n1"). split; [reflexivity|simpl; lia].
  - apply (Delete_monotonic_rule "nope" 100 e). by left.
Defined.

(** X5: every [Put] and [Delete] call is logged, accepted or not: the
    log of an engine opened on a new file replays to one record per
    call, in call order. *)
Theorem every_call_is_logged ops :
  Forall (fun o => Wal.fits (op_entry o)) ops →
  Wal.Replay (wal_ (apply_ops ops (open []))) = map op_entry ops.
Proof.
  intros Hfits. rewrite apply_ops_wal, append_all_flat. cbn [open wal_ app].
  apply Replay_flat_blobs. by apply Forall_map.
Qed.

Lemma every_call_is_logged_witness :
  Wal.Replay (wal_ (apply_ops [OpPut "k" "new" 200 "n1";
                               OpPut "k" "old" 100 "n1";
                               OpDelete "missing" 50] (open [])))
  = [Wal.mkEntry OpType.PUT 200 "k" "new";
     Wal.mkEntry OpType.PUT 100 "k" "old";
     Wal.mkEntry OpType.DELETE_OP 50 "missing" ""].
Proof.
  apply (every_call_is_logged [OpPut "k" "new" 200 "n1";
                               OpPut "k" "old" 100 "n1";
                               OpDelete "missing" 50]).
  repeat constructor; vm_compute; intuition discriminate.
Defined.

Lemma recover_simulation rest : ∀ pre e s,
  from_puts pre e →
  s = recovered <$> store_ e →
  (∀ k td v tp origin,
     In (OpDelete k td) rest → In (OpPut k v tp origin) (pre ++ rest) →
     td ≠ tp) →
  fold_left recover_step (map op_entry rest) s
  = recovered <$> store_ (apply_ops rest e).
Proof.
  induction rest as [|o rest IH]; intros pre e s Hfrom Hs Hne; [done|].
  cbn [map fold_left apply_ops].
  change (fold_left apply_op rest (apply_op e o))
    with (apply_ops rest (apply_op e o)).
  apply (IH (pre ++ [o])).
  - intros k x Hx. destruct o as [k' v ts origin|k' td]; simpl in Hx.
    + rewrite Put_store in Hx.
      assert (Hins : <[k' := mkVV v ts origin]> (store_ e) !! k = Some x →
                     ∃ v0 o0, In (OpPut k v0 (timestamp x) o0)
                                 (pre ++ [OpPut k' v ts origin])).
      { intros Hi. destruct (decide (k' = k)) as [->|Hk].
        - rewrite lookup_insert_eq in Hi. injection Hi as <-.
          exists v, origin. apply in_or_app. right. by left.
        - rewrite lookup_insert_ne in Hi by done.
          destruct (Hfrom k x Hi) as (v0 & o0 & Hin).
          exists v0, o0. apply in_or_app. by left. }
      destruct (store_ e !! k') as [y|]; [|by apply Hins].
      destruct (timestamp y >=? ts); [|by apply Hins].
      destruct (Hfrom k x Hx) as (v0 & o0 & Hin).
      exists v0, o0. apply in_or_app. by left.
    + rewrite Delete_store in Hx.
      assert (Hold : store_ e !! k = Some x).
      { destruct (store_ e !! k') as [y|]; [|done].
        destruct (timestamp y >=? td); [done|].
        apply lookup_delete_Some in Hx. by destruct Hx. }
      destruct (Hfrom k x Hold) as (v0 & o0 & Hin).
      exists v0, o0. apply in_or_app. by left.
  - subst s. destruct o as [k v ts origin|k td]; simpl.
    + rewrite Put_store. unfold recover_step. simpl.
      rewrite lookup_fmap. destruct (store_ e !! k) as [y|]; simpl.
      * destruct (Z.geb_spec (timestamp y) ts), (Z.ltb_spec (timestamp y) ts);
          try lia; [done|]. by rewrite fmap_insert.
      * by rewrite fmap_insert.
    + rewrite Delete_store. unfold recover_step. simpl.
      rewrite lookup_fmap. destruct (store_ e !! k) as [y|] eqn:Hy; simpl;
        [|done].
      destruct (Hfrom k y Hy) as (v0 & o0 & Hin).
      assert (td ≠ timestamp y).
      { apply (Hne k td v0 (timestamp y) o0); [by left|].
        apply in_or_app. by left. }
      destruct (Z.geb_spec (timestamp y) td), (Z.leb_spec (timestamp y) td);
        try lia; [done|]. by rewrite fmap_delete.
  - intros k td v tp origin Hd Hp. apply (Hne k td v tp origin).
    + by right.
    + rewrite <- app_assoc in Hp. exact Hp.
Qed.

(** X6: crash recovery. When no [Delete] of the history carries the
    same key and timestamp as one of its [Put]s, a new engine that runs
    [Recover] on the log left by the history holds the same keys with
    the same values and timestamps as the live engine held; only the
    origin, which the log does not keep, is empty. *)
Theorem Recover_rebuilds_live_map ops :
  Forall (fun o => Wal.fits (op_entry o)) ops →
  (∀ k td v tp origin,
     In (OpDelete k td) ops → In (OpPut k v tp origin) ops → td ≠ tp) →
  store_ (Recover (open (wal_ (apply_ops ops (open [])))))
  = recovered <$> store_ (apply_ops ops (open [])).
Proof.
  intros Hfits Hne. unfold Recover. cbn [open store_ wal_].
  rewrite apply_ops_wal, append_all_flat. cbn [open wal_ app].
  rewrite Replay_flat_blobs by (by apply Forall_map).
  apply (recover_simulation ops [] (open [])).
  - intros k x Hx. cbn [open store_] in Hx. by rewrite lookup_empty in Hx.
  - cbn [open store_]. by rewrite fmap_empty.
  - exact Hne.
Qed.

Lemma Recover_rebuilds_live_map_witness :
  store_ (Recover (open (wal_ (apply_ops
            [OpPut "key1" "val1" 100 "n1"; OpPut "key2" "val2" 200 "n1";
             OpDelete "key1" 300] (open [])))))
  = recovered <$> store_ (apply_ops
            [OpPut "key1" "val1" 100 "n1"; OpPut "key2" "val2" 200 "n1";
             OpDelete "key1" 300] (open [])).
Proof.
  apply (Recover_rebuilds_live_map
           [OpPut "key1" "val1" 100 "n1"; OpPut "key2" "val2" 200 "n1";
            OpDelete "key1" 300]).
  - repeat constructor; vm_compute; intuition discriminate.
  - intros k td v tp origin [H|[H|[H|[]]]] [H'|[H'|[H'|[]]]];
      inversion H; inversion H'; subst; lia.
Defined.

Lemma Put_keeps_present key k v ts origin e x :
  Get key e = Some x →
  ∃ y, Get key (Put k v ts origin e).2 = Some y ∧ timestamp x <= timestamp y.
Proof.
  unfold Get. intros Hx. rewrite Put_store.
  destruct (decide (k = key)) as [->|Hne].
  - rewrite Hx. destruct (Z.geb_spec (timestamp x) ts).
    + exists x. split; [done|lia].
    + rewrite lookup_insert_eq. eexists. split; [done|]. simpl. lia.
  - assert (Hins : <[k := mkVV v ts origin]> (store_ e) !! key = Some x)
      by (by rewrite lookup_insert_ne).
    exists x. split; [|lia].
    destruct (store_ e !! k) as [y|]; [|done].
    by destruct (timestamp y >=? ts).
Qed.

Lemma Put_present_after k v ts origin e :
  ∃ y, Get k (Put k v ts origin e).2 = Some y ∧ ts <= timestamp y.
Proof.
  unfold Get. rewrite Put_store. destruct (store_ e !! k) as [x|] eqn:Hx.
  - destruct (Z.geb_spec (timestamp x) ts).
    + exists x. split; [done|lia].
    + rewrite lookup_insert_eq. eexists. split; [done|]. simpl. lia.
  - rewrite lookup_insert_eq. eexists. split; [done|]. simpl. lia.
Qed.

Lemma puts_only_keep ops : ∀ e key x,
  puts_only ops → Get key e = Some x →
  ∃ y, Get key (apply_ops ops e) = Some y ∧ timestamp x <= timestamp y.
Proof.
  induction ops as [|o ops IH]; intros e key x Hp Hx.
  { exists x. split; [done|lia]. }
  destruct (Hp o (or_introl eq_refl)) as (k & v & ts & origin & ->).
  cbn [apply_ops fold_left apply_op].
  destruct (Put_keeps_present key k v ts origin e x Hx) as (y & Hy & Hle).
  destruct (IH (Put k v ts origin e).2 key y) as (z & Hz & Hle'); [|done|].
  { intros o Ho. apply Hp. by right. }
  exists z. split; [done|lia].
Qed.

(** X7: without [Delete]s the engine is last-writer-wins in any order:
    a key that is present stays present and its timestamp never goes
    down, and after the sequence every written key holds a timestamp at
    least as large as each [Put] addressed to it. *)
Theorem puts_never_lower_a_timestamp ops e :
  puts_only ops →
  (∀ key x, Get key e = Some x →
     ∃ y, Get key (apply_ops ops e) = Some y ∧ timestamp x <= timestamp y) ∧
  (∀ k v ts origin, In (OpPut k v ts origin) ops →
     ∃ y, Get k (apply_ops ops e) = Some y ∧ ts <= timestamp y).
Proof.
  intros Hp. split.
  - intros key x Hx. by apply puts_only_keep.
  - revert e. induction ops as [|o ops IH]; intros e k v ts origin Hin;
      [done|].
    cbn [apply_ops fold_left].
    change (fold_left apply_op ops (apply_op e o))
      with (apply_ops ops (apply_op e o)).
    assert (Hp' : puts_only ops) by (intros o' Ho'; apply Hp; by right).
    destruct Hin as [->|Hin].
    + cbn [apply_op].
      destruct (Put_present_after k v ts origin e) as (y & Hy & Hle).
      destruct (puts_only_keep ops _ k y Hp' Hy) as (z & Hz & Hle').
      exists z. split; [done|lia].
    + by apply (IH Hp' _ k v ts origin).
Qed.

Lemma puts_never_lower_a_timestamp_witness :
  ∃ y, Get "key" (apply_ops [OpPut "key" "new" 200 "n1";
                             OpPut "key" "old" 100 "n1"] (open [])) = Some y
       ∧ 200 <= timestamp y.
Proof.
  refine (proj2 (puts_never_lower_a_timestamp
                   [OpPut "key" "new" 200 "n1"; OpPut "key" "old" 100 "n1"]
                   (open []) _) "key" "new" 200 "n1" _).
  - intros o [<-|[<-|[]]]; eauto.
  - by left.
Defined.

(** X8: [ConditionalPut] is idempotent: repeating a replicated write is
    rejected and leaves the map as the first attempt left it. *)
Theorem ConditionalPut_idempotent key vv e :
  (ConditionalPut key vv (ConditionalPut key vv e).2).1 = false ∧
  store_ (ConditionalPut key vv (ConditionalPut key vv e).2).2
  = store_ (ConditionalPut key vv e).2.
Proof.
  assert (Hafter : ∃ y, store_ (ConditionalPut key vv e).2 !! key = Some y
                        ∧ timestamp vv <= timestamp y).
  { unfold ConditionalPut. destruct (store_ e !! key) as [x|] eqn:Hx.
    - destruct (Z.geb_spec (timestamp x) (timestamp vv)); simpl.
      + exists x. split; [done|lia].
      + rewrite lookup_insert_eq. exists vv. split; [done|lia].
    - simpl. rewrite lookup_insert_eq. exists vv. split; [done|lia]. }
  destruct Hafter as (y & Hy & Hle).
  unfold ConditionalPut at 1 3. rewrite Hy.
  destruct (Z.geb_spec (timestamp y) (timestamp vv)); [done|lia].
Qed.

Lemma RemoveKeys_lookup keys : ∀ (s : gmap string VersionedValue) k,
  fold_left (fun s k => delete k s) keys s !! k
  = if decide (k ∈ keys) then None else s !! k.
Proof.
  induction keys as [|k0 keys IH]; intros s k; cbn [fold_left].
  { by rewrite decide_False by apply not_elem_of_nil. }
  rewrite IH. destruct (decide (k ∈ keys)) as [Hin|Hnin].
  - rewrite decide_True; [done|]. by right.
  - destruct (decide (k = k0)) as [->|Hne].
    + rewrite decide_True by left. apply lookup_delete_eq.
    + rewrite decide_False.
      * by rewrite lookup_delete_ne.
      * intros Hin. apply elem_of_cons in Hin as [?|?]; done.
Qed.

(** X9: [RemoveKeys] removes each listed key whatever its timestamp,
    keeps every other key, and writes nothing to the log. *)
Theorem RemoveKeys_unconditional keys e :
  (∀ k, Get k (RemoveKeys keys e)
        = if decide (k ∈ keys) then None else Get k e) ∧
  wal_ (RemoveKeys keys e) = wal_ e.
Proof.
  split; [|done]. intros k. unfold Get, RemoveKeys. cbn [store_].
  apply RemoveKeys_lookup.
Qed.

Lemma bulk_step_keeps (s : gmap string VersionedValue) kv k x :
  s !! k = Some x →
  ∃ y, bulk_step s kv !! k = Some y ∧ timestamp x <= timestamp y.
Proof.
  intros Hx. destruct kv as [k' vv]. unfold bulk_step.
  destruct (decide (k' = k)) as [->|Hne].
  - rewrite Hx. destruct (Z.ltb_spec (timestamp x) (timestamp vv)).
    + rewrite lookup_insert_eq. exists vv. split; [done|lia].
    + exists x. split; [done|lia].
  - exists x. split; [|lia].
    destruct (s !! k') as [y|].
    + destruct (timestamp y <? timestamp vv); [|done].
      by rewrite lookup_insert_ne.
    + by rewrite lookup_insert_ne.
Qed.

Lemma bulk_fold_keeps entries : ∀ (s : gmap string VersionedValue) k x,
  s !! k = Some x →
  ∃ y, fold_left bulk_step entries s !! k = Some y
       ∧ timestamp x <= timestamp y.
Proof.
  induction entries as [|kv entries IH]; intros s k x Hx; cbn [fold_left].
  { exists x. split; [done|lia]. }
  destruct (bulk_step_keeps s kv k x Hx) as (y & Hy & Hle).
  destruct (IH _ k y Hy) as (z & Hz & Hle').
  exists z. split; [done|lia].
Qed.

Lemma bulk_fold_other entries : ∀ (s : gmap string VersionedValue) k,
  k ∉ entries.*1 → fold_left bulk_step entries s !! k = s !! k.
Proof.
  induction entries as [|[k' vv] entries IH]; intros s k Hk; [done|].
  cbn [fold_left]. rewrite fmap_cons in Hk. cbn [fst] in Hk.
  apply not_elem_of_cons in Hk as [Hne Hk].
  rewrite IH by done. unfold bulk_step.
  destruct (s !! k') as [y|].
  - destruct (timestamp y <? timestamp vv); [|done].
    by rewrite lookup_insert_ne.
  - by rewrite lookup_insert_ne.
Qed.

(** X10: [BulkPut] follows the monotonic rule entry by entry: every key
    of the batch is present afterwards with a timestamp at least that of
    each of its entries, no present key disappears or loses timestamp,
    and keys outside the batch are untouched. *)
Theorem BulkPut_monotonic entries e :
  (∀ k vv, (k, vv) ∈ entries →
     ∃ y, Get k (BulkPut entries e) = Some y ∧ timestamp vv <= timestamp y) ∧
  (∀ k x, Get k e = Some x →
     ∃ y, Get k (BulkPut entries e) = Some y ∧ timestamp x <= timestamp y) ∧
  (∀ k, k ∉ entries.*1 → Get k (BulkPut entries e) = Get k e).
Proof.
  unfold Get, BulkPut. cbn [store_]. split; [|split].
  - generalize (store_ e). induction entries as [|[k' vv'] entries IH];
      intros s k vv Hin; [by apply elem_of_nil in Hin|].
    cbn [fold_left]. apply elem_of_cons in Hin as [[= -> ->]|Hin].
    + assert (Hstep : ∃ y, bulk_step s (k', vv') !! k' = Some y
                           ∧ timestamp vv' <= timestamp y).
      { unfold bulk_step. destruct (s !! k') as [x|] eqn:Hx.
        - destruct (Z.ltb_spec (timestamp x) (timestamp vv')).
          + rewrite lookup_insert_eq. exists vv'. split; [done|lia].
          + exists x. split; [done|lia].
        - rewrite lookup_insert_eq. exists vv'. split; [done|lia]. }
      destruct Hstep as (y & Hy & Hle).
      destruct (bulk_fold_keeps entries _ k' y Hy) as (z & Hz & Hle').
      exists z. split; [done|lia].
    + by apply IH.
  - intros k x Hx. by apply bulk_fold_keeps.
  - intros k Hk. by apply bulk_fold_other.
Qed.

End StorageMoreFacts.


(** ** Membership manager *)

Section MembershipFacts.
Import Buffer Membership Scenario.

(** The identity and address of a member, which gossip must not touch. *)
Lemma AddMember_known node m known :
  members_ m !! node_id node = Some known →
  ∃ upd,
    members_ (AddMember node m).1 !! node_id node = Some upd ∧
    node_id upd = node_id known ∧ host upd = host known ∧
    port upd = port known.
Proof.
  intros Hk. unfold AddMember. rewrite Hk.
  destruct (last_heartbeat node >? last_heartbeat known).
  - destruct (negb (is_alive known) && is_alive node); simpl;
      rewrite lookup_insert_eq; eauto.
  - simpl. eauto.
Qed.

Lemma AddMember_other node m nid :
  nid ≠ node_id node →
  members_ (AddMember node m).1 !! nid = members_ m !! nid.
Proof.
  intros Hne. unfold AddMember.
  destruct (members_ m !! node_id node) as [known|].
  - destruct (last_heartbeat node >? last_heartbeat known); [|done].
    destruct (negb (is_alive known) && is_alive node); simpl;
      by rewrite lookup_insert_ne.
  - simpl. by rewrite lookup_insert_ne.
Qed.

Lemma AddMember_self node m : self_ (AddMember node m).1 = self_ m.
Proof.
  unfold AddMember. destruct (members_ m !! node_id node) as [known|]; [|done].
  destruct (last_heartbeat node >? last_heartbeat known); [|done].
  by destruct (negb (is_alive known) && is_alive node).
Qed.

(** Whatever entry is merged, a member known before keeps its address. *)
Lemma AddMember_address node m nid known :
  members_ m !! nid = Some known →
  ∃ upd,
    members_ (AddMember node m).1 !! nid = Some upd ∧
    node_id upd = node_id known ∧ host upd = host known ∧
    port upd = port known.
Proof.
  intros Hk. destruct (decide (nid = node_id node)) as [->|Hne].
  - by apply AddMember_known.
  - rewrite AddMember_other by done. eauto.
Qed.

Lemma gossip_loop_address count : ∀ msg m joined nid known,
  members_ m !! nid = Some known →
  ∃ upd,
    members_ (gossip_loop count msg m joined).1.1 !! nid = Some upd ∧
    node_id upd = node_id known ∧ host upd = host known ∧
    port upd = port known.
Proof.
  induction count as [|count IH]; intros msg m joined nid known Hk; simpl.
  { eauto. }
  destruct (read_entry msg) as [[info msg']|]; [|simpl; eauto].
  destruct (decide (node_id info = node_id (self_ m))); [by apply IH|].
  destruct (AddMember_address info m nid known Hk) as (upd & Hu & Hi & Hh & Hp).
  destruct (AddMember info m) as [m' is_new]. simpl in Hu.
  destruct (IH msg' m' (if is_new then joined ++ [info] else joined)
               nid upd Hu) as (upd' & Hu' & Hi' & Hh' & Hp').
  exists upd'. repeat split; congruence.
Qed.

(** C10: merging a gossip entry for a known node id leaves the stored
    node id, host and port as they were, whatever heartbeat and address
    the entry carries; only [last_heartbeat] and [is_alive] can change,
    and no other member is touched. This holds for one [AddMember] and
    for every payload handed to [HandleGossipMessage]. *)
Theorem gossip_keeps_known_address :
  (∀ node m known,
     members_ m !! node_id node = Some known →
     ∃ hb alive,
       members_ (AddMember node m).1 =
       <[node_id node :=
           mkNodeInfo (node_id known) (host known) (port known) alive hb]>
         (members_ m)) ∧
  (∀ msg m nid known,
     members_ m !! nid = Some known →
     ∃ upd,
       members_ (HandleGossipMessage msg m).1.1 !! nid = Some upd ∧
       node_id upd = node_id known ∧ host upd = host known ∧
       port upd = port known).
Proof.
  split.
  - intros node m known Hk. unfold AddMember. rewrite Hk.
    destruct (last_heartbeat node >? last_heartbeat known).
    + destruct (negb (is_alive known) && is_alive node); simpl; eauto.
    + exists (last_heartbeat known), (is_alive known). simpl.
      rewrite insert_id; [done|]. rewrite Hk. by destruct known.
  - intros msg m nid known Hk. unfold HandleGossipMessage.
    destruct (ReadUint32 msg) as [[count msg']|]; [|simpl; eauto].
    by apply gossip_loop_address.
Qed.

Lemma gossip_keeps_known_address_witness :
  ∃ upd,
    members_ (HandleGossipMessage moved_B view_AB).1.1 !! "B" = Some upd ∧
    node_id upd = "B" ∧ host upd = "10.0.0.2" ∧ port upd = 7001.
Proof.
  apply (proj2 gossip_keeps_known_address moved_B view_AB "B"
               (mkNodeInfo "B" "10.0.0.2" 7001 true 5000)).
  reflexivity.
Defined.

Example moved_B_merged :
  members_ (HandleGossipMessage moved_B view_AB).1.1 !! "B"
  = Some (mkNodeInfo "B" "10.0.0.2" 7001 true 9000).
Proof. vm_compute. done. Qed.

End MembershipFacts.


(** ** Replication manager and coordinator *)

Section ReplicationFacts.
Import Replication Scenario.

Lemma count_acks_from (futures : list bool) : ∀ acks0,
  fold_left (fun acks r => if r : bool then acks + 1 else acks) futures acks0
  = acks0 + Z.of_nat (count_occ Bool.bool_dec futures true).
Proof.
  induction futures as [|r futures IH]; intros acks0; simpl; [lia|].
  rewrite IH. destruct r; simpl; lia.
Qed.

(** [acks] is the number of futures that returned true. *)
Lemma count_acks_spec (futures : list bool) :
  count_acks futures = Z.of_nat (count_occ Bool.bool_dec futures true).
Proof. unfold count_acks. by rewrite count_acks_from. Qed.

(** C4, as stated, fails on an empty replica list ([N = 0]): no ack
    arrives, [W = 2], and the error is not of the quorum form. *)
Lemma no_nodes_is_not_a_quorum_message :
  ¬ (∀ remote_put rm ring membership now key value storage res storage',
       ReplicatedPut remote_put rm ring membership now key value storage
         = Some (res, storage') →
       acks res < W_ rm →
       String.prefix
         ("Quorum not reached: " +:+ pretty (acks res) +:+ "/"
            +:+ pretty (W_ rm))
         (error res) = true).
Proof.
  intros H.
  specialize (H peers_down_put (mkReplication "A" 0 2 2) ring_A view_A
                1000 "k" "v" (Storage.open [])
                (mkWriteResult false 0 "No nodes available")
                (Storage.open [])).
  assert (Hrun :
    ReplicatedPut peers_down_put (mkReplication "A" 0 2 2) ring_A view_A
                  1000 "k" "v" (Storage.open [])
    = Some (mkWriteResult false 0 "No nodes available", Storage.open []))
    by (vm_compute; reflexivity).
  specialize (H Hrun). simpl in H.
  assert (Hf : String.prefix "Quorum not reached: 0/2" "No nodes available"
               = false) by reflexivity.
  rewrite H in Hf; [discriminate|lia].
Qed.

(** C4, amended: when [GetNodes] yields a non-empty replica list,
    [ReplicatedPut] returns with [acks] the number of replica writes
    that succeeded, reports success exactly when [acks >= W], and
    otherwise carries the error "Quorum not reached: <acks>/<W> acks";
    on an empty replica list it fails with "No nodes available". *)
Theorem ReplicatedPut_quorum remote_put rm ring membership now key value
        storage nodes :
  Ring.GetNodes key (N_ rm) ring = Some nodes →
  ∃ res storage',
    ReplicatedPut remote_put rm ring membership now key value storage
      = Some (res, storage') ∧
    (nodes = [] → res = mkWriteResult false 0 "No nodes available") ∧
    (nodes ≠ [] →
     acks res =
       Z.of_nat (count_occ Bool.bool_dec
                   (launch_puts remote_put rm membership key value now
                                nodes storage).1 true) ∧
     (success res = true ↔ acks res >= W_ rm) ∧
     (acks res < W_ rm →
      error res = "Quorum not reached: " +:+ pretty (acks res) +:+ "/"
                    +:+ pretty (W_ rm) +:+ " acks")).
Proof.
  intros Hnodes. unfold ReplicatedPut. rewrite Hnodes.
  destruct nodes as [|n nodes].
  { eexists _, _. split; [done|]. split; [done|]. by intros []. }
  destruct (launch_puts remote_put rm membership key value now (n :: nodes)
                        storage) as [futures storage'] eqn:Hl.
  rewrite <- count_acks_spec. simpl.
  destruct (Z.geb_spec (count_acks futures) (W_ rm)) as [Hge|Hlt].
  - eexists _, _. split; [done|]. split; [done|]. intros _. simpl.
    repeat split; try done; lia.
  - eexists _, _. split; [done|]. split; [done|]. intros _. simpl.
    repeat split; try done; try lia.
Qed.

Lemma ReplicatedPut_quorum_witness :
  ∃ res storage',
    ReplicatedPut peers_down_put (mkReplication "A" 3 2 2) ring_ABC view_ABC
                  1000 "k" "v" (Storage.open [])
      = Some (res, storage') ∧
    acks res = 1 ∧ success res = false ∧
    error res = "Quorum not reached: 1/2 acks".
Proof.
  assert (Hnodes : Ring.GetNodes "k" (N_ (mkReplication "A" 3 2 2)) ring_ABC
                   = Some ["B"; "A"; "C"]) by (vm_compute; reflexivity).
  destruct (ReplicatedPut_quorum peers_down_put (mkReplication "A" 3 2 2)
              ring_ABC view_ABC 1000 "k" "v" (Storage.open []) _ Hnodes)
    as (res & storage' & Hrun & _ & Hq).
  destruct (Hq ltac:(discriminate)) as (Hacks & Hsucc & Herr).
  assert (Hone : acks res = 1) by (rewrite Hacks; vm_compute; reflexivity).
  exists res, storage'. split; [exact Hrun|]. split; [exact Hone|]. split.
  - destruct (success res) eqn:Hs; [|reflexivity].
    exfalso. destruct Hsucc as [Hsucc _]. specialize (Hsucc eq_refl).
    rewrite Hone in Hsucc. simpl in Hsucc. lia.
  - rewrite Herr; [rewrite Hone; reflexivity|]. rewrite Hone. simpl. lia.
Defined.

(** The version search never goes below the sentinel timestamp 0: the
    chosen value bounds every value above 0, and [found] is set exactly
    when some response holds a value whose timestamp is above 0. *)
Lemma find_latest_from (resps : list ReadResponse) : ∀ latest found,
  let r := fold_left latest_step resps (latest, found) in
  timestamp latest <= timestamp r.1 ∧
  (∀ x v, In x resps → resp_value x = Some v →
          timestamp v <= timestamp r.1) ∧
  (r.2 = true ↔
   found = true ∨
   ∃ x v, In x resps ∧ resp_value x = Some v ∧ timestamp latest < timestamp v) ∧
  (r.1 = latest ∨ ∃ x, In x resps ∧ resp_value x = Some r.1).
Proof.
  induction resps as [|x resps IH]; intros latest found; simpl.
  { split; [lia|]. split; [by intros ? ? []|]. split; [|by left].
    split; [by left|]. intros [?|(? & ? & [] & _)]. done. }
  unfold latest_step at 2 4 6 8 10. simpl.
  destruct (resp_value x) as [v|] eqn:Hv.
  - destruct (Z.gtb_spec (timestamp v) (timestamp latest)) as [Hgt|Hle].
    + destruct (IH v true) as (H1 & H2 & H3 & H4). simpl in *.
      split; [lia|]. split; [|split].
      * intros y w [<-|Hin] Hw; [|by eapply H2].
        rewrite Hv in Hw. injection Hw as <-. done.
      * split; [|intros _; apply H3; by left].
        intros _. right. exists x, v. split; [by left|]. split; [done|lia].
      * right. destruct H4 as [->|(y & Hy & Hr)]; [exists x; eauto|].
        exists y. eauto.
    + destruct (IH latest found) as (H1 & H2 & H3 & H4). simpl in *.
      split; [lia|]. split; [|split].
      * intros y w [<-|Hin] Hw; [|by eapply H2].
        rewrite Hv in Hw. injection Hw as <-. lia.
      * rewrite H3. split.
        -- intros [?|(y & w & Hin & Hw & Hlt)]; [by left|].
           right. exists y, w. eauto.
        -- intros [?|(y & w & [<-|Hin] & Hw & Hlt)]; [by left| |].
           ++ rewrite Hv in Hw. injection Hw as <-. lia.
           ++ right. exists y, w. eauto.
      * destruct H4 as [?|(y & Hy & Hr)]; [by left|]. right. exists y. eauto.
  - destruct (IH latest found) as (H1 & H2 & H3 & H4). simpl in *.
    split; [lia|]. split; [|split].
    + intros y w [<-|Hin] Hw; [congruence|by eapply H2].
    + rewrite H3. split.
      * intros [?|(y & w & Hin & Hw & Hlt)]; [by left|].
        right. exists y, w. eauto.
      * intros [?|(y & w & [<-|Hin] & Hw & Hlt)]; [by left|congruence|].
        right. exists y, w. eauto.
    + destruct H4 as [?|(y & Hy & Hr)]; [by left|]. right. exists y. eauto.
Qed.

(** C5: a replica that answers ok and holds a value with timestamp 0
    does not count as holding a value: the read succeeds with no value. *)
Theorem ReplicatedGet_drops_timestamp_zero :
  let storage := (Storage.Put "k" "v" 0 "A" (Storage.open [])).2 in
  Storage.Get "k" storage = Some (mkVV "v" 0 "A") ∧
  ReplicatedGet peers_down_get (mkReplication "A" 1 1 1) ring_A view_A
                "k" storage
  = Some (mkReadResult true None 1 "", storage, []).
Proof. vm_compute. done. Qed.

(** C8: on a single-replica cluster a client PUT that is stale at the
    local engine earns no ack, and the coordinator answers ERROR; the
    same write arriving as INTERNAL_PUT is answered OK. *)
Theorem HandlePut_stale_write_is_error :
  let storage := (Storage.Put "k" "new" 200 "A" (Storage.open [])).2 in
  (Storage.Put "k" "old" 100 "A" storage).1 = false ∧
  (∃ storage',
     Coordinator.HandlePut peers_down_put (mkReplication "A" 1 1 1) ring_A
                           view_A 100 (put_payload "k" "old") storage
     = Some (Buffer.MakeErrorResponse "Quorum not reached: 0/1 acks",
             storage') ∧
     Storage.store_ storage' = Storage.store_ storage) ∧
  (∃ storage',
     Coordinator.HandleInternalPut (internal_put_payload "k" "old" 100 "A")
                                   storage
     = Some (Buffer.MakeOkResponse, storage') ∧
     Storage.store_ storage' = Storage.store_ storage).
Proof.
  split; [vm_compute; reflexivity|]. split.
  - eexists. split; vm_compute; reflexivity.
  - eexists. split; vm_compute; reflexivity.
Qed.

End ReplicationFacts.


(** ** Consistent hash ring *)

Section RingFacts.
Import Ring Scenario.

Lemma upper_bound_le hash (r : list (Z * string)) :
  (upper_bound hash r ≤ length r)%nat.
Proof.
  induction r as [|[p n] r IH]; simpl; [lia|].
  destruct (p <=? hash); simpl; lia.
Qed.

Lemma collect_done count ids (res : list string) seen :
  ¬ Z.of_nat (length res) < count → collect count ids res seen = res.
Proof.
  intros Hge. destruct ids as [|nid ids]; simpl; [done|].
  destruct (Z.ltb_spec (Z.of_nat (length res)) count); [lia|done].
Qed.

(** The walk over the ring is the loop over the ids met on the way. *)
Lemma walk_collect (ring : list (Z * string)) count fuel :
  ∀ it (res : list string) seen,
  (it ≤ length ring)%nat → (fuel ≤ length ring)%nat → ring ≠ [] →
  walk ring count fuel it res seen
  = collect count (take fuel (drop (wrap ring it) (ring ++ ring))).*2 res seen.
Proof.
  induction fuel as [|fuel IH]; intros it res seen Hit Hfuel Hne; [done|].
  assert (Hlen : (0 < length ring)%nat) by (destruct ring; simpl; [done|lia]).
  assert (Hw : (wrap ring it < length ring)%nat).
  { unfold wrap. destruct (Nat.eqb_spec it (length ring)); lia. }
  destruct (lookup_lt_is_Some_2 ring (wrap ring it) Hw) as [[p nid] Hlk].
  assert (Hlk2 : (ring ++ ring) !! wrap ring it = Some (p, nid))
    by (by apply lookup_app_l_Some).
  assert (Hnext :
    take fuel (drop (wrap ring (S (wrap ring it))) (ring ++ ring))
    = take fuel (drop (S (wrap ring it)) (ring ++ ring))).
  { unfold wrap at 1.
    destruct (Nat.eqb_spec (S (wrap ring it)) (length ring)) as [Heq|]; [|done].
    rewrite Heq, drop_app_length, drop_0.
    rewrite take_app_le by lia. done. }
  cbn [walk]. fold (wrap ring it). rewrite Hlk.
  rewrite (drop_S _ _ _ Hlk2). cbn [take fmap list_fmap collect snd].
  change (list_fmap _ _ snd ?l) with (l.*2).
  destruct (Z.of_nat (length res) <? count); [|done].
  destruct (decide (nid ∈ seen)).
  - rewrite IH by (done || lia). by rewrite Hnext.
  - rewrite IH by (done || lia). by rewrite Hnext.
Qed.

(** A full turn from any position meets exactly the owners on the ring. *)
Lemma full_turn_owners (ring : list (Z * string)) it :
  (it ≤ length ring)%nat →
  list_to_set (C := gset string)
    (take (length ring) (drop it (ring ++ ring))).*2
  = list_to_set ring.*2.
Proof.
  intros Hit.
  assert (Hturn : take (length ring) (drop it (ring ++ ring))
                  = drop it ring ++ take it ring).
  { rewrite drop_app_le by done.
    rewrite take_app_ge by (rewrite length_drop; lia).
    rewrite length_drop. f_equal. f_equal. lia. }
  rewrite Hturn. rewrite <- (take_drop it ring) at 3.
  rewrite !fmap_app, !list_to_set_app_L. set_solver.
Qed.

(** What the loop collects: no id twice, only ids it met, and as many
    as asked for unless the ids run out first. *)
Lemma collect_spec count ids : ∀ (res : list string) (seen : gset string),
  seen = list_to_set res → NoDup res →
  NoDup (collect count ids res seen) ∧
  (∀ n, n ∈ collect count ids res seen → n ∈ res ∨ n ∈ ids) ∧
  (Z.of_nat (length res) < count →
   Z.of_nat (length (collect count ids res seen))
   = Z.min count (Z.of_nat (size (seen ∪ list_to_set ids)))).
Proof.
  induction ids as [|nid ids IH]; intros res seen Hseen Hnd.
  { simpl. split; [done|]. split; [by left|]. intros Hlt.
    rewrite union_empty_r_L, Hseen, size_list_to_set by done. lia. }
  cbn [collect].
  destruct (Z.ltb_spec (Z.of_nat (length res)) count) as [Hlt|Hge].
  2:{ split; [done|]. split; [by left|]. lia. }
  destruct (decide (nid ∈ seen)) as [Hin|Hnin].
  - destruct (IH res seen Hseen Hnd) as (H1 & H2 & H3).
    split; [done|]. split.
    + intros n Hn. destruct (H2 n Hn); [by left|]. right. by right.
    + intros _. rewrite H3 by done.
      replace (seen ∪ list_to_set (nid :: ids))
        with (seen ∪ list_to_set (C := gset string) ids); [done|].
      set_solver.
  - assert (Hnd' : NoDup (res ++ [nid])).
    { apply NoDup_app. split; [done|]. split; [|apply NoDup_singleton].
      intros x Hx Hx'. apply list_elem_of_singleton in Hx'. subst x.
      apply Hnin. rewrite Hseen. by apply elem_of_list_to_set. }
    assert (Hseen' : {[nid]} ∪ seen = list_to_set (res ++ [nid])).
    { rewrite list_to_set_app_L, Hseen. set_solver. }
    destruct (IH (res ++ [nid]) ({[nid]} ∪ seen) Hseen' Hnd') as (H1 & H2 & H3).
    split; [done|]. split.
    + intros n Hn. destruct (H2 n Hn) as [Hr|Hr]; [|right; by right].
      apply elem_of_app in Hr as [Hr|Hr]; [by left|].
      apply list_elem_of_singleton in Hr. subst n. right. by left.
    + intros _.
      assert (Hsz : size ({[nid]} ∪ seen) = S (length res)).
      { rewrite Hseen', size_list_to_set by done.
        rewrite length_app. simpl. lia. }
      assert (Hset : {[nid]} ∪ seen ∪ list_to_set ids
                     = seen ∪ list_to_set (C := gset string) (nid :: ids))
        by set_solver.
      destruct (Z_lt_dec (Z.of_nat (length (res ++ [nid]))) count) as [Hl|Hl].
      * rewrite H3 by done. by rewrite Hset.
      * rewrite collect_done by done.
        rewrite length_app in Hl |- *. cbn [length] in Hl |- *.
        assert (size ({[nid]} ∪ seen)
                ≤ size (seen ∪ list_to_set (C := gset string) (nid :: ids)))%nat
          by (apply subseteq_size; set_solver).
        lia.
Qed.

(** [GetNodes] on any non-empty ring: it returns, without duplicates,
    ids that own a ring position, as many as the clamped count allows. *)
Lemma GetNodes_owners key N (r : ConsistentHashRing) :
  ring_ r ≠ [] →
  ∃ nodes,
    GetNodes key N r = Some nodes ∧ NoDup nodes ∧
    (∀ n, n ∈ nodes → n ∈ owners r) ∧
    (0 < Z.min N (Z.of_nat (size (physical_nodes_ r))) →
     Z.of_nat (length nodes)
     = Z.min (Z.min N (Z.of_nat (size (physical_nodes_ r))))
             (Z.of_nat (size (owners r)))).
Proof.
  intros Hne. unfold GetNodes.
  destruct (ring_ r) as [|e0 ring0] eqn:Hring; [done|]. rewrite <- Hring.
  rewrite <- Hring in Hne.
  set (avail := Z.of_nat (size (physical_nodes_ r))).
  set (count := if N >? avail then avail else N).
  assert (Hcount : count = Z.min N avail).
  { unfold count. destruct (Z.gtb_spec N avail); lia. }
  set (it := upper_bound (Murmur.Hash key) (ring_ r)).
  assert (Hit : (it ≤ length (ring_ r))%nat) by apply upper_bound_le.
  assert (Hw : (wrap (ring_ r) it ≤ length (ring_ r))%nat).
  { unfold wrap. destruct (Nat.eqb_spec it (length (ring_ r))); lia. }
  eexists. split; [done|].
  rewrite walk_collect by (done || lia).
  set (ids := (take (length (ring_ r))
                    (drop (wrap (ring_ r) it) (ring_ r ++ ring_ r))).*2).
  assert (Hids : list_to_set (C := gset string) ids = owners r)
    by (by apply full_turn_owners).
  destruct (collect_spec count ids [] ∅ eq_refl (NoDup_nil_2 (A := string)))
    as (H1 & H2 & H3).
  split; [done|]. split.
  - intros n Hn. destruct (H2 n Hn) as [Hn'|Hn']; [by inversion Hn'|].
    rewrite <- Hids. by apply elem_of_list_to_set.
  - intros Hpos. rewrite <- Hcount. rewrite H3 by (simpl; lia).
    by rewrite union_empty_l_L, Hids.
Qed.

(** C9, as stated, fails: with one virtual node each, "node63015" and
    "node104039" hash to the same position, the second takes it over,
    and [GetNodes] finds one node where two are physical. *)
Lemma colliding_vnodes_shorten_GetNodes :
  ¬ (∀ (r : ConsistentHashRing) key N,
       1 <= N → ring_ r ≠ [] →
       ∃ nodes,
         GetNodes key N r = Some nodes ∧ NoDup nodes ∧
         Z.of_nat (length nodes)
         = Z.min N (Z.of_nat (size (physical_nodes_ r)))).
Proof.
  intros H.
  destruct (H ring_collision "k" 2) as (nodes & Hrun & _ & Hlen);
    [lia|vm_compute; discriminate|].
  assert (Hc : GetNodes "k" 2 ring_collision = Some ["node104039"])
    by (vm_compute; reflexivity).
  rewrite Hc in Hrun. injection Hrun as <-.
  assert (Hs : size (physical_nodes_ ring_collision) = 2%nat)
    by (vm_compute; reflexivity).
  rewrite Hs in Hlen. simpl in Hlen. lia.
Qed.

(** C9, amended: for every [N >= 1] and key, on a non-empty ring on
    which every physical node owns at least one position (and every
    position belongs to a physical node), [GetNodes] returns a
    duplicate-free list of physical node ids of length
    [min N (number of physical nodes)]. *)
Theorem GetNodes_distinct_and_clamped key N (r : ConsistentHashRing) :
  1 <= N → ring_ r ≠ [] → owners r = physical_nodes_ r →
  ∃ nodes,
    GetNodes key N r = Some nodes ∧ NoDup nodes ∧
    (∀ n, n ∈ nodes → n ∈ physical_nodes_ r) ∧
    Z.of_nat (length nodes) = Z.min N (Z.of_nat (size (physical_nodes_ r))).
Proof.
  intros HN Hne Hown.
  destruct (GetNodes_owners key N r Hne) as (nodes & Hrun & Hnd & Hin & Hlen).
  exists nodes. split; [done|]. split; [done|]. split.
  - intros n Hn. rewrite <- Hown. by apply Hin.
  - rewrite Hown in Hlen.
    assert (size (physical_nodes_ r) ≠ 0)%nat.
    { rewrite <- Hown. unfold owners. apply size_non_empty_iff.
      destruct (ring_ r) as [|[p n] ring0]; [done|]. set_solver. }
    rewrite Hlen by lia. lia.
Qed.

Lemma GetNodes_distinct_and_clamped_witness :
  ∃ nodes,
    GetNodes "test_key" 5 ring_ABC = Some nodes ∧ NoDup nodes ∧
    (∀ n, n ∈ nodes → n ∈ physical_nodes_ ring_ABC) ∧
    Z.of_nat (length nodes) = 3.
Proof.
  apply (GetNodes_distinct_and_clamped "test_key" 5 ring_ABC).
  - lia.
  - vm_compute. discriminate.
  - vm_compute. reflexivity.
Defined.

End RingFacts.


(** ** Consistent hash ring: rings built through the interface *)

Section RingMoreFacts.
Import Ring Scenario.

Lemma elem_of_map_assign x h n (r : list (Z * string)) :
  x ∈ map_assign h n r → x = (h, n) ∨ x ∈ r.
Proof.
  induction r as [|[p m] r IH]; cbn [map_assign].
  { intros Hx. apply list_elem_of_singleton in Hx. by left. }
  destruct (h <? p).
  { intros Hx. apply elem_of_cons in Hx as [->|Hx]; [by left|by right]. }
  destruct (h =? p).
  { intros Hx. apply elem_of_cons in Hx as [->|Hx]; [by left|].
    right. by right. }
  intros Hx. apply elem_of_cons in Hx as [->|Hx]; [right; by left|].
  destruct (IH Hx); [by left|]. right. by right.
Qed.

Lemma map_assign_ascending h n (r : list (Z * string)) :
  ascending r → ascending (map_assign h n r).
Proof.
  induction r as [|[p m] r IH]; cbn [map_assign ascending].
  { intros _. split; [|done]. intros q m Hq. by apply elem_of_nil in Hq. }
  intros [Hp Hr]. destruct (Z.ltb_spec h p) as [Hlt|Hge].
  { cbn [ascending]. split; [|done]. intros q m' Hq.
    apply elem_of_cons in Hq as [[= -> ->]|Hq]; [done|].
    specialize (Hp q m' Hq). lia. }
  destruct (Z.eqb_spec h p) as [->|Hne].
  { cbn [ascending]. done. }
  cbn [ascending]. split; [|by apply IH].
  intros q m' Hq. destruct (elem_of_map_assign _ _ _ _ Hq) as [[= -> ->]|Hq'].
  - lia.
  - by apply (Hp q m').
Qed.

Lemma elem_of_map_erase q m h (r : list (Z * string)) :
  ascending r → (q, m) ∈ map_erase h r → q ≠ h ∧ (q, m) ∈ r.
Proof.
  induction r as [|[p n] r IH]; cbn [map_erase ascending].
  { intros _ Hq. by apply elem_of_nil in Hq. }
  intros [Hp Hr]. destruct (Z.eqb_spec h p) as [->|Hne].
  { intros Hq. specialize (Hp q m Hq). split; [lia|by right]. }
  intros Hq. apply elem_of_cons in Hq as [[= -> ->]|Hq].
  - split; [done|by left].
  - destruct (IH Hr Hq). split; [done|by right].
Qed.

Lemma map_erase_ascending h (r : list (Z * string)) :
  ascending r → ascending (map_erase h r).
Proof.
  induction r as [|[p n] r IH]; cbn [map_erase ascending]; [done|].
  intros [Hp Hr]. destruct (h =? p); [done|].
  cbn [ascending]. split; [|by apply IH].
  intros q m Hq. destruct (elem_of_map_erase q m h r Hr Hq).
  by apply (Hp q m).
Qed.

Lemma assign_all (f : Z → Z) n (idxs : list Z) : ∀ r : list (Z * string),
  ascending r →
  ascending (fold_left (fun m i => map_assign (f i) n m) idxs r) ∧
  (∀ x, x ∈ fold_left (fun m i => map_assign (f i) n m) idxs r →
        x ∈ r ∨ ∃ i, i ∈ idxs ∧ x = (f i, n)).
Proof.
  induction idxs as [|i idxs IH]; intros r Hr; cbn [fold_left].
  { split; [done|]. intros x Hx. by left. }
  destruct (IH (map_assign (f i) n r)) as [Ha He];
    [by apply map_assign_ascending|].
  split; [done|]. intros x Hx.
  destruct (He x Hx) as [Hx'|(j & Hj & ->)].
  - destruct (elem_of_map_assign _ _ _ _ Hx') as [->|?]; [|by left].
    right. exists i. split; [by left|done].
  - right. exists j. split; [by right|done].
Qed.

Lemma erase_all (f : Z → Z) (idxs : list Z) : ∀ r : list (Z * string),
  ascending r →
  ascending (fold_left (fun m i => map_erase (f i) m) idxs r) ∧
  (∀ q m, (q, m) ∈ fold_left (fun m i => map_erase (f i) m) idxs r →
          (q, m) ∈ r ∧ ∀ i, i ∈ idxs → q ≠ f i).
Proof.
  induction idxs as [|i idxs IH]; intros r Hr; cbn [fold_left].
  { split; [done|]. intros q m Hq. split; [done|].
    intros i Hi. by apply elem_of_nil in Hi. }
  destruct (IH (map_erase (f i) r)) as [Ha He];
    [by apply map_erase_ascending|].
  split; [done|]. intros q m Hq.
  destruct (He q m Hq) as [Hq' Hne].
  destruct (elem_of_map_erase q m (f i) r Hr Hq') as [Hqi Hin].
  split; [done|]. intros j Hj.
  apply elem_of_cons in Hj as [->|Hj]; [done|by apply Hne].
Qed.

(** What every ring built through the interface satisfies. *)
Lemma built_invariant r :
  built r → ascending (ring_ r) ∧ positions_owned r.
Proof.
  induction 1 as [V|nid r Hb [Ha Ho]|nid r Hb [Ha Ho]].
  - split; [done|]. intros p n Hp. by apply elem_of_nil in Hp.
  - unfold AddNode.
    destruct (decide (nid ∈ physical_nodes_ r)) as [Hin|Hnin]; [done|].
    cbn [ring_ physical_nodes_ virtual_nodes_].
    destruct (assign_all (fun i => Murmur.Hash (VnodeKey nid i)) nid
                (seqZ 0 (virtual_nodes_ r)) (ring_ r) Ha) as [Ha' He].
    split; [done|]. unfold positions_owned.
    cbn [ring_ physical_nodes_ virtual_nodes_]. intros p n Hp.
    destruct (He _ Hp) as [Hold|(i & Hi & [= -> ->])].
    + destruct (Ho p n Hold) as [Hn Hi]. split; [set_solver|done].
    + split; [set_solver|]. exists i. split; [|done].
      apply elem_of_seqZ in Hi. lia.
  - unfold RemoveNode.
    destruct (decide (nid ∈ physical_nodes_ r)) as [Hin|Hnin]; [|done].
    cbn [ring_ physical_nodes_ virtual_nodes_].
    destruct (erase_all (fun i => Murmur.Hash (VnodeKey nid i))
                (seqZ 0 (virtual_nodes_ r)) (ring_ r) Ha) as [Ha' He].
    split; [done|]. unfold positions_owned.
    cbn [ring_ physical_nodes_ virtual_nodes_]. intros p n Hp.
    destruct (He _ _ Hp) as [Hold Hne].
    destruct (Ho p n Hold) as [Hn (i & Hi & Hpi)].
    split; [|by exists i].
    apply elem_of_difference. split; [done|].
    intros Hs. apply elem_of_singleton in Hs. subst n.
    apply (Hne i); [|done]. apply elem_of_seqZ. lia.
Qed.

Lemma GetPrimaryNode_elem key r n :
  GetPrimaryNode key r = Some n → ∃ p, (p, n) ∈ ring_ r.
Proof.
  unfold GetPrimaryNode. destruct (ring_ r) as [|[p0 n0] ring0] eqn:Hr; [done|].
  destruct (((p0, n0) :: ring0) !! _) as [[p m]|] eqn:Hl.
  - intros [= <-]. exists p. by apply list_elem_of_lookup_2 in Hl.
  - intros [= <-]. exists p0. by left.
Qed.

(** X11: on a ring built by [AddNode] and [RemoveNode] from an empty
    one, routing only ever names current physical nodes, also after
    removals and whatever virtual nodes collide; and once no physical
    node is left both lookups throw. *)
Theorem built_ring_routes_to_members r key N :
  built r →
  (∀ n, GetPrimaryNode key r = Some n → n ∈ physical_nodes_ r) ∧
  (∀ nodes n, GetNodes key N r = Some nodes → n ∈ nodes →
              n ∈ physical_nodes_ r) ∧
  (physical_nodes_ r = ∅ →
   GetPrimaryNode key r = None ∧ GetNodes key N r = None).
Proof.
  intros Hb. destruct (built_invariant r Hb) as [Ha Ho]. split; [|split].
  - intros n Hn. destruct (GetPrimaryNode_elem key r n Hn) as [p Hp].
    by destruct (Ho p n Hp).
  - intros nodes n Hrun Hn.
    destruct (ring_ r) as [|e0 ring0] eqn:Hr.
    { unfold GetNodes in Hrun. by rewrite Hr in Hrun. }
    destruct (GetNodes_owners key N r) as (nodes' & Hrun' & _ & Hin & _).
    { by rewrite Hr. }
    rewrite Hrun in Hrun'. injection Hrun' as <-.
    specialize (Hin n Hn). unfold owners in Hin.
    apply elem_of_list_to_set, list_elem_of_fmap in Hin
      as ([p m] & -> & Hpm).
    by destruct (Ho p m Hpm).
  - intros Hempty.
    assert (Hr : ring_ r = []).
    { destruct (ring_ r) as [|[p n] ring0] eqn:Hr; [done|].
      destruct (Ho p n) as [Hn _]; [rewrite Hr; by left|].
      rewrite Hempty in Hn. by apply not_elem_of_empty in Hn. }
    unfold GetPrimaryNode, GetNodes. by rewrite Hr.
Qed.

Lemma built_ring_routes_to_members_witness :
  let r := RemoveNode "node1" (AddNode "node2" (AddNode "node1" (create 150)))
  in
  (∀ n, GetPrimaryNode "any_key" r = Some n → n ∈ physical_nodes_ r) ∧
  (∀ nodes n, GetNodes "any_key" 3 r = Some nodes → n ∈ nodes →
              n ∈ physical_nodes_ r) ∧
  (physical_nodes_ r = ∅ →
   GetPrimaryNode "any_key" r = None ∧ GetNodes "any_key" 3 r = None).
Proof.
  intros r. apply (built_ring_routes_to_members r "any_key" 3).
  apply built_remove, built_add, built_add, built_create.
Defined.

Lemma upper_bound_spec h (r : list (Z * string)) :
  (∀ i p m, (i < upper_bound h r)%nat → r !! i = Some (p, m) → p <= h) ∧
  (∀ p m, r !! upper_bound h r = Some (p, m) → h < p).
Proof.
  induction r as [|[p0 m0] r [IH1 IH2]]; cbn [upper_bound].
  { split; [intros; lia|]. intros p m Hl. done. }
  destruct (Z.leb_spec p0 h) as [Hle|Hgt].
  - split.
    + intros [|i] p m Hi Hl; [by injection Hl as -> ->|].
      apply (IH1 i p m); [lia|done].
    + intros p m Hl. by apply (IH2 p m).
  - split; [intros; lia|]. intros p m [= <- <-]. done.
Qed.

Lemma ascending_lookup (r : list (Z * string)) : ∀ i j p m q n,
  ascending r → (i < j)%nat →
  r !! i = Some (p, m) → r !! j = Some (q, n) → p < q.
Proof.
  induction r as [|[p0 m0] r IH]; intros i j p m q n Ha Hij Hi Hj; [done|].
  destruct Ha as [Hp Hr]. destruct j as [|j]; [lia|].
  change (r !! j = Some (q, n)) in Hj.
  destruct i as [|i].
  - injection Hi as -> ->. apply (Hp q n).
    by apply list_elem_of_lookup_2 in Hj.
  - change (r !! i = Some (p, m)) in Hi.
    apply (IH i j p m q n); (done || lia).
Qed.

(** X12: on a built, non-empty ring [GetPrimaryNode] returns the owner
    of the least position strictly greater than the key's hash, and
    wraps to the owner of the least position of all when no position
    is greater. *)
Theorem GetPrimaryNode_successor r key :
  built r → ring_ r ≠ [] →
  ∃ p n,
    GetPrimaryNode key r = Some n ∧ (p, n) ∈ ring_ r ∧
    ((Murmur.Hash key < p ∧
      ∀ q m, (q, m) ∈ ring_ r → Murmur.Hash key < q → p <= q) ∨
     ((∀ q m, (q, m) ∈ ring_ r → q <= Murmur.Hash key) ∧
      ∀ q m, (q, m) ∈ ring_ r → p <= q)).
Proof.
  intros Hb Hne. destruct (built_invariant r Hb) as [Ha _].
  unfold GetPrimaryNode.
  destruct (ring_ r) as [|[p0 n0] ring0] eqn:Hr; [done|]. rewrite <- Hr in *.
  destruct (upper_bound_spec (Murmur.Hash key) (ring_ r)) as [Hlow Hhigh].
  set (it := upper_bound (Murmur.Hash key) (ring_ r)) in *.
  destruct (ring_ r !! it) as [[p n]|] eqn:Hl.
  - exists p, n. split; [done|]. split; [by apply list_elem_of_lookup_2 in Hl|].
    left. split; [by apply (Hhigh p n)|].
    intros q m Hq Hgt. apply list_elem_of_lookup_1 in Hq as [j Hj].
    destruct (Nat.lt_trichotomy j it) as [Hlt|[->|Hgt']].
    + specialize (Hlow j q m Hlt Hj). lia.
    + rewrite Hl in Hj. injection Hj as -> ->. lia.
    + pose proof (ascending_lookup _ it j p n q m Ha Hgt' Hl Hj). lia.
  - exists p0, n0. split; [done|]. split; [rewrite Hr; by left|].
    apply lookup_ge_None in Hl. right. split.
    + intros q m Hq. apply list_elem_of_lookup_1 in Hq as [j Hj].
      apply (Hlow j q m); [|done].
      apply lookup_lt_Some in Hj. lia.
    + intros q m Hq. apply list_elem_of_lookup_1 in Hq as [j Hj].
      destruct j as [|j].
      * rewrite Hr in Hj. injection Hj as -> ->. lia.
      * assert (H0 : ring_ r !! O = Some (p0, n0)) by (by rewrite Hr).
        pose proof (ascending_lookup _ O (S j) p0 n0 q m Ha
                                     ltac:(lia) H0 Hj). lia.
Qed.

Lemma GetPrimaryNode_successor_witness :
  ∃ p n,
    GetPrimaryNode "any_key" ring_A = Some n ∧ (p, n) ∈ ring_ ring_A ∧
    ((Murmur.Hash "any_key" < p ∧
      ∀ q m, (q, m) ∈ ring_ ring_A → Murmur.Hash "any_key" < q → p <= q) ∨
     ((∀ q m, (q, m) ∈ ring_ ring_A → q <= Murmur.Hash "any_key") ∧
      ∀ q m, (q, m) ∈ ring_ ring_A → p <= q)).
Proof.
  apply (GetPrimaryNode_successor ring_A "any_key").
  - apply built_add, built_create.
  - vm_compute. discriminate.
Defined.

Lemma walk_extends (ring : list (Z * string)) count fuel :
  ∀ it (res : list string) seen,
  ∃ ext, walk ring count fuel it res seen = res ++ ext.
Proof.
  induction fuel as [|fuel IH]; intros it res seen; cbn [walk].
  { exists []. by rewrite app_nil_r. }
  destruct (Z.of_nat (length res) <? count);
    [|exists []; by rewrite app_nil_r].
  destruct (ring !! _) as [[p nid]|]; [|exists []; by rewrite app_nil_r].
  destruct (decide (nid ∈ seen)); [apply IH|].
  destruct (IH (S (if (it =? length ring)%nat then O else it))
               (res ++ [nid]) ({[nid]} ∪ seen)) as [ext Hext].
  exists (nid :: ext). rewrite Hext. by rewrite <- app_assoc.
Qed.

(** X13: with at least one physical node and a non-empty ring, the
    preference list of [GetNodes] for any [N >= 1] starts with the node
    [GetPrimaryNode] returns. *)
Theorem GetNodes_starts_with_primary r key N :
  1 <= N → ring_ r ≠ [] → physical_nodes_ r ≠ ∅ →
  ∃ n rest,
    GetNodes key N r = Some (n :: rest) ∧ GetPrimaryNode key r = Some n.
Proof.
  intros HN Hne Hphys. unfold GetNodes, GetPrimaryNode.
  destruct (ring_ r) as [|[p0 n0] ring0] eqn:Hr; [done|]. rewrite <- Hr in *.
  set (avail := Z.of_nat (size (physical_nodes_ r))).
  assert (Havail : 1 <= avail).
  { assert (size (physical_nodes_ r) ≠ 0)%nat.
    { apply size_non_empty_iff. intros He. apply Hphys.
      by apply leibniz_equiv. }
    unfold avail. lia. }
  set (count := if N >? avail then avail else N).
  assert (Hcount : 1 <= count).
  { unfold count. destruct (N >? avail); lia. }
  set (it := upper_bound (Murmur.Hash key) (ring_ r)).
  assert (Hit : (it ≤ length (ring_ r))%nat) by apply upper_bound_le.
  assert (Hlen : length (ring_ r) = S (length ring0)) by (by rewrite Hr).
  rewrite Hlen. cbn [walk length].
  destruct (Z.ltb_spec (Z.of_nat 0) count) as [_|]; [|lia].
  destruct (Nat.eqb_spec it (length (ring_ r))) as [Heq|Hneq].
  - assert (Hl : ring_ r !! it = None) by (apply lookup_ge_None; lia).
    rewrite Hl. assert (H0 : ring_ r !! O = Some (p0, n0)) by (by rewrite Hr).
    rewrite H0. rewrite decide_False by apply not_elem_of_empty.
    destruct (walk_extends (ring_ r) count (length ring0) 1 ([] ++ [n0])
                           ({[n0]} ∪ ∅)) as [ext Hext].
    exists n0, ext. by rewrite Hext.
  - destruct (lookup_lt_is_Some_2 (ring_ r) it) as [[p n] Hl]; [lia|].
    rewrite Hl. rewrite decide_False by apply not_elem_of_empty.
    destruct (walk_extends (ring_ r) count (length ring0) (S it) ([] ++ [n])
                           ({[n]} ∪ ∅)) as [ext Hext].
    exists n, ext. by rewrite Hext.
Qed.

Lemma GetNodes_starts_with_primary_witness :
  ∃ n rest,
    GetNodes "key_7" 3 ring_ABC = Some (n :: rest) ∧
    GetPrimaryNode "key_7" ring_ABC = Some n.
Proof.
  apply (GetNodes_starts_with_primary ring_ABC "key_7" 3).
  - lia.
  - vm_compute. discriminate.
  - intros Heq. apply (f_equal size) in Heq. vm_compute in Heq.
    discriminate.
Defined.

End RingMoreFacts.


(** ** Wire buffer: fields are read back as written *)

Section BufferFacts.
Import Bytes Buffer.

Lemma take_bytes_at (pre bs post : list Z) n :
  n = length bs →
  take_bytes n (mkBuf (pre ++ bs ++ post) (length pre))
  = Some (bs, mkBuf (pre ++ bs ++ post) (length pre + n)).
Proof.
  intros ->. unfold take_bytes, EnsureReadable. cbn [data_ read_pos_].
  rewrite !length_app, (leb_correct (length pre + length bs)) by lia.
  by rewrite drop_app_length, take_app_length.
Qed.

Lemma ReadUint8_at pre v post :
  ReadUint8 (mkBuf (pre ++ [v] ++ post) (length pre))
  = Some (v, mkBuf (pre ++ [v] ++ post) (length pre + 1)).
Proof. unfold ReadUint8. by rewrite (take_bytes_at pre [v]). Qed.

Lemma ReadBool_at pre (v : bool) post :
  ReadBool (mkBuf (pre ++ [if v then 1 else 0] ++ post) (length pre))
  = Some (v, mkBuf (pre ++ [if v then 1 else 0] ++ post) (length pre + 1)).
Proof. unfold ReadBool. rewrite ReadUint8_at. by destruct v. Qed.

Lemma be16_value v :
  0 <= v < 2 ^ 16 →
  Z.lor (Z.shiftl (Z.land (Z.shiftr v 8) 255) 8) (Z.land v 255) = v.
Proof.
  intros Hv. change (2 ^ 16) with 65536 in Hv.
  rewrite !land_255, Z.shiftr_div_pow2, Z.shiftl_mul_pow2 by lia.
  change (2 ^ 8) with 256.
  rewrite (lor_low_bits _ _ 8);
    [|lia|apply Z.mod_divide; [lia|]; eexists; change (2 ^ 8) with 256;
          reflexivity|change (2 ^ 8) with 256; apply Z.mod_pos_bound; lia].
  Z.div_mod_to_equations. lia.
Qed.

Lemma ReadUint16_at pre v post :
  0 <= v < 2 ^ 16 →
  ReadUint16 (mkBuf (pre ++ [Z.land (Z.shiftr v 8) 255; Z.land v 255] ++ post)
                    (length pre))
  = Some (v, mkBuf (pre ++ [Z.land (Z.shiftr v 8) 255; Z.land v 255] ++ post)
                   (length pre + 2)).
Proof.
  intros Hv. unfold ReadUint16.
  rewrite (take_bytes_at pre [_; _]) by done. by rewrite be16_value.
Qed.

Lemma ReadUint32_at pre v post :
  0 <= v < 2 ^ 32 →
  ReadUint32 (mkBuf (pre ++ be32 v ++ post) (length pre))
  = Some (v, mkBuf (pre ++ be32 v ++ post) (length pre + 4)).
Proof.
  intros Hv. unfold ReadUint32. rewrite (take_bytes_at pre (be32 v)) by done.
  destruct (be32 v) as [|b0 [|b1 [|b2 [|b3 [|? ?]]]]] eqn:Hb; try done.
  by rewrite (dec32_be32 v b0 b1 b2 b3).
Qed.

Lemma ReadUint64_at pre v post :
  0 <= v < 2 ^ 64 →
  ReadUint64 (mkBuf (pre ++ be64 v ++ post) (length pre))
  = Some (v, mkBuf (pre ++ be64 v ++ post) (length pre + 8)).
Proof.
  intros Hv. unfold ReadUint64. rewrite (take_bytes_at pre (be64 v)) by done.
  by rewrite dec64_be64.
Qed.

(** The bytes [WriteString] appends. *)
Lemma ReadString_at pre s post :
  Z.of_nat (String.length s) < 2 ^ 32 →
  ReadString
    (mkBuf (pre ++ (be32 (Z.of_nat (String.length s) mod 2 ^ 32)
                      ++ bytes_of_string s) ++ post) (length pre))
  = Some (s, mkBuf (pre ++ (be32 (Z.of_nat (String.length s) mod 2 ^ 32)
                              ++ bytes_of_string s) ++ post)
                   (length pre + (4 + String.length s))).
Proof.
  intros Hs. unfold ReadString. rewrite Z.mod_small by lia.
  set (len := be32 (Z.of_nat (String.length s))).
  rewrite <- (app_assoc len). unfold len.
  rewrite ReadUint32_at by lia. fold len. rewrite Nat2Z.id.
  replace (length pre + 4)%nat with (length (pre ++ len)) at 1
    by (rewrite length_app; done).
  replace (pre ++ len ++ bytes_of_string s ++ post)
    with ((pre ++ len) ++ bytes_of_string s ++ post)
    by (by rewrite <- app_assoc).
  rewrite take_bytes_at by (by rewrite length_bytes_of_string).
  rewrite string_of_bytes_of_string, length_app. do 3 f_equal.
  unfold len. rewrite length_be32. lia.
Qed.

(** X14: on a buffer whose contents have all been read, each reader
    returns what the matching writer has just written, for values in
    the range of the field, and leaves the buffer read to its end. *)
Theorem read_after_write (b : ByteBuffer) :
  read_pos_ b = length (data_ b) →
  (∀ v, ReadUint8 (WriteUint8 v b)
        = Some (v, mkBuf (data_ (WriteUint8 v b))
                         (length (data_ (WriteUint8 v b))))) ∧
  (∀ v, 0 <= v < 2 ^ 16 →
        ReadUint16 (WriteUint16 v b)
        = Some (v, mkBuf (data_ (WriteUint16 v b))
                         (length (data_ (WriteUint16 v b))))) ∧
  (∀ v, 0 <= v < 2 ^ 32 →
        ReadUint32 (WriteUint32 v b)
        = Some (v, mkBuf (data_ (WriteUint32 v b))
                         (length (data_ (WriteUint32 v b))))) ∧
  (∀ v, 0 <= v < 2 ^ 64 →
        ReadUint64 (WriteUint64 v b)
        = Some (v, mkBuf (data_ (WriteUint64 v b))
                         (length (data_ (WriteUint64 v b))))) ∧
  (∀ s, Z.of_nat (String.length s) < 2 ^ 32 →
        ReadString (WriteString s b)
        = Some (s, mkBuf (data_ (WriteString s b))
                         (length (data_ (WriteString s b))))) ∧
  (∀ v, ReadBool (WriteBool v b)
        = Some (v, mkBuf (data_ (WriteBool v b))
                         (length (data_ (WriteBool v b))))).
Proof.
  destruct b as [data pos]. cbn [read_pos_ data_]. intros ->.
  repeat split.
  - intros v. unfold WriteUint8. cbn [data_ read_pos_].
    rewrite <- (app_nil_r [v]), ReadUint8_at, app_nil_r.
    by rewrite length_app.
  - intros v Hv. unfold WriteUint16. cbn [data_ read_pos_].
    rewrite <- (app_nil_r [_; _]), ReadUint16_at, app_nil_r by done.
    by rewrite length_app.
  - intros v Hv. unfold WriteUint32. cbn [data_ read_pos_].
    rewrite <- (app_nil_r (be32 v)), ReadUint32_at, app_nil_r by done.
    by rewrite length_app.
  - intros v Hv. unfold WriteUint64. cbn [data_ read_pos_].
    rewrite <- (app_nil_r (be64 v)), ReadUint64_at, app_nil_r by done.
    by rewrite length_app.
  - intros s Hs. unfold WriteString, WriteUint32. cbn [data_ read_pos_].
    rewrite <- app_assoc.
    rewrite <- (app_nil_r (be32 _ ++ bytes_of_string s)).
    rewrite ReadString_at, app_nil_r by done.
    rewrite !length_app, length_be32, length_bytes_of_string. done.
  - intros v. unfold WriteBool, WriteUint8. cbn [data_ read_pos_].
    rewrite <- (app_nil_r [_]), ReadBool_at, app_nil_r.
    by rewrite length_app.
Qed.

Lemma read_after_write_witness :
  ReadUint16 (WriteUint16 7001 empty)
    = Some (7001, mkBuf (data_ (WriteUint16 7001 empty))
                        (length (data_ (WriteUint16 7001 empty)))) ∧
  ReadString (WriteString "10.0.0.2" empty)
    = Some ("10.0.0.2",
            mkBuf (data_ (WriteString "10.0.0.2" empty))
                  (length (data_ (WriteString "10.0.0.2" empty)))).
Proof.
  destruct (read_after_write empty eq_refl) as (_ & H16 & _ & _ & Hs & _).
  split; [apply H16|apply Hs]; vm_compute; intuition discriminate.
Defined.

(** X15: a reader never reads past the end: on a buffer with fewer
    unread bytes than the field needs every reader throws, and
    [ReadString] also throws when the length it has read exceeds the
    bytes that follow. *)
Theorem read_past_end_throws (b : ByteBuffer) :
  ((length (data_ b) < read_pos_ b + 1)%nat →
   ReadUint8 b = None ∧ ReadBool b = None) ∧
  ((length (data_ b) < read_pos_ b + 2)%nat → ReadUint16 b = None) ∧
  ((length (data_ b) < read_pos_ b + 4)%nat →
   ReadUint32 b = None ∧ ReadString b = None) ∧
  ((length (data_ b) < read_pos_ b + 8)%nat → ReadUint64 b = None) ∧
  (∀ len b1, ReadUint32 b = Some (len, b1) →
     (length (data_ b1) < read_pos_ b1 + Z.to_nat len)%nat →
     ReadString b = None).
Proof.
  assert (Htake : ∀ n, (length (data_ b) < read_pos_ b + n)%nat →
                       take_bytes n b = None).
  { intros n Hn. unfold take_bytes, EnsureReadable.
    by rewrite leb_correct_conv by lia. }
  split; [|split; [|split; [|split]]].
  - intros Hlt. unfold ReadBool, ReadUint8. by rewrite Htake.
  - intros Hlt. unfold ReadUint16. by rewrite Htake.
  - intros Hlt. unfold ReadString, ReadUint32. by rewrite Htake.
  - intros Hlt. unfold ReadUint64. by rewrite Htake.
  - intros len b1 Hlen Hshort. unfold ReadString. rewrite Hlen.
    unfold take_bytes, EnsureReadable.
    by rewrite leb_correct_conv by lia.
Qed.

Lemma read_past_end_throws_witness :
  ReadString (mkBuf [0; 0; 0; 9; 107] 0) = None.
Proof.
  refine (proj2 (proj2 (proj2 (proj2
            (read_past_end_throws (mkBuf [0; 0; 0; 9; 107] 0)))))
            9 (mkBuf [0; 0; 0; 9; 107] 4) _ _).
  - vm_compute. reflexivity.
  - vm_compute. lia.
Defined.

End BufferFacts.


(** ** Membership manager: gossip codec, merge rules, failure detection *)

Section MembershipMoreFacts.
Import Bytes Buffer Membership Scenario.

Lemma ReadString_in data pos pre s post :
  data = pre ++ string_field s ++ post → pos = length pre →
  Z.of_nat (String.length s) < 2 ^ 32 →
  ReadString (mkBuf data pos)
  = Some (s, mkBuf data (length (pre ++ string_field s))).
Proof.
  intros -> -> Hs. unfold string_field. rewrite ReadString_at by done.
  do 3 f_equal. rewrite !length_app, length_be32, length_bytes_of_string.
  lia.
Qed.

Lemma ReadUint16_in data pos pre v post :
  data = pre ++ [Z.land (Z.shiftr v 8) 255; Z.land v 255] ++ post →
  pos = length pre → 0 <= v < 2 ^ 16 →
  ReadUint16 (mkBuf data pos)
  = Some (v, mkBuf data
               (length (pre ++ [Z.land (Z.shiftr v 8) 255; Z.land v 255]))).
Proof.
  intros -> -> Hv. rewrite ReadUint16_at by done.
  do 3 f_equal. by rewrite length_app.
Qed.

Lemma ReadUint64_in data pos pre v post :
  data = pre ++ be64 v ++ post → pos = length pre → 0 <= v < 2 ^ 64 →
  ReadUint64 (mkBuf data pos)
  = Some (v, mkBuf data (length (pre ++ be64 v))).
Proof.
  intros -> -> Hv. rewrite ReadUint64_at by done.
  do 3 f_equal. by rewrite length_app.
Qed.

Lemma ReadBool_in data pos pre (v : bool) post :
  data = pre ++ [if v then 1 else 0] ++ post → pos = length pre →
  ReadBool (mkBuf data pos)
  = Some (v, mkBuf data (length (pre ++ [if v then 1 else 0]))).
Proof.
  intros -> ->. rewrite ReadBool_at. do 3 f_equal. by rewrite length_app.
Qed.

(** Reading one member back from the bytes written for it. *)
Lemma read_entry_at pre info post :
  entry_fits info →
  read_entry (mkBuf (pre ++ entry_bytes info ++ post) (length pre))
  = Some (info, mkBuf (pre ++ entry_bytes info ++ post)
                      (length (pre ++ entry_bytes info))).
Proof.
  intros (Hid & Hhost & Hport & Hhb). destruct info as [nid h p alive hb].
  cbn [node_id host port is_alive last_heartbeat] in *.
  unfold read_entry, entry_bytes.
  cbn [node_id host port is_alive last_heartbeat].
  set (data := pre ++ _ ++ post).
  set (Fp := [Z.land (Z.shiftr p 8) 255; Z.land p 255]).
  set (Fa := [if alive then 1 else 0]).
  rewrite (ReadString_in data _ pre nid
             (string_field h ++ Fp ++ be64 hb ++ Fa ++ post));
    [|unfold data; by rewrite <- !app_assoc|done|done].
  rewrite (ReadString_in data _ (pre ++ string_field nid) h
             (Fp ++ be64 hb ++ Fa ++ post));
    [|unfold data; by rewrite <- !app_assoc|done|done].
  rewrite (ReadUint16_in data _ ((pre ++ string_field nid) ++ string_field h)
             p (be64 hb ++ Fa ++ post));
    [|unfold data, Fp; by rewrite <- !app_assoc|done|done].
  fold Fp.
  rewrite (ReadUint64_in data _
             (((pre ++ string_field nid) ++ string_field h) ++ Fp)
             hb (Fa ++ post));
    [|unfold data; by rewrite <- !app_assoc|done|done].
  rewrite (ReadBool_in data _
             ((((pre ++ string_field nid) ++ string_field h) ++ Fp)
                ++ be64 hb) alive post);
    [|unfold data, Fa; by rewrite <- !app_assoc|done].
  fold Fa. by rewrite <- !app_assoc.
Qed.

Lemma gossip_loop_decodes entries : ∀ pre post m joined,
  Forall entry_fits entries →
  gossip_loop (length entries)
    (mkBuf (pre ++ flat_map entry_bytes entries ++ post) (length pre))
    m joined
  = (fold_left merge_entry entries (m, joined), true).
Proof.
  induction entries as [|info entries IH]; intros pre post m joined Hfits;
    [done|].
  inversion Hfits as [|? ? Hi Hrest]; subst.
  cbn [length gossip_loop flat_map fold_left]. rewrite <- app_assoc.
  rewrite read_entry_at by done.
  replace (pre ++ entry_bytes info ++ flat_map entry_bytes entries ++ post)
    with ((pre ++ entry_bytes info) ++ flat_map entry_bytes entries ++ post)
    by (by rewrite <- app_assoc).
  unfold merge_entry at 2.
  destruct (decide (node_id info = node_id (self_ m))); [by apply IH|].
  destruct (AddMember info m) as [m' is_new]. by apply IH.
Qed.

Lemma write_entry_data buf info :
  write_entry buf info
  = mkBuf (data_ buf ++ entry_bytes info) (read_pos_ buf).
Proof.
  unfold write_entry, WriteBool, WriteUint8, WriteUint64, WriteUint16,
    WriteString, WriteUint32, entry_bytes, string_field.
  cbn [data_ read_pos_]. by rewrite <- !app_assoc.
Qed.

Lemma write_entries_data entries : ∀ buf,
  fold_left write_entry entries buf
  = mkBuf (data_ buf ++ flat_map entry_bytes entries) (read_pos_ buf).
Proof.
  induction entries as [|info entries IH]; intros buf; cbn [fold_left flat_map].
  { rewrite app_nil_r. by destruct buf. }
  rewrite IH, write_entry_data. cbn [data_ read_pos_].
  by rewrite <- app_assoc.
Qed.

(** X16: a gossip message is decoded as it was encoded: handing the
    message built by [CreateGossipMessage] to [HandleGossipMessage]
    merges exactly the sender's members, in the order written, and the
    loop runs to its end. *)
Theorem gossip_message_round_trip sender receiver :
  Forall entry_fits (GetAllMembers sender) →
  Z.of_nat (size (members_ sender)) < 2 ^ 32 →
  HandleGossipMessage (received_payload (CreateGossipMessage sender)) receiver
  = (fold_left merge_entry (GetAllMembers sender) (receiver, []), true).
Proof.
  intros Hfits Hsize. unfold CreateGossipMessage, received_payload.
  rewrite write_entries_data. cbn [data_ read_pos_ WriteUint32 WriteUint8 empty].
  unfold HandleGossipMessage. rewrite Z.mod_small by lia.
  cbn [app].
  change (mkBuf (OpType.GOSSIP :: ?a ++ ?b) 1)
    with (mkBuf ([OpType.GOSSIP] ++ a ++ b) (length [OpType.GOSSIP])).
  rewrite (ReadUint32_at [OpType.GOSSIP]) by lia.
  rewrite Nat2Z.id.
  assert (Hlen : size (members_ sender) = length (GetAllMembers sender)).
  { unfold GetAllMembers. by rewrite length_fmap, length_map_to_list. }
  rewrite Hlen.
  rewrite <- (app_nil_r (flat_map entry_bytes (GetAllMembers sender))).
  replace ([OpType.GOSSIP] ++
           be32 (Z.of_nat (length (GetAllMembers sender))) ++
           flat_map entry_bytes (GetAllMembers sender) ++ [])
    with (([OpType.GOSSIP] ++ be32 (Z.of_nat (length (GetAllMembers sender))))
            ++ flat_map entry_bytes (GetAllMembers sender) ++ [])
    by (by rewrite <- app_assoc).
  by apply (gossip_loop_decodes (GetAllMembers sender)).
Qed.

Lemma gossip_message_round_trip_witness :
  HandleGossipMessage (received_payload (CreateGossipMessage view_AB)) view_A
  = (fold_left merge_entry (GetAllMembers view_AB) (view_A, []), true).
Proof.
  apply (gossip_message_round_trip view_AB view_A).
  - assert (Hall : GetAllMembers view_AB
                   = [mkNodeInfo "A" "0.0.0.0" 7000 true 1000;
                      mkNodeInfo "B" "10.0.0.2" 7001 true 5000])
      by (vm_compute; reflexivity).
    rewrite Hall.
    repeat constructor; vm_compute; intuition discriminate.
  - vm_compute. reflexivity.
Defined.

Lemma AddMember_grows node m nid known :
  members_ m !! nid = Some known →
  ∃ upd,
    members_ (AddMember node m).1 !! nid = Some upd ∧
    last_heartbeat known <= last_heartbeat upd ∧
    (is_alive known = true → is_alive upd = true).
Proof.
  intros Hk. destruct (decide (nid = node_id node)) as [->|Hne].
  2:{ rewrite AddMember_other by done. exists known. split; [done|].
      split; [lia|done]. }
  unfold AddMember. rewrite Hk.
  destruct (Z.gtb_spec (last_heartbeat node) (last_heartbeat known)).
  - destruct (negb (is_alive known) && is_alive node) eqn:Hr; simpl;
      rewrite lookup_insert_eq; eexists; (split; [done|]); simpl;
      (split; [lia|done]).
  - simpl. exists known. split; [done|]. split; [lia|done].
Qed.

Lemma gossip_loop_grows count : ∀ msg m joined,
  self_ (gossip_loop count msg m joined).1.1 = self_ m ∧
  members_ (gossip_loop count msg m joined).1.1 !! node_id (self_ m)
  = members_ m !! node_id (self_ m) ∧
  (∀ nid known,
     members_ m !! nid = Some known →
     ∃ upd,
       members_ (gossip_loop count msg m joined).1.1 !! nid = Some upd ∧
       last_heartbeat known <= last_heartbeat upd ∧
       (is_alive known = true → is_alive upd = true)).
Proof.
  induction count as [|count IH]; intros msg m joined; cbn [gossip_loop].
  { split; [done|]. split; [done|]. intros nid known Hk. exists known.
    split; [done|]. split; [lia|done]. }
  destruct (read_entry msg) as [[info msg']|].
  2:{ split; [done|]. split; [done|]. intros nid known Hk. exists known.
      split; [done|]. split; [lia|done]. }
  destruct (decide (node_id info = node_id (self_ m))) as [Heq|Hne];
    [apply IH|].
  pose proof (AddMember_self info m) as Hself.
  pose proof (AddMember_other info m (node_id (self_ m))) as Hother.
  pose proof (AddMember_grows info m) as Hgrow.
  destruct (AddMember info m) as [m' is_new]. cbn [fst] in *.
  destruct (IH msg' m' (if is_new then joined ++ [info] else joined))
    as (H1 & H2 & H3).
  split; [congruence|]. split.
  - rewrite <- Hself, H2, Hself. apply Hother. congruence.
  - intros nid known Hk. destruct (Hgrow nid known Hk) as (u & Hu & Hle & Ha).
    destruct (H3 nid u Hu) as (u' & Hu' & Hle' & Ha').
    exists u'. split; [done|]. split; [lia|]. intros. by apply Ha', Ha.
Qed.

(** X17: merging a gossip payload only adds knowledge: the node's own
    entry is left alone, no member is dropped, no heartbeat goes back,
    and no live member is marked dead, whatever the payload. *)
Theorem gossip_only_adds_knowledge msg m :
  self_ (HandleGossipMessage msg m).1.1 = self_ m ∧
  members_ (HandleGossipMessage msg m).1.1 !! node_id (self_ m)
  = members_ m !! node_id (self_ m) ∧
  (∀ nid known,
     members_ m !! nid = Some known →
     ∃ upd,
       members_ (HandleGossipMessage msg m).1.1 !! nid = Some upd ∧
       last_heartbeat known <= last_heartbeat upd ∧
       (is_alive known = true → is_alive upd = true)).
Proof.
  unfold HandleGossipMessage.
  destruct (ReadUint32 msg) as [[count msg']|]; [apply gossip_loop_grows|].
  split; [done|]. split; [done|]. intros nid known Hk. exists known.
  split; [done|]. split; [lia|done].
Qed.

(** X18: [on_join_] fires for an id not seen before, whatever the entry
    says about liveness, and for a member held dead when the entry says
    alive with a strictly newer heartbeat; in no other case. *)
Theorem AddMember_join_rule node m :
  (AddMember node m).2 = true ↔
  members_ m !! node_id node = None ∨
  ∃ known,
    members_ m !! node_id node = Some known ∧
    is_alive known = false ∧ is_alive node = true ∧
    last_heartbeat known < last_heartbeat node.
Proof.
  unfold AddMember. destruct (members_ m !! node_id node) as [known|].
  2:{ split; [by left|done]. }
  destruct (Z.gtb_spec (last_heartbeat node) (last_heartbeat known)) as [Hgt|Hle].
  - destruct (is_alive known) eqn:Ha, (is_alive node) eqn:Hn; simpl;
      (split;
       [ intros Hj; try discriminate Hj; right; exists known;
         repeat split; (done || lia)
       | intros [Hj|(k & Hk & Hf & Ht & Hlt)];
         [ discriminate Hj
         | injection Hk as <-; first [reflexivity | congruence] ] ]).
  - simpl. split; [done|].
    intros [Hj|(k & Hk & Hf & Ht & Hlt)]; [done|].
    injection Hk as <-. lia.
Qed.

Lemma RemoveMember_lookup d m nid :
  self_ (RemoveMember d m).1 = self_ m ∧
  members_ (RemoveMember d m).1 !! nid
  = if decide (nid = d ∧ d ≠ node_id (self_ m))
    then (fun k => mkNodeInfo (node_id k) (host k) (port k) false
                              (last_heartbeat k)) <$> members_ m !! nid
    else members_ m !! nid.
Proof.
  unfold RemoveMember.
  destruct (decide (d = node_id (self_ m))) as [->|Hne].
  { split; [done|]. rewrite decide_False; [done|]. by intros [_ ?]. }
  destruct (members_ m !! d) as [known|] eqn:Hk; cbn [fst self_ members_].
  - split; [done|]. destruct (decide (nid = d)) as [->|Hnd].
    + rewrite decide_True by done. by rewrite lookup_insert_eq, Hk.
    + rewrite decide_False by (by intros [? _]). by rewrite lookup_insert_ne.
  - split; [done|]. destruct (decide (nid = d)) as [->|Hnd].
    + rewrite decide_True by done. by rewrite Hk.
    + by rewrite decide_False by (by intros [? _]).
Qed.

Lemma remove_dead_all ds : ∀ acc nid,
  self_ (fold_left remove_dead ds acc).1 = self_ acc.1 ∧
  members_ (fold_left remove_dead ds acc).1 !! nid
  = if decide (nid ∈ ds ∧ nid ≠ node_id (self_ acc.1))
    then (fun k => mkNodeInfo (node_id k) (host k) (port k) false
                              (last_heartbeat k)) <$> members_ acc.1 !! nid
    else members_ acc.1 !! nid.
Proof.
  induction ds as [|d ds IH]; intros acc nid; cbn [fold_left].
  { split; [done|]. rewrite decide_False; [done|].
    intros [Hin _]. by apply elem_of_nil in Hin. }
  destruct (IH (remove_dead acc d) nid) as [Hs Hl].
  destruct (RemoveMember_lookup d acc.1 nid) as [Hs' Hl'].
  assert (Hfst : (remove_dead acc d).1 = (RemoveMember d acc.1).1).
  { unfold remove_dead. by destruct (RemoveMember d acc.1). }
  rewrite Hfst in Hs, Hl. split; [congruence|].
  rewrite Hl, Hl', Hs'. clear.
  destruct (decide (nid ∈ d :: ds ∧ nid ≠ node_id (self_ acc.1)))
    as [[Hin Hns]|Hn3];
    destruct (decide (nid = d ∧ d ≠ node_id (self_ acc.1))) as [[Heq Hd]|Hn1];
    destruct (decide (nid ∈ ds ∧ nid ≠ node_id (self_ acc.1)))
      as [[Hin' Hns']|Hn2];
    try done; try (by destruct (members_ acc.1 !! nid)).
  - exfalso. apply elem_of_cons in Hin as [->|Hin]; [by apply Hn1|by apply Hn2].
  - exfalso. apply Hn3. subst nid. split; [by left|done].
  - exfalso. apply Hn3. subst nid. split; [by left|done].
  - exfalso. apply Hn3. split; [by right|done].
Qed.

(** X19: one pass of failure detection marks dead exactly the live
    members other than the node itself whose heartbeat lies more than
    5000 ms behind [now] in [uint64_t] arithmetic, and changes nothing
    else. The unsigned subtraction wraps: a member whose heartbeat is
    ahead of the local clock is marked dead at once. *)
Theorem failure_pass_marks_silent now m :
  self_ (failure_pass now m).1 = self_ m ∧
  (∀ nid info,
     members_ m !! nid = Some info →
     members_ (failure_pass now m).1 !! nid
     = Some (if is_expired now (node_id (self_ m)) (nid, info)
             then mkNodeInfo (node_id info) (host info) (port info) false
                             (last_heartbeat info)
             else info)) ∧
  (∀ nid info,
     members_ m !! nid = Some info → nid ≠ node_id (self_ m) →
     is_alive info = true →
     0 <= now < last_heartbeat info →
     last_heartbeat info - now < 2 ^ 64 - 5000 →
     members_ (failure_pass now m).1 !! nid
     = Some (mkNodeInfo (node_id info) (host info) (port info) false
                        (last_heartbeat info))).
Proof.
  assert (Hmain : ∀ nid info,
     members_ m !! nid = Some info →
     members_ (failure_pass now m).1 !! nid
     = Some (if is_expired now (node_id (self_ m)) (nid, info)
             then mkNodeInfo (node_id info) (host info) (port info) false
                             (last_heartbeat info)
             else info)).
  { intros nid info Hk. unfold failure_pass.
    destruct (remove_dead_all (dead_nodes now m) (m, []) nid) as [_ Hl].
    rewrite Hl. cbn [fst]. rewrite Hk. cbn [fmap option_fmap option_map].
    destruct (is_expired now (node_id (self_ m)) (nid, info)) eqn:He.
    - rewrite decide_True; [done|]. split.
      + unfold dead_nodes. apply list_elem_of_omap. exists (nid, info).
        split; [by apply elem_of_map_to_list|]. by rewrite He.
      + unfold is_expired in He. cbn [fst] in He.
        destruct (bool_decide_reflect (nid = node_id (self_ m))); [done|done].
    - rewrite decide_False; [done|]. intros [Hin _].
      unfold dead_nodes in Hin. apply list_elem_of_omap in Hin
        as ([k i] & Hki & Hf).
      apply elem_of_map_to_list in Hki.
      destruct (is_expired now (node_id (self_ m)) (k, i)) eqn:He'; [|done].
      injection Hf as <-. cbn [fst] in *. rewrite Hk in Hki.
      injection Hki as <-. congruence. }
  split; [|split; [exact Hmain|]].
  - unfold failure_pass.
    by destruct (remove_dead_all (dead_nodes now m) (m, []) "") as [Hs _].
  - intros nid info Hk Hns Halive Hnow Hahead. rewrite (Hmain nid info Hk).
    assert (He : is_expired now (node_id (self_ m)) (nid, info) = true).
    { unfold is_expired. cbn [fst snd]. rewrite Halive.
      rewrite bool_decide_eq_false_2 by done. cbn [negb andb].
      unfold config.FAILURE_TIMEOUT_MS.
      change (2 ^ 64) with 18446744073709551616 in *.
      apply Z.gtb_lt.
      replace ((now - last_heartbeat info) mod 18446744073709551616)
        with (now - last_heartbeat info + 18446744073709551616); [lia|].
      apply Z.mod_unique with (-1); lia. }
    by rewrite He.
Qed.

Lemma failure_pass_marks_silent_witness :
  members_ (failure_pass 1000 view_AB).1 !! "B"
  = Some (mkNodeInfo "B" "10.0.0.2" 7001 false 5000).
Proof.
  refine (proj2 (proj2 (failure_pass_marks_silent 1000 view_AB)) "B"
                (mkNodeInfo "B" "10.0.0.2" 7001 true 5000) _ _ _ _ _).
  - vm_compute. reflexivity.
  - vm_compute. discriminate.
  - reflexivity.
  - simpl. lia.
  - simpl. lia.
Defined.

End MembershipMoreFacts.


(** ** Replication manager: reads, read repair, deletes *)

Section ReplicationMoreFacts.
Import Replication Scenario.

Lemma find_latest_spec (resps : list ReadResponse) :
  (∀ x v, In x resps → resp_value x = Some v →
          timestamp v <= timestamp (find_latest resps).1) ∧
  ((find_latest resps).2 = true ↔
   ∃ x v, In x resps ∧ resp_value x = Some v ∧ 0 < timestamp v) ∧
  ((find_latest resps).2 = true →
   ∃ x, In x resps ∧ resp_value x = Some (find_latest resps).1).
Proof.
  unfold find_latest.
  destruct (find_latest_from resps (mkVV "" 0 "") false)
    as (_ & Hmax & Hfound & Hheld).
  split; [exact Hmax|]. split.
  - rewrite Hfound. split.
    + intros [?|H]; [done|exact H].
    + intros H. by right.
  - intros Hf. destruct Hheld as [Heq|H]; [|exact H].
    apply Hfound in Hf as [?|(x & v & Hin & Hv & Hpos)]; [done|].
    specialize (Hmax x v Hin Hv). rewrite Heq in Hmax. simpl in *. lia.
Qed.

(** X20: what a quorum read returns. With fewer than [R] ok responses
    it fails with "Read quorum not reached: <n>/<R>" and touches
    nothing. With a quorum and some ok responder holding a value with a
    timestamp above 0 it succeeds with a value held by an ok responder
    whose timestamp no held value exceeds. With a quorum and no such
    value it succeeds with no value, touches nothing and repairs
    nothing. *)
Theorem ReplicatedGet_outcome remote_get rm ring membership key storage nodes :
  Ring.GetNodes key (N_ rm) ring = Some nodes → nodes ≠ [] →
  let resps :=
    collect_responses (map (get_replica remote_get rm membership storage key)
                           nodes) in
  let n := Z.of_nat (length resps) in
  (n < R_ rm →
   ReplicatedGet remote_get rm ring membership key storage
   = Some (mkReadResult false None n
             ("Read quorum not reached: " +:+ pretty n +:+ "/"
                +:+ pretty (R_ rm)), storage, [])) ∧
  (R_ rm <= n →
   (∃ x v, In x resps ∧ resp_value x = Some v ∧ 0 < timestamp v) →
   ∃ latest storage' sent,
     ReplicatedGet remote_get rm ring membership key storage
     = Some (mkReadResult true (Some latest) n "", storage', sent) ∧
     (∃ x, In x resps ∧ resp_value x = Some latest) ∧
     (∀ x v, In x resps → resp_value x = Some v →
             timestamp v <= timestamp latest)) ∧
  (R_ rm <= n →
   (∀ x v, In x resps → resp_value x = Some v → timestamp v <= 0) →
   ReplicatedGet remote_get rm ring membership key storage
   = Some (mkReadResult true None n "", storage, [])).
Proof.
  intros Hnodes Hne resps n. unfold ReplicatedGet. rewrite Hnodes.
  destruct nodes as [|n0 nodes0]; [done|].
  fold resps. fold n.
  destruct (find_latest_spec resps) as (Hmax & Hfound & Hheld).
  split; [|split].
  - intros Hlt. by destruct (Z.ltb_spec n (R_ rm)); [|lia].
  - intros Hge Hex. destruct (Z.ltb_spec n (R_ rm)); [lia|].
    destruct (find_latest resps) as [latest found] eqn:Hfl. cbn [fst snd] in *.
    assert (found = true) as -> by (by apply Hfound).
    destruct (fold_left (repair_step rm membership key latest) resps
                        (storage, [])) as [storage' sent].
    exists latest, storage', sent. split; [done|]. split; [by apply Hheld|done].
  - intros Hge Hnone. destruct (Z.ltb_spec n (R_ rm)); [lia|].
    destruct (find_latest resps) as [latest found] eqn:Hfl. cbn [fst snd] in *.
    destruct found; [|done].
    destruct (proj1 Hfound eq_refl) as (x & v & Hin & Hv & Hpos).
    specialize (Hnone x v Hin Hv). lia.
Qed.

Lemma ReplicatedGet_outcome_witness :
  let storage := (Storage.Put "k" "v" 100 "A" (Storage.open [])).2 in
  ∃ latest storage' sent,
    ReplicatedGet peers_down_get (mkReplication "A" 1 1 1) ring_A view_A "k"
                  storage
    = Some (mkReadResult true (Some latest) 1 "", storage', sent).
Proof.
  intros storage.
  assert (Hnodes : Ring.GetNodes "k" (N_ (mkReplication "A" 1 1 1)) ring_A
                   = Some ["A"]) by (vm_compute; reflexivity).
  destruct (ReplicatedGet_outcome peers_down_get (mkReplication "A" 1 1 1)
              ring_A view_A "k" storage ["A"] Hnodes ltac:(discriminate))
    as (_ & Hlatest & _).
  destruct Hlatest as (latest & storage' & sent & Hrun & _).
  - vm_compute. intros Hc. discriminate Hc.
  - exists (mkReadResponse true (Some (mkVV "v" 100 "A")) "A"),
           (mkVV "v" 100 "A").
    split; [vm_compute; by left|]. split; [reflexivity|simpl; lia].
  - exists latest, storage', sent. exact Hrun.
Defined.



Lemma collect_responses_cons f fs :
  collect_responses (f :: fs)
  = match f with
    | Some r =>
      if Replication.ok r then r :: collect_responses fs
      else collect_responses fs
    | None => collect_responses fs
    end.
Proof. destruct f as [[[|] ? ?]|]; reflexivity. Qed.





(** X22: [ReplicatedDelete] on a non-empty replica list reports
    success exactly when at least [W] replica deletes returned true and
    otherwise fails with "Delete quorum not reached", without counts. A
    local replica that does not hold the key returns false: on a
    cluster of one, deleting a missing key is reported as a failure. *)
Theorem ReplicatedDelete_quorum remote_delete rm ring membership now key
        storage nodes :
  Ring.GetNodes key (N_ rm) ring = Some nodes → nodes ≠ [] →
  ∃ res storage',
    ReplicatedDelete remote_delete rm ring membership now key storage
    = Some (res, storage') ∧
    acks res =
      Z.of_nat (count_occ Bool.bool_dec
                  (launch_deletes remote_delete rm membership key now nodes
                                  storage).1 true) ∧
    (success res = true ↔ acks res >= W_ rm) ∧
    (acks res < W_ rm → error res = "Delete quorum not reached") ∧
    (nodes = [self_id_ rm] → Storage.Get key storage = None →
     1 <= W_ rm →
     res = mkWriteResult false 0 "Delete quorum not reached").
Proof.
  intros Hnodes Hne. unfold ReplicatedDelete. rewrite Hnodes.
  destruct nodes as [|n nodes]; [done|].
  assert (Hmissing : n :: nodes = [self_id_ rm] →
                     Storage.Get key storage = None →
                     (launch_deletes remote_delete rm membership key now
                                     (n :: nodes) storage).1 = [false]).
  { intros [= -> ->] Hget. unfold launch_deletes. cbn [fold_left].
    unfold delete_replica. rewrite decide_True by done.
    unfold Storage.Delete, Storage.Get in *. by rewrite Hget. }
  destruct (launch_deletes remote_delete rm membership key now (n :: nodes)
                           storage) as [futures storage'] eqn:Hl.
  rewrite <- count_acks_spec. cbn [fst] in *.
  destruct (Z.geb_spec (count_acks futures) (W_ rm)) as [Hge|Hlt].
  - eexists _, _. split; [done|]. cbn [acks success error].
    split; [done|]. split; [split; [lia|done]|]. split; [lia|].
    intros Heq Hget HW. rewrite (Hmissing Heq Hget) in Hge.
    cbn in Hge. lia.
  - eexists _, _. split; [done|]. cbn [acks success error].
    split; [done|]. split; [split; [done|lia]|]. split; [done|].
    intros Heq Hget HW. by rewrite (Hmissing Heq Hget).
Qed.

Lemma ReplicatedDelete_quorum_witness :
  ∃ res storage',
    ReplicatedDelete (fun _ _ _ => false) (mkReplication "A" 1 1 1) ring_A
                     view_A 1000 "nope" (Storage.open [])
    = Some (res, storage') ∧
    res = mkWriteResult false 0 "Delete quorum not reached".
Proof.
  assert (Hnodes : Ring.GetNodes "nope" (N_ (mkReplication "A" 1 1 1)) ring_A
                   = Some ["A"]) by (vm_compute; reflexivity).
  destruct (ReplicatedDelete_quorum (fun _ _ _ => false)
              (mkReplication "A" 1 1 1) ring_A view_A 1000 "nope"
              (Storage.open []) ["A"] Hnodes ltac:(discriminate))
    as (res & storage' & Hrun & _ & _ & _ & Hmissing).
  exists res, storage'. split; [exact Hrun|].
  apply Hmissing; [reflexivity|reflexivity|simpl; lia].
Defined.

(** X27: read your write on a key whose only replica is this node.
    With W and R at most one, a [ReplicatedPut] at a clock reading above
    zero and above the stored timestamp is acknowledged, and the
    [ReplicatedGet] that follows returns the value written, stamped with
    that reading and this node, without any repair. *)
Theorem single_replica_read_your_write remote_put remote_get rm ring
        membership now key v storage :
  Ring.GetNodes key (N_ rm) ring = Some [self_id_ rm] →
  W_ rm <= 1 → R_ rm <= 1 → 0 < now →
  (∀ old, Storage.Get key storage = Some old → timestamp old < now) →
  ∃ storage',
    ReplicatedPut remote_put rm ring membership now key v storage
    = Some (mkWriteResult true 1 "", storage') ∧
    ReplicatedGet remote_get rm ring membership key storage'
    = Some (mkReadResult true (Some (mkVV v now (self_id_ rm))) 1 "",
            storage', []).
Proof.
  intros Hnodes HW HR Hnow Hold.
  assert (Hput : Storage.Put key v now (self_id_ rm) storage
                 = (true, Storage.mkEngine
                            (<[key := mkVV v now (self_id_ rm)]>
                               (Storage.store_ storage))
                            (Wal.Append OpType.PUT key v now
                                        (Storage.wal_ storage)))).
  { unfold Storage.Put. unfold Storage.Get in Hold.
    destruct (Storage.store_ storage !! key) as [old|] eqn:Hk; [|done].
    specialize (Hold old eq_refl).
    destruct (Z.geb_spec (timestamp old) now); [lia|done]. }
  eexists. split.
  - unfold ReplicatedPut. rewrite Hnodes.
    unfold launch_puts. cbn [fold_left put_replica].
    rewrite decide_True by done. rewrite Hput. cbn [app count_acks fold_left].
    change (0 + 1) with 1.
    destruct (Z.geb_spec 1 (W_ rm)); [done|lia].
  - unfold ReplicatedGet. rewrite Hnodes.
    cbn [map]. unfold get_replica. rewrite decide_True by done.
    rewrite collect_responses_cons. cbn [Replication.ok].
    change (collect_responses []) with (@nil ReadResponse).
    cbn [length]. change (Z.of_nat 1) with 1.
    destruct (Z.ltb_spec 1 (R_ rm)); [lia|].
    unfold find_latest. cbn [fold_left]. unfold latest_step.
    cbn [resp_value fst]. unfold Storage.Get at 1 2. cbn [Storage.store_].
    rewrite lookup_insert_eq. cbn [timestamp].
    destruct (Z.gtb_spec now 0); [|lia].
    cbn [fold_left]. unfold repair_step, is_stale.
    cbn [resp_value timestamp]. by rewrite Z.ltb_irrefl.
Qed.

Lemma single_replica_read_your_write_witness :
  ∃ storage',
    ReplicatedPut peers_down_put (mkReplication "A" 1 1 1) ring_A view_A 1000
                  "k" "v" (Storage.open [])
    = Some (mkWriteResult true 1 "", storage') ∧
    ReplicatedGet peers_down_get (mkReplication "A" 1 1 1) ring_A view_A "k"
                  storage'
    = Some (mkReadResult true (Some (mkVV "v" 1000 "A")) 1 "", storage', []).
Proof.
  apply (single_replica_read_your_write peers_down_put peers_down_get
           (mkReplication "A" 1 1 1) ring_A view_A 1000 "k" "v"
           (Storage.open [])).
  - vm_compute. reflexivity.
  - simpl. lia.
  - simpl. lia.
  - lia.
  - intros old Hget. vm_compute in Hget. discriminate.
Defined.

End ReplicationMoreFacts.


(** ** Coordinator: the dispatcher and the internal calls *)

Section CoordinatorFacts.
Import Bytes Buffer Client Coordinator Scenario.

Lemma ReadUint8_in data pos pre v post :
  data = pre ++ [v] ++ post → pos = length pre →
  ReadUint8 (mkBuf data pos) = Some (v, mkBuf data (length (pre ++ [v]))).
Proof.
  intros -> ->. rewrite ReadUint8_at. do 3 f_equal. by rewrite length_app.
Qed.

Lemma WriteString_data s b :
  data_ (WriteString s b) = data_ b ++ string_field s.
Proof.
  unfold WriteString, WriteUint32, string_field. cbn [data_].
  by rewrite <- app_assoc.
Qed.

(** What a peer makes of the reply to INTERNAL_GET. *)
Lemma decode_read_reply (held : option VersionedValue) :
  (∀ vv, held = Some vv → value_fits vv) →
  Replication.decode_read
    (received (match held with
               | None => MakeNotFoundResponse
               | Some val => MakeValueResponse val
               end)) = Some held.
Proof.
  intros Hfits. destruct held as [vv|]; [|reflexivity].
  destruct (Hfits vv eq_refl) as (Hv & Hts & Ho).
  unfold MakeValueResponse, received.
  rewrite WriteString_data. unfold WriteUint64. cbn [data_].
  rewrite WriteString_data. unfold WriteUint8, empty. cbn [data_].
  match goal with |- context [mkBuf ?d 0] => set (data := d) end.
  unfold Replication.decode_read.
  rewrite (ReadUint8_in data 0 [] StatusCode.OK
             (string_field (value vv) ++ be64 (timestamp vv)
                ++ string_field (origin_node vv)));
    [|unfold data; by rewrite <- !app_assoc|done].
  change (StatusCode.OK =? StatusCode.OK) with true. cbv iota.
  rewrite (ReadString_in data _ ([] ++ [StatusCode.OK]) (value vv)
             (be64 (timestamp vv) ++ string_field (origin_node vv)));
    [|unfold data; by rewrite <- !app_assoc|done|done].
  rewrite (ReadUint64_in data _
             (([] ++ [StatusCode.OK]) ++ string_field (value vv))
             (timestamp vv) (string_field (origin_node vv)));
    [|unfold data; by rewrite <- !app_assoc|done|done].
  rewrite (ReadString_in data _
             ((([] ++ [StatusCode.OK]) ++ string_field (value vv))
                ++ be64 (timestamp vv)) (origin_node vv) []);
    [|unfold data; by rewrite <- !app_assoc, app_nil_r|done|done].
  by destruct vv.
Qed.

(** X23: INTERNAL_PUT end to end. The request built by
    [KVClient::InternalPut], once received, makes the dispatcher apply
    [ConditionalPut] with the key, value, timestamp and origin that were
    sent, and the reply is OK whether the write was accepted or stale:
    the calling side counts an ack. *)
Theorem internal_put_call env rm ring membership storage key v ts origin :
  Z.of_nat (String.length key) < 2 ^ 32 →
  value_fits (mkVV v ts origin) →
  let served :=
    HandleRequest env rm ring membership storage
                  (received (InternalPut_request key v ts origin)) in
  reply served = MakeOkResponse ∧
  storage_after served
  = (Storage.ConditionalPut key (mkVV v ts origin) storage).2 ∧
  membership_after served = membership ∧
  Replication.decode_ack (received (reply served)) = true.
Proof.
  intros Hk (Hv & Hts & Ho). cbn [value timestamp origin_node] in Hv, Hts, Ho.
  assert (Hrun :
    HandleRequest env rm ring membership storage
                  (received (InternalPut_request key v ts origin))
    = mkServed MakeOkResponse
        (Storage.ConditionalPut key (mkVV v ts origin) storage).2
        membership [] []).
  { unfold InternalPut_request, received.
    rewrite WriteString_data. unfold WriteUint64. cbn [data_].
    rewrite !WriteString_data. unfold WriteUint8, empty. cbn [data_].
    match goal with |- context [mkBuf ?d 0] => set (data := d) end.
    unfold HandleRequest.
    rewrite (ReadUint8_in data 0 [] OpType.INTERNAL_PUT
               (string_field key ++ string_field v ++ be64 ts
                  ++ string_field origin));
      [|unfold data; by rewrite <- !app_assoc|done].
    change (OpType.INTERNAL_PUT =? OpType.PUT) with false.
    change (OpType.INTERNAL_PUT =? OpType.GET) with false.
    change (OpType.INTERNAL_PUT =? OpType.DELETE_OP) with false.
    change (OpType.INTERNAL_PUT =? OpType.INTERNAL_PUT) with true.
    cbv iota. unfold HandleInternalPut.
    rewrite (ReadString_in data _ ([] ++ [OpType.INTERNAL_PUT]) key
               (string_field v ++ be64 ts ++ string_field origin));
      [|unfold data; by rewrite <- !app_assoc|done|done].
    rewrite (ReadString_in data _
               (([] ++ [OpType.INTERNAL_PUT]) ++ string_field key) v
               (be64 ts ++ string_field origin));
      [|unfold data; by rewrite <- !app_assoc|done|done].
    rewrite (ReadUint64_in data _
               ((([] ++ [OpType.INTERNAL_PUT]) ++ string_field key)
                  ++ string_field v) ts (string_field origin));
      [|unfold data; by rewrite <- !app_assoc|done|done].
    rewrite (ReadString_in data _
               (((([] ++ [OpType.INTERNAL_PUT]) ++ string_field key)
                   ++ string_field v) ++ be64 ts) origin []);
      [|unfold data; by rewrite <- !app_assoc, app_nil_r|done|done].
    done. }
  intros served. unfold served. rewrite Hrun.
  cbn [reply storage_after membership_after]. by repeat split.
Qed.

Lemma internal_put_call_witness :
  let storage := (Storage.Put "k" "new" 200 "A" (Storage.open [])).2 in
  let env := mkEnvironment peers_down_put peers_down_get
                           (fun _ _ _ => false) 1000 in
  reply (HandleRequest env (Replication.mkReplication "B" 3 2 2) ring_ABC view_ABC storage
           (received (InternalPut_request "k" "old" 100 "A")))
  = MakeOkResponse.
Proof.
  intros storage env.
  apply (internal_put_call env (Replication.mkReplication "B" 3 2 2) ring_ABC view_ABC
           storage "k" "old" 100 "A").
  - vm_compute. reflexivity.
  - vm_compute. intuition discriminate.
Defined.

(** X24: INTERNAL_GET end to end. The reply of the dispatcher to the
    request built by [KVClient::InternalGet], decoded as the calling
    side decodes it, is exactly what the engine holds for the key:
    the stored value with its timestamp and origin, or nothing. The
    engine and the membership view are left as they were. *)
Theorem internal_get_call env rm ring membership storage key :
  Z.of_nat (String.length key) < 2 ^ 32 →
  (∀ vv, Storage.Get key storage = Some vv → value_fits vv) →
  let served :=
    HandleRequest env rm ring membership storage
                  (received (InternalGet_request key)) in
  Replication.decode_read (received (reply served))
  = Some (Storage.Get key storage) ∧
  storage_after served = storage ∧ membership_after served = membership.
Proof.
  intros Hk Hfits.
  assert (Hrun :
    HandleRequest env rm ring membership storage
                  (received (InternalGet_request key))
    = mkServed (match Storage.Get key storage with
                | None => MakeNotFoundResponse
                | Some val => MakeValueResponse val
                end) storage membership [] []).
  { unfold InternalGet_request, received.
    rewrite WriteString_data. unfold WriteUint8, empty. cbn [data_].
    match goal with |- context [mkBuf ?d 0] => set (data := d) end.
    unfold HandleRequest.
    rewrite (ReadUint8_in data 0 [] OpType.INTERNAL_GET (string_field key));
      [|done|done].
    change (OpType.INTERNAL_GET =? OpType.PUT) with false.
    change (OpType.INTERNAL_GET =? OpType.GET) with false.
    change (OpType.INTERNAL_GET =? OpType.DELETE_OP) with false.
    change (OpType.INTERNAL_GET =? OpType.INTERNAL_PUT) with false.
    change (OpType.INTERNAL_GET =? OpType.INTERNAL_GET) with true.
    cbv iota. unfold HandleInternalGet.
    rewrite (ReadString_in data _ ([] ++ [OpType.INTERNAL_GET]) key []);
      [|unfold data; by rewrite app_nil_r|done|done].
    by destruct (Storage.Get key storage). }
  intros served. unfold served. rewrite Hrun. cbn [reply storage_after
    membership_after]. split; [|done]. by apply decode_read_reply.
Qed.

Lemma internal_get_call_witness :
  let storage := (Storage.Put "k" "new" 200 "A" (Storage.open [])).2 in
  let env := mkEnvironment peers_down_put peers_down_get
                           (fun _ _ _ => false) 1000 in
  Replication.decode_read
    (received (reply (HandleRequest env (Replication.mkReplication "B" 3 2 2) ring_ABC
                        view_ABC storage (received (InternalGet_request "k")))))
  = Some (Some (mkVV "new" 200 "A")).
Proof.
  intros storage env.
  apply (internal_get_call env (Replication.mkReplication "B" 3 2 2) ring_ABC view_ABC
           storage "k").
  - vm_compute. reflexivity.
  - intros vv Hvv. vm_compute in Hvv. injection Hvv as <-.
    vm_compute. intuition discriminate.
Defined.

Lemma ReadString_short (b : ByteBuffer) :
  (length (data_ b) < read_pos_ b + 4)%nat → ReadString b = None.
Proof.
  intros Hlt. unfold ReadString, ReadUint32, take_bytes, EnsureReadable.
  by rewrite leb_correct_conv by lia.
Qed.

(** X25: the dispatcher answers every malformed request with an ERROR
    reply and changes nothing: a request with no byte left to read and
    a PUT, GET, DELETE or INTERNAL request whose payload stops before
    the key get "Internal error: ByteBuffer: underflow"; an opcode
    outside the dispatch table gets "Unknown operation". *)
Theorem malformed_request_is_answered env rm ring membership storage :
  (∀ request,
     (length (data_ request) < read_pos_ request + 1)%nat →
     HandleRequest env rm ring membership storage request
     = mkServed (internal_error underflow_what) storage membership [] []) ∧
  (∀ request op payload,
     ReadUint8 request = Some (op, payload) →
     op ∈ [OpType.PUT; OpType.GET; OpType.DELETE_OP; OpType.INTERNAL_PUT;
           OpType.INTERNAL_GET; OpType.INTERNAL_DELETE] →
     (length (data_ payload) < read_pos_ payload + 4)%nat →
     HandleRequest env rm ring membership storage request
     = mkServed (internal_error underflow_what) storage membership [] []) ∧
  (∀ request op payload,
     ReadUint8 request = Some (op, payload) →
     op ∉ [OpType.PUT; OpType.GET; OpType.DELETE_OP; OpType.INTERNAL_PUT;
           OpType.INTERNAL_GET; OpType.INTERNAL_DELETE; OpType.CLUSTER_INFO;
           OpType.GOSSIP] →
     HandleRequest env rm ring membership storage request
     = mkServed (MakeErrorResponse "Unknown operation") storage membership
                [] []).
Proof.
  split; [|split].
  - intros request Hlt. unfold HandleRequest.
    assert (Hr : ReadUint8 request = None).
    { unfold ReadUint8, take_bytes, EnsureReadable.
      by rewrite leb_correct_conv by lia. }
    by rewrite Hr.
  - intros request op payload Hop Hin Hshort. unfold HandleRequest.
    rewrite Hop. pose proof (ReadString_short payload Hshort) as Hs.
    repeat (apply elem_of_cons in Hin as [->|Hin]);
      [..|by apply elem_of_nil in Hin];
      cbn -[internal_error];
      unfold HandlePut, HandleGet, HandleDelete, HandleInternalPut,
        HandleInternalGet, HandleInternalDelete, quorum_what;
      by rewrite Hs.
  - intros request op payload Hop Hnot. unfold HandleRequest. rewrite Hop.
    repeat (apply not_elem_of_cons in Hnot as [? Hnot]).
    repeat match goal with
           | H : op ≠ ?c |- _ => rewrite (proj2 (Z.eqb_neq op c) H); clear H
           end.
    reflexivity.
Qed.

End CoordinatorFacts.
